(** * duvis: record parser and tree reconstruction

    A shallow embedding of the C sources [duvis.c] (the current revision,
    which takes [struct entry] and the [DU_*] constants from [duvis.h] and
    reads lines through [path_get] of [pathmem.h]) and of the earlier
    single-file revision of the same program, which declares [struct entry]
    and the constants itself and reads lines with [fgets].

    Conventions of the embedding:
    - the global array [entries] is a [list entry]; a pointer [&entries[k]]
      is the index [k];
    - 32-bit unsigned arithmetic is written out with [wrap32];
    - [exit(1)] after a diagnostic is [Fatal], a failed [assert] is [Abort],
      an access outside an allocated object is [Undefined];
    - assertions are compiled in ([NDEBUG] is not defined);
    - loops and the recursion of the builders take fuel; [OutOfFuel] is not
      a behaviour of the program;
    - [malloc] and [realloc] are assumed to succeed and to return a
      non-null pointer, also for a request of zero bytes (as glibc does). *)

From Stdlib Require Import ZArith String Ascii List Lia Permutation.
From stdpp Require Import base tactics list.
Import ListNotations.
Local Open Scope Z_scope.

(** ** Outcomes *)

(** The diagnostics after which the program calls [exit(1)]. *)
Inductive error : Type :=
| BufferOverrun (line : Z)       (* "line %d: buffer overrun" *)
| BufferFormatError (line : Z)   (* "line %d: buffer format error" *)
| SizeParseFailure (line : Z)    (* "line %d: size parse failure" *)
| UnexpectedEntry (index : Z)    (* "index %d: unexpected entry" *)
| MissingEntry (index : Z)       (* "index %d: missing entry" *)
| ZeroLengthEntry.               (* "Mysterious zero-length entry in table." *)

(** Accesses outside an allocated object, or of a value never written. *)
Inductive undefined : Type :=
| EntryOutOfBounds (i : nat)             (* entries[i], i >= n_entries *)
| ComponentOutOfBounds (i : nat) (k : Z) (* entries[i].components[k] *)
| ChildrenOverflow (i : nat)             (* entries[i].children[k], k >= allocated *)
| DepthNotAssigned (i : nat).            (* entries[i].depth read before any write *)

Inductive outcome (A : Type) : Type :=
| Ok (a : A)
| Fatal (e : error)
| Abort
| Undefined (u : undefined)
| OutOfFuel.

Arguments Ok {A} a.
Arguments Fatal {A} e.
Arguments Abort {A}.
Arguments Undefined {A} u.
Arguments OutOfFuel {A}.

Definition bind {A B : Type} (m : outcome A) (k : A -> outcome B) : outcome B :=
  match m with
  | Ok a => k a
  | Fatal e => Fatal e
  | Abort => Abort
  | Undefined u => Undefined u
  | OutOfFuel => OutOfFuel
  end.

Notation "'let!' x ':=' m 'in' k" := (bind m (fun x => k))
  (at level 10, x name, m at level 100, k at level 200,
   format "'[' 'let!'  x  ':='  m  'in' ']' '/' k").

Definition is_fatal {A : Type} (m : outcome A) : bool :=
  match m with Fatal _ => true | _ => false end.

Definition is_ok {A : Type} (m : outcome A) : bool :=
  match m with Ok _ => true | _ => false end.

(** ** Machine integers *)

Definition wrap32 (z : Z) : Z := z mod 2 ^ 32.

(** ** Constants of the earlier revision (in [duvis.h] for [duvis.c]) *)

Definition DU_PATH_MAX : Z := 4096.
Definition DU_COMPONENTS_MAX : Z := DU_PATH_MAX.

(** ** struct entry

    [path] (kept only for a later [free]) is left out.  [n_components] is
    the length of [components]: [read_entries] reallocates the array to
    exactly that many slots and nothing changes either afterwards.
    [depth] is [None] until it is first assigned ([realloc] does not
    initialise it).  [children] holds the slots written so far, in slot
    order, and [children_cap] the number of slots of the last [malloc]. *)
Record entry : Type := mkEntry {
  size : Z;
  components : list string;
  depth : option Z;
  n_children : Z;
  children_cap : nat;
  children : list nat
}.

Definition n_components (e : entry) : Z := Z.of_nat (length (components e)).

Definition set_depth (d : Z) (e : entry) : entry :=
  mkEntry (size e) (components e) (Some d) (n_children e) (children_cap e) (children e).

Definition set_n_children (n : Z) (e : entry) : entry :=
  mkEntry (size e) (components e) (depth e) n (children_cap e) (children e).

(** [e->children = malloc(n * sizeof(e->children[0]))] *)
Definition alloc_children (n : Z) (e : entry) : entry :=
  mkEntry (size e) (components e) (depth e) (n_children e) (Z.to_nat n) [].

Definition set_children (l : list nat) (e : entry) : entry :=
  mkEntry (size e) (components e) (depth e) (n_children e) (children_cap e) l.

(** ** strcmp

    Bytes compare as [unsigned char]; the end of a string is the byte 0,
    which a C string does not hold.  The value is the difference of the
    first differing bytes; the callers use only whether it is zero and its
    sign. *)
Definition byte (c : ascii) : Z := Z.of_nat (nat_of_ascii c).

Fixpoint strcmp (s1 s2 : string) : Z :=
  match s1, s2 with
  | EmptyString, EmptyString => 0
  | EmptyString, String c2 _ => - byte c2
  | String c1 _, EmptyString => byte c1
  | String c1 r1, String c2 r2 =>
      if Ascii.eqb c1 c2 then strcmp r1 r2 else byte c1 - byte c2
  end.

(** ** compare_entries *)

(** The [for] loop: the first non-zero [strcmp] over the components that
    both records have. *)
Fixpoint first_difference (c1 c2 : list string) : option Z :=
  match c1, c2 with
  | s1 :: r1, s2 :: r2 =>
      let q := strcmp s1 s2 in
      if q =? 0 then first_difference r1 r2 else Some q
  | _, _ => None
  end.

Definition compare_entries (e1 e2 : entry) : outcome Z :=
  let n1 := n_components e1 in
  let n2 := n_components e2 in
  match first_difference (components e1) (components e2) with
  | Some q => Ok q
  | None => if n1 =? n2 then Abort else Ok (n1 - n2)
  end.

(** ** compare_sizes and compare_subtrees *)

(** The parameters are [uint32_t]. *)
Definition compare_sizes (s1 s2 : Z) : Z :=
  let s1 := wrap32 s1 in
  let s2 := wrap32 s2 in
  if s1 <? s2 then -1 else if s2 <? s1 then 1 else 0.

(** Conversion of the 64-bit size to [int]: the low 32 bits, read as a
    signed number. *)
Definition to_int (z : Z) : Z :=
  let w := wrap32 z in if w <? 2 ^ 31 then w else w - 2 ^ 32.

Definition component_at (i : nat) (e : entry) (k : Z) : outcome string :=
  if k <? 0 then Undefined (ComponentOutOfBounds i k)
  else match components e !! Z.to_nat k with
       | Some s => Ok s
       | None => Undefined (ComponentOutOfBounds i k)
       end.

Definition entry_at (st : list entry) (i : nat) : outcome entry :=
  match st !! i with
  | Some e => Ok e
  | None => Undefined (EntryOutOfBounds i)
  end.

Definition depth_at (st : list entry) (i : nat) : outcome Z :=
  let! e := entry_at st i in
  match depth e with
  | Some d => Ok d
  | None => Undefined (DepthNotAssigned i)
  end.

Section Comparator.
(** The global [base_depth], set by [main] before the tree is built. *)
Variable base_depth : Z.
Variable st : list entry.

(** The arguments point to slots of a [children] array, which hold
    pointers to entries. *)
Definition compare_subtrees (p1 p2 : nat) : outcome Z :=
  let! e1 := entry_at st p1 in
  let! e2 := entry_at st p2 in
  let s1 := to_int (size e1) in
  let s2 := to_int (size e2) in
  let q := compare_sizes s2 s1 in
  if negb (q =? 0) then Ok q
  else
    let! d1 := depth_at st p1 in
    let! d2 := depth_at st p2 in
    if negb (d1 =? d2) then Abort
    else
      let d := to_int d1 in
      let! c1 := component_at p1 e1 (d + base_depth - 1) in
      let! c2 := component_at p2 e2 (d + base_depth - 1) in
      let q := strcmp c1 c2 in
      if negb (q =? 0) then Ok q else Abort.
End Comparator.

(** ** qsort

    The C library's [qsort] is modelled as an insertion sort that calls the
    comparison function; a comparison that aborts aborts the sort.  Two
    elements that the comparison function cannot order end up next to each
    other in any sorting order, so they are compared. *)
Section Qsort.
Context {A : Type}.
Variable cmp : A -> A -> outcome Z.

Fixpoint insert_sorted (x : A) (l : list A) : outcome (list A) :=
  match l with
  | [] => Ok [x]
  | y :: l' =>
      let! q := cmp x y in
      if q <=? 0 then Ok (x :: y :: l')
      else let! l'' := insert_sorted x l' in Ok (y :: l'')
  end.

Fixpoint qsort (l : list A) : outcome (list A) :=
  match l with
  | [] => Ok []
  | x :: l' => let! s := qsort l' in insert_sorted x s
  end.
End Qsort.

(** ** Access to the entry table *)

Definition update_entry (st : list entry) (i : nat) (f : entry -> entry)
  : outcome (list entry) :=
  match st !! i with
  | Some e => Ok (<[i := f e]> st)
  | None => Undefined (EntryOutOfBounds i)
  end.

(** [entries[p].children[k] = &entries[c]] *)
Definition store_child (st : list entry) (p k c : nat) : outcome (list entry) :=
  let! e := entry_at st p in
  if (k <? children_cap e)%nat
  then Ok (<[p := set_children (take k (children e) ++ c :: drop (S k) (children e)) e]> st)
  else Undefined (ChildrenOverflow p).

(** ** The tree builders *)

Section Builders.
Variable base_depth : Z.

(** *** build_tree_preorder *)

(** Pass 1, [for (int i = start + 1; i < end; i++)]: [steps] is
    [end - i], [n] is [e->n_children]. *)
Fixpoint count_children (st : list entry) (offset : Z) (i steps : nat) (n : Z)
  : outcome Z :=
  match steps with
  | O => Ok n
  | S steps' =>
      let! ei := entry_at st i in
      count_children st offset (S i) steps'
        (if n_components ei =? wrap32 (offset + 1) then wrap32 (n + 1) else n)
  end.

(** "Walk to end of subtree": [steps] is [end - j], so that [j < end]
    is [steps <> 0]. *)
Fixpoint walk_subtree (st : list entry) (i : nat) (offset : Z) (j steps : nat)
  : outcome nat :=
  match steps with
  | O => Ok j
  | S steps' =>
      let! ej := entry_at st j in
      if negb (wrap32 (offset + 1) <? n_components ej) then Ok j
      else
        let! ei := entry_at st i in
        let! ci := component_at i ei offset in
        let! cj := component_at j ej offset in
        if strcmp ci cj =? 0 then walk_subtree st i offset (S j) steps'
        else Ok j
  end.

(** Pass 2, the [while (i < end)] loop; [rec] is the recursive call and
    [n_ch] the local [n_children]. *)
Fixpoint attach (rec : list entry -> nat -> nat -> Z -> outcome (list entry))
    (fuel : nat) (st : list entry) (start end_ : nat) (offset depth : Z)
    (i n_ch : nat) : outcome (list entry * nat) :=
  if (end_ <=? i)%nat then Ok (st, n_ch)
  else
    match fuel with
    | O => OutOfFuel
    | S fuel' =>
        let! ei := entry_at st i in
        if negb (n_components ei =? wrap32 (offset + 1))
        then Fatal (MissingEntry (Z.of_nat i + 1))
        else
          let! st1 := store_child st start n_ch i in
          let! st2 := update_entry st1 i (set_depth (wrap32 (depth + 1))) in
          let! j := walk_subtree st2 i offset (S i) (end_ - S i) in
          let! st3 := (if (S i <? j)%nat
                       then rec st2 i j (wrap32 (depth + 1))
                       else Ok st2) in
          attach rec fuel' st3 start end_ offset depth j (S n_ch)
    end.

Fixpoint build_tree_preorder (fuel : nat) (st : list entry)
    (start end_ : nat) (depth : Z) : outcome (list entry) :=
  match fuel with
  | O => OutOfFuel
  | S fuel' =>
      let! e := entry_at st start in
      let offset := wrap32 (depth + base_depth) in
      if negb (n_components e =? offset)
      then Fatal (UnexpectedEntry (Z.of_nat start + 1))
      else
        let st0 := <[start := set_depth depth e]> st in
        let! n := count_children st0 offset (S start) (end_ - S start)
                    (n_children e) in
        let! st1 := update_entry st0 start
                      (fun e => alloc_children n (set_n_children n e)) in
        let! r := attach (build_tree_preorder fuel') (end_ - S start) st1
                    start end_ offset depth (S start) 0 in
        let! e' := entry_at (fst r) start in
        if negb (Z.of_nat (snd r) =? n_children e') then Abort
        else
          let! sorted := qsort (compare_subtrees base_depth (fst r)) (children e') in
          Ok (<[start := set_children sorted e']> (fst r))
  end.

(** *** build_tree_postorder (duvis.c) *)

(** "Go to the end of this subtree": [steps] is [end - j]. *)
Fixpoint postorder_walk (st : list entry) (i : nat) (offset : Z) (j steps : nat)
  : outcome (list entry * nat) :=
  match steps with
  | O => Ok (st, j)
  | S steps' =>
      let! ej := entry_at st j in
      if negb (n_components ej <? offset) then Ok (st, j)
      else
        let! ei := entry_at st i in
        let! ci := component_at i ei offset in
        let! cj := component_at j ej offset in
        if negb (strcmp ci cj =? 0) then Ok (st, j)
        else
          let! st' := update_entry st j
                        (fun e => set_n_children (wrap32 (n_children e + 1)) e) in
          postorder_walk st' i offset (S j) steps'
  end.

(** "Fill direct children", [for (int k = i; k < j; k++)]: [steps] is
    [j - k]. *)
Fixpoint fill_children (st : list entry) (offset : Z) (j k steps n_ch : nat)
  : outcome (list entry * nat) :=
  match steps with
  | O => Ok (st, n_ch)
  | S steps' =>
      let! ek := entry_at st k in
      if n_components ek =? wrap32 (offset + 2)
      then
        let! st' := store_child st j n_ch k in
        fill_children st' offset j (S k) steps' (S n_ch)
      else fill_children st offset j (S k) steps' n_ch
  end.

(** The [while (i < end)] loop. *)
Fixpoint postorder_loop
    (rec : list entry -> nat -> nat -> Z -> outcome (list entry))
    (fuel : nat) (st : list entry) (end_ i : nat) : outcome (list entry) :=
  if (end_ <=? i)%nat then Ok st
  else
    match fuel with
    | O => OutOfFuel
    | S fuel' =>
        let! ei := entry_at st i in
        let offset := wrap32 (n_components ei - 2) in
        let! w := postorder_walk st i offset (S i) (end_ - S i) in
        let j := snd w in
        let! st2 := (if (S i <? j)%nat
                     then rec (fst w) (S i) j (wrap32 (n_components ei - 1))
                     else Ok (fst w)) in
        let! ej := entry_at st2 j in
        let st3 := <[j := alloc_children (n_children ej) ej]> st2 in
        let! f := fill_children st3 offset j i (j - i) 0 in
        postorder_loop rec fuel' (fst f) end_ j
    end.

(** "Set up for calculation": the two assignments through [e]. *)
Definition postorder_setup (st : list entry) (start : nat) (depth : Z)
  : outcome (list entry) :=
  update_entry st start (fun e => set_n_children 0 (set_depth depth e)).

Fixpoint build_tree_postorder (fuel : nat) (st : list entry)
    (start end_ : nat) (depth : Z) : outcome (list entry) :=
  match fuel with
  | O => OutOfFuel
  | S fuel' =>
      let! st0 := postorder_setup st start depth in
      postorder_loop (build_tree_postorder fuel') (end_ - start) st0 end_ start
  end.
End Builders.

(** ** The record parser

    The part of [read_entries] that parses one line buffer is the same in
    both revisions.  The buffer is a C string: it ends at its first zero
    byte, which the end of the [string] stands for. *)

Definition NUL : ascii := "000"%char.
Definition NL : ascii := "010"%char.
Definition TAB : ascii := "009"%char.
Definition SPACE : ascii := " "%char.
Definition SLASH : ascii := "/"%char.

Definition isdigit (c : ascii) : bool :=
  (48 <=? byte c) && (byte c <=? 57).

(** [while (isdigit( *index)) index++;]: the digits passed and the rest. *)
Fixpoint skip_digits (s : string) : string * string :=
  match s with
  | EmptyString => (EmptyString, EmptyString)
  | String c r =>
      if isdigit c
      then let (d, rest) := skip_digits r in (String c d, rest)
      else (EmptyString, s)
  end.

Fixpoint digits_value (acc : Z) (s : string) : Z :=
  match s with
  | EmptyString => acc
  | String c r => digits_value (10 * acc + (byte c - 48)) r
  end.

(** [sscanf(path, "%" PRIu64, &entry->size)] on a string of digits: the
    number of items scanned and the value stored (glibc stores the largest
    value when the digits do not fit). *)
Definition sscanf_u64 (s : string) : Z * Z :=
  match s with
  | EmptyString => (-1, 0)
  | _ => (1, Z.min (digits_value 0 s) (2 ^ 64 - 1))
  end.

(** The component loop: a component ends at a slash; the line ends at a
    newline or at the end of the C string. *)
Fixpoint split_components (s : string) : list string :=
  match s with
  | EmptyString => [EmptyString]
  | String c r =>
      if Ascii.eqb c NL || Ascii.eqb c NUL then [EmptyString]
      else if Ascii.eqb c SLASH then EmptyString :: split_components r
      else match split_components r with
           | x :: xs => String c x :: xs
           | [] => [String c EmptyString]
           end
  end.

Definition parse_line (path : string) (line_number : Z) : outcome entry :=
  let (digits, rest) := skip_digits path in
  match digits, rest with
  | EmptyString, _ => Fatal (BufferFormatError line_number)
  | _, EmptyString => Fatal (BufferFormatError line_number)
  | _, String c rest' =>
      if negb (Ascii.eqb c SPACE || Ascii.eqb c TAB)
      then Fatal (BufferFormatError line_number)
      else
        let (n_scanned, sz) := sscanf_u64 digits in
        if negb (n_scanned =? 1) then Fatal (SizeParseFailure line_number)
        else
          let comps := split_components rest' in
          (* assert(entry->n_components < DU_COMPONENTS_MAX) after each
             increment *)
          if DU_COMPONENTS_MAX <=? Z.of_nat (length comps) then Abort
          else Ok (mkEntry sz comps None 0 0 [])
  end.

(** ** duvis.c: read_entries and main

    [path_get] and [DU_BUFFER_LENGTH] come from [pathmem.h], which is not
    part of the sources at hand: they are parameters.  [path_get] fills the
    buffer from the stream and returns a character count, [0] at the end of
    the input and [-1] on an overrun. *)

(** What [main] leaves behind: the table, the root and [base_depth] when a
    tree was built, and the lines for which [read_entries] wrote
    "path buffer overrun" to [stderr] (without exiting). *)
Record run : Type := mkRun {
  entries : list entry;
  root_entry : option nat;
  run_base_depth : Z;
  overruns : list Z
}.

Module Duvis.
Section Program.
Variable FILE : Type.
Variable DU_BUFFER_LENGTH : Z.
Variable path_get : Z -> FILE -> bool -> Z * string * FILE.

Fixpoint read_entries (fuel : nat) (f : FILE) (zeroflag : bool)
    (table : list entry) (line_number : Z) (log : list Z)
  : outcome (list entry * list Z) :=
  match fuel with
  | O => OutOfFuel
  | S fuel' =>
      let '(nchars, path, f') := path_get DU_BUFFER_LENGTH f zeroflag in
      let log' := if nchars =? -1 then log ++ [line_number + 1] else log in
      if nchars =? 0 then Ok (table, log')
      else
        let line_number' := line_number + 1 in
        let! e := parse_line path line_number' in
        read_entries fuel' f' zeroflag (table ++ [e]) line_number' log'
  end.

(** The builders get [n_entries] units of fuel, which is enough for the
    pre-order one. *)
Definition main (fuel : nat) (pflag zeroflag : bool) (inf : FILE) : outcome run :=
  let! r := read_entries fuel inf zeroflag [] 0 [] in
  let table := fst r in
  let n_entries := length table in
  if (n_entries =? 0)%nat then Ok (mkRun table None 0 (snd r))
  else if pflag then
    let! sorted := qsort compare_entries table in
    let! e0 := entry_at sorted 0 in
    if n_components e0 =? 0 then Fatal ZeroLengthEntry
    else
      let base_depth := n_components e0 in
      let! built := build_tree_preorder base_depth n_entries sorted 0 n_entries 0 in
      Ok (mkRun built (Some 0%nat) base_depth (snd r))
  else
    let! e := entry_at table (n_entries - 1) in
    let base_depth := n_components e in
    let! built := build_tree_postorder n_entries table 0 n_entries 0 in
    Ok (mkRun built (Some (n_entries - 1)%nat) base_depth (snd r)).
End Program.
End Duvis.

(** ** The earlier revision: read_entries, build_tree_postorder and main *)

Module Rev0.

(** "Buffer is size field + separator + "./" + path + newline." *)
Definition du_buffer_length : nat := 17 + 1 + (2 + Z.to_nat DU_PATH_MAX) + 1.

(** [fgets(path, n, f)] on a stream of bytes: at most [n - 1] bytes are
    read, up to and including the first newline; [None] is the null
    pointer returned at the end of the input.  Read errors are not
    modelled. *)
Fixpoint fgets_chars (n : nat) (s : string) : string * string :=
  match n, s with
  | O, _ => (EmptyString, s)
  | _, EmptyString => (EmptyString, EmptyString)
  | S n', String c r =>
      if Ascii.eqb c NL then (String c EmptyString, r)
      else let (a, b) := fgets_chars n' r in (String c a, b)
  end.

Definition fgets (n : nat) (f : string) : option (string * string) :=
  match f with
  | EmptyString => None
  | _ => Some (fgets_chars (n - 1) f)
  end.

(** The bytes [fgets] writes into the buffer: the bytes read, then a
    zero byte. *)
Definition store_string (buf : list ascii) (s : string) : list ascii :=
  list_ascii_of_string s ++ NUL :: drop (S (String.length s)) buf.

(** The C string that starts at the beginning of a buffer. *)
Fixpoint c_string (buf : list ascii) : string :=
  match buf with
  | [] => EmptyString
  | c :: r => if Ascii.eqb c NUL then EmptyString else String c (c_string r)
  end.

Section Reader.
(** The contents of a freshly allocated line buffer. *)
Variable junk : ascii.

Fixpoint read_entries (fuel : nat) (f : string) (table : list entry)
    (line_number : Z) : outcome (list entry) :=
  match fuel with
  | O => OutOfFuel
  | S fuel' =>
      let path0 := <[(du_buffer_length - 1)%nat := NUL]> (repeat junk du_buffer_length) in
      match fgets du_buffer_length f with
      | None => Ok table
      | Some (chunk, f') =>
          let path := store_string path0 chunk in
          let line_number' := line_number + 1 in
          match path !! (du_buffer_length - 1)%nat with
          | Some c =>
              if negb (Ascii.eqb c NUL) then Fatal (BufferOverrun line_number')
              else
                let! e := parse_line (c_string path) line_number' in
                read_entries fuel' f' (table ++ [e]) line_number'
          | None => Undefined (EntryOutOfBounds du_buffer_length)
          end
      end
  end.
End Reader.

Section Builder.
(** "Go to the end": [steps] is [end - j]. *)
Fixpoint postorder_walk (st : list entry) (i : nat) (offset : Z) (j steps : nat)
  : outcome (list entry * nat) :=
  match steps with
  | O => Ok (st, j)
  | S steps' =>
      let! ej := entry_at st j in
      if negb (n_components ej <? wrap32 (offset - 1)) then Ok (st, j)
      else
        let! ei := entry_at st i in
        let! ci := component_at i ei offset in
        let! cj := component_at j ej offset in
        if strcmp ci cj =? 0 then Ok (st, j)
        else
          let! st' := update_entry st j
                        (fun e => set_n_children (wrap32 (n_children e + 1)) e) in
          postorder_walk st' i offset (S j) steps'
  end.

(** [for (int k = j - 1; k > i; k--)]: [steps] is [k - i]. *)
Fixpoint fill_children (st : list entry) (offset : Z) (j k steps n_ch : nat)
  : outcome (list entry * nat) :=
  match steps with
  | O => Ok (st, n_ch)
  | S steps' =>
      let! ek := entry_at st k in
      if n_components ek =? wrap32 (offset + 1)
      then
        let! st' := store_child st j n_ch k in
        fill_children st' offset j (k - 1) steps' (S n_ch)
      else fill_children st offset j (k - 1) steps' n_ch
  end.

Fixpoint postorder_loop
    (rec : list entry -> nat -> nat -> Z -> outcome (list entry))
    (fuel : nat) (st : list entry) (end_ : nat) (depth : Z) (i : nat)
  : outcome (list entry) :=
  if (end_ <=? i)%nat then Ok st
  else
    match fuel with
    | O => OutOfFuel
    | S fuel' =>
        let j0 := S i in
        let! st0 := update_entry st j0
                      (fun e => set_n_children 0 (set_depth (wrap32 (depth - 1)) e)) in
        let! ei := entry_at st0 i in
        let offset := wrap32 (n_components ei - 1) in
        let! w := postorder_walk st0 i offset j0 (end_ - j0) in
        let j := snd w in
        let! st2 := (if (S i <? j)%nat
                     then let! ej := entry_at (fst w) j in
                          rec (fst w) i j (wrap32 (n_components ej - 1))
                     else Ok (fst w)) in
        let! ej := entry_at st2 j in
        let st3 := <[j := alloc_children (n_children ej) ej]> st2 in
        let! f := fill_children st3 offset j (j - 1) (j - 1 - i) 0 in
        let! ej' := entry_at (fst f) j in
        if negb (Z.of_nat (snd f) =? n_children ej') then Abort
        else postorder_loop rec fuel' (fst f) end_ depth j
    end.

Fixpoint build_tree_postorder (fuel : nat) (st : list entry)
    (start end_ : nat) (depth : Z) : outcome (list entry) :=
  match fuel with
  | O => OutOfFuel
  | S fuel' =>
      let! st0 := update_entry st start (set_depth depth) in
      postorder_loop (build_tree_postorder fuel') (end_ - start) st0 end_ depth start
  end.
End Builder.

Definition main (junk : ascii) (fuel : nat) (pflag : bool) (stdin : string)
  : outcome run :=
  let! table := read_entries junk (S (String.length stdin)) stdin [] 0 in
  let n_entries := length table in
  if (n_entries =? 0)%nat then Ok (mkRun table None 0 [])
  else if negb pflag then
    let! e := entry_at table (n_entries - 1) in
    let base_depth := n_components e in
    let! e0 := entry_at table 0 in
    let! built := build_tree_postorder fuel table 0 (n_entries - 1)
                    (wrap32 (n_components e0 - 1)) in
    Ok (mkRun built None base_depth [])
  else
    let! sorted := qsort compare_entries table in
    let! e0 := entry_at sorted 0 in
    if n_components e0 =? 0 then Fatal ZeroLengthEntry
    else
      let base_depth := n_components e0 in
      let! built := build_tree_preorder base_depth fuel sorted 0 n_entries 0 in
      Ok (mkRun built (Some 0%nat) base_depth []).
End Rev0.

(** * Predicates used in the statements *)

(** A C string holds no zero byte. *)
Fixpoint nul_free (s : string) : bool :=
  match s with
  | EmptyString => true
  | String c r => negb (Ascii.eqb c NUL) && nul_free r
  end.


(** A record as [read_entries] leaves it: no children yet, at least one
    and fewer than [DU_COMPONENTS_MAX] components, each a C string. *)
Definition parsed (e : entry) : Prop :=
  n_children e = 0 /\ children e = [] /\ children_cap e = 0%nat /\
  0 < n_components e < DU_COMPONENTS_MAX /\
  Forall (fun s => nul_free s = true) (components e).

(** [fails_only P m]: if [m] is a fatal exit, its diagnostic satisfies [P]. *)
Definition fails_only {A : Type} (P : error -> Prop) (m : outcome A) : Prop :=
  match m with
  | Fatal e => P e
  | _ => True
  end.

(** [fueled m]: [m] is a behaviour of the program, not the end of the
    model's fuel. *)
Definition fueled {A : Type} (m : outcome A) : Prop := m <> OutOfFuel.

Definition parser_error (e : error) : Prop :=
  match e with
  | BufferFormatError _ | SizeParseFailure _ => True
  | _ => False
  end.

Definition builder_error (e : error) : Prop :=
  match e with
  | UnexpectedEntry _ | MissingEntry _ => True
  | _ => False
  end.

Definition not_zero_length (e : error) : Prop := e <> ZeroLengthEntry.

(** ** What the renderers show of a node

    [show_entries] prints, for the node of depth 0, the first [base_depth]
    components joined by slashes, and for any other node its last
    component. *)
Fixpoint join_path (l : list string) : string :=
  match l with
  | [] => EmptyString
  | s :: r => String.append (String SLASH s) (join_path r)
  end.

Definition label (base_depth : Z) (e : entry) : string :=
  match depth e with
  | Some 0 =>
      match components e with
      | c0 :: rest => String.append c0 (join_path (take (Z.to_nat base_depth - 1) rest))
      | [] => EmptyString
      end
  | _ => List.last (components e) EmptyString
  end.

Definition node_triples (r : run) : list (string * Z * option Z) :=
  map (fun e => (label (run_base_depth r) e, size e, depth e)) (entries r).

(** The children of a node, as the renderers walk them: the first
    [n_children] slots of its array. *)
Definition shown_children (st : list entry) (p : nat) : list nat :=
  match st !! p with
  | Some e => take (Z.to_nat (n_children e)) (children e)
  | None => []
  end.

(** ** An input given line by line *)

(** Modelled from the spec: [path_get] of [pathmem.c], which is not among
    the sources.  The stream is the list of the lines still to be read,
    without their terminators.  A call hands over the next line and returns
    the number of bytes read (the line and its terminator); it returns [0]
    at the end of the input and [-1] for a line that does not fit a buffer
    of [len] bytes. *)
Definition path_get_lines (len : Z) (f : list string) (zeroflag : bool)
  : Z * string * list string :=
  match f with
  | [] => (0, EmptyString, [])
  | l :: r =>
      if len <=? Z.of_nat (String.length l) + 1
      then (-1, substring 0 (Z.to_nat len - 1) l, r)
      else (Z.of_nat (String.length l) + 1, l, r)
  end.

(** [duvis.c] run on such an input, with the buffer length of the earlier
    revision. *)
Definition duvis (pflag : bool) (lines : list string) : outcome run :=
  Duvis.main (list string) (Z.of_nat Rev0.du_buffer_length) path_get_lines
    (S (length lines)) pflag false lines.

(** ** Well-formed line prefixes

    A line is well prefixed when its leading run of digits is not empty and
    is immediately followed by a space or a tab ([seen]: a digit has been
    passed). *)
Fixpoint digits_then_blank (seen : bool) (s : string) : bool :=
  match s with
  | EmptyString => false
  | String c r =>
      if isdigit c then digits_then_blank true r
      else seen && (Ascii.eqb c SPACE || Ascii.eqb c TAB)
  end.

Definition format_ok (line : string) : bool := digits_then_blank false line.

(** A string cut at its first zero byte: what C code sees of it. *)
Fixpoint cut_at_nul (s : string) : string :=
  match s with
  | EmptyString => EmptyString
  | String c r => if Ascii.eqb c NUL then EmptyString else String c (cut_at_nul r)
  end.

Fixpoint newline_free (s : string) : bool :=
  match s with
  | EmptyString => true
  | String c r => negb (Ascii.eqb c NL) && newline_free r
  end.

(** The text of an input: every line followed by a newline, then [rest]. *)
Fixpoint unlines (lines : list string) (rest : string) : string :=
  match lines with
  | [] => rest
  | l :: r => String.append l (String NL (unlines r rest))
  end.

(** A line of text that fits the line buffer of the earlier revision, with
    its newline and the terminating zero byte. *)
Definition fits_buffer (line : string) : Prop :=
  newline_free line = true /\ nul_free line = true /\
  (String.length line + 2 <= Rev0.du_buffer_length)%nat.

(** A line from which [read_entries] makes a record. *)
Definition well_formed_line (line : string) : Prop :=
  fits_buffer line /\ is_ok (parse_line (String.append line (String NL EmptyString)) 0) = true.

(** ** The buffers of the reading loop of duvis.c

    [hands_over path_get len zeroflag f bufs f']: called again and again
    from the stream [f], [path_get] fills the buffer with the strings
    [bufs] in turn, each time with a character count other than [0], and
    leaves the stream [f']. *)
Fixpoint hands_over {FILE : Type} (path_get : Z -> FILE -> bool -> Z * string * FILE)
    (len : Z) (zeroflag : bool) (f : FILE) (bufs : list string) (f' : FILE) : Prop :=
  match bufs with
  | [] => f = f'
  | b :: r =>
      exists (nchars : Z) (f1 : FILE),
        path_get len f zeroflag = (nchars, b, f1) /\ nchars <> 0 /\
        hands_over path_get len zeroflag f1 r f'
  end.

(** A buffer from which the parser makes a record. *)
Definition parses (path : string) : Prop := is_ok (parse_line path 0) = true.

(** ** A line longer than the line buffer

    [1 aaa...a2 b]: a size, a blank, 4114 letters and three more bytes,
    4119 bytes before the newline, where the buffer of the earlier revision
    takes 4116 and the zero byte. *)
Definition filler (n : nat) : string := string_of_list_ascii (repeat "a"%char n).

Definition overlong_line : string :=
  String.append "1 " (String.append (filler 4114) "2 b").

(** ** The tree left in the table

    [children_at st k] is the children list of record [k]; [children_in st
    lo hi] lists the children of the records [lo], ..., [hi - 1] one after
    the other. *)
Definition children_at (st : list entry) (k : nat) : list nat :=
  match st !! k with
  | Some e => children e
  | None => []
  end.

Definition children_in (st : list entry) (lo hi : nat) : list nat :=
  concat (map (children_at st) (seq lo (hi - lo))).

(** The component sequence of a record without its last component. *)
Definition truncated (e : entry) : list string :=
  take (length (components e) - 1) (components e).

(** In the table of component sequences [comps], every record after
    [start] and before [end_] begins with the components of record
    [start]. *)
Definition rooted (comps : list (list string)) (start end_ : nat) : Prop :=
  forall (k : nat) (cs ck : list string),
    comps !! start = Some cs -> (start < k < end_)%nat -> comps !! k = Some ck ->
    cs `prefix_of` ck.

(** Component sequences as the parser makes them. *)
Definition c_strings (c : list string) : Prop :=
  Z.of_nat (length c) < DU_COMPONENTS_MAX /\ Forall (fun s => nul_free s = true) c.

(** Every child listed by a record from [lo] to [hi - 1] has the
    components of that record and one more. *)
Definition extends_parent (comps : list (list string)) (st : list entry)
    (lo hi : nat) : Prop :=
  forall (p : nat) (ep : entry) (c : nat),
    (lo <= p < hi)%nat -> st !! p = Some ep -> c ∈ children ep ->
    exists x : string, comps !! c = Some (components ep ++ [x]).

(** From [lo] to [hi - 1], [n_children] is the number of children listed,
    so that the renderers walk the whole list. *)
Definition children_counted (st : list entry) (lo hi : nat) : Prop :=
  forall (p : nat) (ep : entry),
    (lo <= p < hi)%nat -> st !! p = Some ep ->
    n_children ep = Z.of_nat (length (children ep)).

(** What a call of the builder on the range from [start] to [end_]
    requires of the table, and what it leaves. *)
Definition build_pre (st : list entry) (start end_ : nat) : Prop :=
  (start < end_ <= length st)%nat /\
  (forall (k : nat) (e : entry),
      (start <= k < end_)%nat -> st !! k = Some e ->
      children e = [] /\ n_children e = 0) /\
  Forall c_strings (components <$> st).

Definition built (st st' : list entry) (start end_ : nat) : Prop :=
  components <$> st' = components <$> st /\
  size <$> st' = size <$> st /\
  (forall k : nat, ~ (start <= k < end_)%nat -> st' !! k = st !! k) /\
  children_counted st' start end_ /\
  Permutation (children_in st' start end_) (seq (S start) (end_ - S start)) /\
  (rooted (components <$> st) start end_ ->
   extends_parent (components <$> st) st' start end_).

Definition build_spec
    (rec : list entry -> nat -> nat -> Z -> outcome (list entry)) : Prop :=
  forall (st : list entry) (start end_ : nat) (depth : Z) (st' : list entry),
    build_pre st start end_ -> rec st start end_ depth = Ok st' ->
    built st st' start end_.

(** The invariant of the attach pass at the head of its loop: [st_init] is
    the table at the start of the pass, [i] the loop variable and [n_ch]
    the local child count. *)
Definition attach_inv (comps : list (list string)) (st_init st : list entry)
    (start end_ i n_ch : nat) : Prop :=
  components <$> st = comps /\
  size <$> st = size <$> st_init /\
  (S start <= i <= end_)%nat /\
  (forall (k : nat) (e : entry),
      (i <= k < end_)%nat -> st !! k = Some e ->
      children e = [] /\ n_children e = 0) /\
  (exists es : entry, st !! start = Some es /\ length (children es) = n_ch) /\
  children_counted st (S start) i /\
  Permutation (children_at st start ++ children_in st (S start) i)
              (seq (S start) (i - S start)) /\
  (forall k : nat, ~ (start <= k < end_)%nat -> st !! k = st_init !! k) /\
  (rooted comps start end_ -> extends_parent comps st start i).

(** ** The statements about the finished tree *)

(** Every record but the first is listed exactly once among all the
    children lists, and the first is listed in none. *)
Definition listed_once (st : list entry) : Prop :=
  Permutation (concat (map children st)) (seq 1 (length st - 1)).

(** The components of every listed child, without the last one, are the
    components of the node that lists it. *)
Definition children_extend_parents (st : list entry) : Prop :=
  forall (p c : nat) (ep ec : entry),
    st !! p = Some ep -> c ∈ children ep -> st !! c = Some ec ->
    truncated ec = components ep.

(** Every [n_children] is the length of the list it counts. *)
Definition all_children_counted (st : list entry) : Prop :=
  forall (p : nat) (ep : entry),
    st !! p = Some ep -> n_children ep = Z.of_nat (length (children ep)).

(** * The rest of the program *)

(** ** The order of compare_entries *)

(** [sorts_before e1 e2]: [compare_entries] returns a negative number, so
    that [qsort] puts [e1] before [e2]. *)
Definition sorts_before (e1 e2 : entry) : Prop :=
  exists q : Z, compare_entries e1 e2 = Ok q /\ q < 0.

(** The components of a record are C strings. *)
Definition c_string_components (e : entry) : Prop :=
  Forall (fun s => nul_free s = true) (components e).

(** The same order, on component sequences: the first differing component
    decides, and a sequence comes before its extensions. *)
Definition path_before (c1 c2 : list string) : Prop :=
  match first_difference c1 c2 with
  | Some q => q < 0
  | None => (length c1 < length c2)%nat
  end.

(** [sorted_by R l]: every element of [l] is related by [R] to every later
    one. *)
Definition sorted_by {A : Type} (R : A -> A -> Prop) (l : list A) : Prop :=
  forall (i j : nat) (x y : A),
    (i < j)%nat -> l !! i = Some x -> l !! j = Some y -> R x y.

(** A table in the order of [compare_entries]: every record sorts before
    every later one. *)
Definition ascending (l : list entry) : Prop := sorted_by sorts_before l.

(** ** The text of a line *)

(** What the parser reads of a buffer: the bytes before the first newline
    or zero byte. *)
Fixpoint line_text (s : string) : string :=
  match s with
  | EmptyString => EmptyString
  | String c r =>
      if Ascii.eqb c NL || Ascii.eqb c NUL then EmptyString
      else String c (line_text r)
  end.

Fixpoint slash_free (s : string) : bool :=
  match s with
  | EmptyString => true
  | String c r => negb (Ascii.eqb c SLASH) && slash_free r
  end.

Fixpoint count_slashes (s : string) : nat :=
  match s with
  | EmptyString => O
  | String c r => if Ascii.eqb c SLASH then S (count_slashes r) else count_slashes r
  end.

(** ** The diagnostics *)

Definition format_error (e : error) : Prop :=
  match e with
  | BufferFormatError _ => True
  | _ => False
  end.

Definition missing_entry (e : error) : Prop :=
  match e with
  | MissingEntry _ => True
  | _ => False
  end.

(** ** The records of a text *)

(** [record_of line e]: the parser makes the record [e] from the line,
    whatever its number. *)
Definition record_of (line : string) (e : entry) : Prop :=
  forall k : Z, parse_line line k = Ok e.

(** The last line of a text, when it is not ended by a newline. *)
Definition last_line (last : string) : list string :=
  match last with
  | EmptyString => []
  | _ => [last]
  end.

(** ** The tree of the pre-order builder, in full *)

(** The order of [compare_subtrees] on the records of two siblings: the
    larger size first, the sizes compared by their low 32 bits, and for
    equal sizes the last components in ascending order. *)
Definition sibling_before (e1 e2 : entry) : Prop :=
  wrap32 (size e2) < wrap32 (size e1) \/
  (wrap32 (size e1) = wrap32 (size e2) /\
   strcmp (List.last (components e1) EmptyString)
          (List.last (components e2) EmptyString) < 0).

(** The children of record [p] are listed in that order. *)
Definition children_sorted (st : list entry) (p : nat) : Prop :=
  sorted_by (fun c1 c2 : nat =>
               forall e1 e2 : entry,
                 st !! c1 = Some e1 -> st !! c2 = Some e2 -> sibling_before e1 e2)
            (children_at st p).

(** Record [p] with its depth and its children in place: the depth is the
    number of components beyond [base_depth], and every child is a later
    record, before [hi], with one component more. *)
Definition node_ok (base : Z) (st : list entry) (hi p : nat) (ep : entry) : Prop :=
  depth ep = Some (n_components ep - base) /\
  forall c : nat, c ∈ children ep ->
    (p < c < hi)%nat /\
    exists ec : entry, st !! c = Some ec /\ n_components ec = n_components ep + 1.

(** What a call of the builder on the range from [start] to [end_] leaves,
    beyond [built]. *)
Definition tree_built (base : Z) (st st' : list entry) (start end_ : nat) : Prop :=
  (forall k : nat, ~ (start <= k < end_)%nat -> st' !! k = st !! k) /\
  components <$> st' = components <$> st /\
  size <$> st' = size <$> st /\
  (forall (p : nat) (ep : entry),
      (start <= p < end_)%nat -> st' !! p = Some ep -> node_ok base st' end_ p ep) /\
  (forall p : nat, (start <= p < end_)%nat -> children_sorted st' p).

Definition tree_spec (base : Z)
    (rec : list entry -> nat -> nat -> Z -> outcome (list entry)) : Prop :=
  forall (st : list entry) (start end_ : nat) (depth : Z) (st' : list entry),
    build_pre st start end_ -> 0 <= depth -> depth + base < 2 ^ 32 ->
    rec st start end_ depth = Ok st' ->
    tree_built base st st' start end_.

(** The invariant of the attach pass for [tree_built]: [st1] is the table
    at the start of the pass. *)
Definition attach_tree_inv (base : Z) (st1 st : list entry) (start end_ : nat)
    (offset : Z) (i n_ch : nat) : Prop :=
  (S start <= i <= end_)%nat /\
  (forall k : nat, ~ (start <= k < i)%nat -> st !! k = st1 !! k) /\
  components <$> st = components <$> st1 /\
  size <$> st = size <$> st1 /\
  (exists es es1 : entry,
      st !! start = Some es /\ st1 !! start = Some es1 /\
      depth es = depth es1 /\ n_children es = n_children es1 /\
      children_cap es = children_cap es1 /\
      length (children es) = n_ch /\ NoDup (children es) /\
      forall c : nat, c ∈ children es ->
        (start < c < i)%nat /\
        exists ec : entry, st !! c = Some ec /\ n_components ec = offset + 1) /\
  (forall (p : nat) (ep : entry),
      (S start <= p < i)%nat -> st !! p = Some ep -> node_ok base st i p ep) /\
  (forall p : nat, (S start <= p < i)%nat -> children_sorted st p).

(** The finished tree: every depth is the number of components beyond
    [base_depth], every child is a later record with one component more
    than its parent, and every children list is in the order of
    [compare_subtrees]. *)
Definition depths_by_components (base : Z) (st : list entry) : Prop :=
  forall (k : nat) (e : entry), st !! k = Some e -> depth e = Some (n_components e - base).

Definition children_one_deeper (st : list entry) : Prop :=
  forall (p c : nat) (ep : entry),
    st !! p = Some ep -> c ∈ children ep ->
    (p < c)%nat /\
    exists ec : entry, st !! c = Some ec /\ n_components ec = n_components ep + 1.

Definition all_children_sorted (st : list entry) : Prop :=
  forall p : nat, children_sorted st p.

(** ** The renderers

    [stdout] is the list of the lines written, each without its newline. *)

(** "Number of spaces of indent per level." *)
Definition N_INDENT : Z := 2.

(** [printf("%" PRIu64, n)]: the decimal digits of a 64-bit unsigned
    number, of which there are at most twenty. *)
Fixpoint decimal_digits (fuel : nat) (n : Z) (acc : string) : string :=
  match fuel with
  | O => acc
  | S fuel' =>
      let acc' := String (ascii_of_nat (Z.to_nat (48 + n mod 10))) acc in
      if n / 10 =? 0 then acc' else decimal_digits fuel' (n / 10) acc'
  end.

Definition print_u64 (n : Z) : string :=
  decimal_digits 20 (n mod 2 ^ 64) EmptyString.

Definition spaces (n : nat) : string := string_of_list_ascii (repeat SPACE n).

(** [for (uint64_t i = 0; i < N_INDENT * depth; i++) putchar(' ');]: the
    product is a 32-bit unsigned number. *)
Definition indent (depth : Z) : string :=
  spaces (Z.to_nat (wrap32 (N_INDENT * depth))).

(** [" %" PRIu64 "\n"], without the newline. *)
Definition size_field (e : entry) : string := String SPACE (print_u64 (size e)).

Section Renderers.
(** The globals [base_depth] and [entries]. *)
Variable base_depth : Z.
Variable st : list entry.

(** [for (uint32_t i = 1; i < base_depth; i++) printf("/%s", e->components[i]);]
    with [steps] for [base_depth - i]. *)
Fixpoint show_prefix (p : nat) (e : entry) (i : Z) (steps : nat) : outcome string :=
  match steps with
  | O => Ok EmptyString
  | S steps' =>
      let! c := component_at p e i in
      let! rest := show_prefix p e (i + 1) steps' in
      Ok (String.append (String SLASH c) rest)
  end.

(** The line of the entry at [p], whose depth has been read. *)
Definition show_line (p : nat) (e : entry) (depth : Z) : outcome string :=
  if depth =? 0 then
    let! c0 := component_at p e 0 in
    let! rest := show_prefix p e 1 (Z.to_nat (wrap32 base_depth - 1)) in
    Ok (String.append c0 (String.append rest (size_field e)))
  else
    let! c := component_at p e (wrap32 (n_components e - 1)) in
    Ok (String.append (indent depth) (String.append c (size_field e))).

(** [for (uint32_t i = 0; i < e->n_children; i++) show_entries(e->children[i]);]
    with [steps] for [n_children - i]; a slot that was never written holds
    no pointer. *)
Fixpoint show_children (rec : nat -> outcome (list string)) (p : nat) (e : entry)
    (i steps : nat) : outcome (list string) :=
  match steps with
  | O => Ok []
  | S steps' =>
      match children e !! i with
      | None => Undefined (ChildrenOverflow p)
      | Some c =>
          let! out := rec c in
          let! rest := show_children rec p e (S i) steps' in
          Ok (out ++ rest)
      end
  end.

Fixpoint show_entries (fuel : nat) (p : nat) : outcome (list string) :=
  match fuel with
  | O => OutOfFuel
  | S fuel' =>
      let! e := entry_at st p in
      let! depth := depth_at st p in
      let! line := show_line p e depth in
      let! rest := show_children (show_entries fuel') p e 0 (Z.to_nat (n_children e)) in
      Ok (line :: rest)
  end.

(** [show_entries_raw(entries, n)], with [steps] for [n - i]. *)
Fixpoint show_entries_raw (i steps : nat) : outcome (list string) :=
  match steps with
  | O => Ok []
  | S steps' =>
      let! e := entry_at st i in
      let! depth := depth_at st i in
      let! c := component_at i e (wrap32 (n_components e - 1)) in
      let! rest := show_entries_raw (S i) steps' in
      Ok (String.append (indent depth) (String.append c (size_field e)) :: rest)
  end.
End Renderers.

(** ** What the renderers are to print *)

(** The path of a record, its components joined by slashes, and its name,
    the last component. *)
Definition path_of (e : entry) : string :=
  match components e with
  | c0 :: rest => String.append c0 (join_path rest)
  | [] => EmptyString
  end.

Definition name_of (e : entry) : string := List.last (components e) EmptyString.

(** The line of a record in the listing of the tree: the path and the size
    for the record that has [base] components, the root; for a record with
    more components, two spaces for each component beyond [base], then the
    name and the size. *)
Definition tree_line (base : Z) (e : entry) : string :=
  if n_components e =? base
  then String.append (path_of e) (size_field e)
  else String.append (spaces (Z.to_nat (2 * (n_components e - base))))
                     (String.append (name_of e) (size_field e)).

(** The line of a record in the raw listing. *)
Definition raw_line (base : Z) (e : entry) : string :=
  String.append (spaces (Z.to_nat (2 * (n_components e - base))))
                (String.append (name_of e) (size_field e)).

(** The records at and below [p], in the order in which [show_entries]
    visits them. *)
Fixpoint visit_order (st : list entry) (fuel : nat) (p : nat) : list nat :=
  match fuel with
  | O => []
  | S fuel' => p :: flat_map (visit_order st fuel') (children_at st p)
  end.

(** The table of a finished tree, as the renderers need it: the first
    record is the root, with [base] components; the depths, the children
    and their counts are in place, and every other record is listed once. *)
Definition well_built (base : Z) (st : list entry) : Prop :=
  (exists e0 : entry, st !! 0%nat = Some e0 /\ n_components e0 = base) /\
  (forall (k : nat) (e : entry),
      st !! k = Some e -> 0 < n_components e < DU_COMPONENTS_MAX) /\
  depths_by_components base st /\ children_one_deeper st /\
  all_children_counted st /\ listed_once st.

Definition line_at (base : Z) (st : list entry) (k : nat) : string :=
  match st !! k with
  | Some e => tree_line base e
  | None => EmptyString
  end.

(** ** Tables that list a tree *)

(** In the table every record but the first has its parent: a record with
    the same components without the last one. *)
Definition parents_listed (st : list entry) : Prop :=
  forall (k : nat) (ek : entry),
    (0 < k)%nat -> st !! k = Some ek ->
    exists (p : nat) (ep : entry), st !! p = Some ep /\ components ep = truncated ek.

(** The same, for the component sequences after [start] and before
    [end_], with the parent at or after [start]. *)
Definition subtree_range (comps : list (list string)) (start end_ : nat) : Prop :=
  forall (k : nat) (ck : list string),
    (start < k < end_)%nat -> comps !! k = Some ck ->
    exists (p : nat) (cp : list string) (x : string),
      (start <= p < k)%nat /\ comps !! p = Some cp /\ ck = cp ++ [x].

(** The number of the component sequences [lo], ..., [lo + steps - 1] that
    have [n] components. *)
Fixpoint count_direct (comps : list (list string)) (n : Z) (lo steps : nat) : nat :=
  match steps with
  | O => O
  | S steps' =>
      let here := match comps !! lo with
                  | Some c => if Z.of_nat (length c) =? n then 1%nat else 0%nat
                  | None => 0%nat
                  end in
      (here + count_direct comps n (S lo) steps')%nat
  end.

(** What a call of the builder needs in order to complete: [comps] are the
    component sequences of the table, in the order of [compare_entries]. *)
Definition build_ready (comps : list (list string)) (base : Z) (st : list entry)
    (start end_ : nat) (depth : Z) : Prop :=
  build_pre st start end_ /\ components <$> st = comps /\ 0 <= depth /\
  (exists cs : list string,
      comps !! start = Some cs /\ Z.of_nat (length cs) = depth + base) /\
  subtree_range comps start end_.

Definition completes (comps : list (list string)) (base : Z)
    (rec : list entry -> nat -> nat -> Z -> outcome (list entry)) (bound : nat) : Prop :=
  forall (st : list entry) (start end_ : nat) (depth : Z),
    build_ready comps base st start end_ depth -> (end_ - start <= bound)%nat ->
    exists st' : list entry, rec st start end_ depth = Ok st'.

(** The invariant of the attach pass by which it completes: the slots of
    the [children] array not yet written are as many as the direct children
    still to come, and the record at [i] is one of them. *)
Definition attach_run_inv (comps : list (list string)) (base : Z)
    (st1 st : list entry) (start end_ : nat) (offset : Z) (i n_ch : nat) : Prop :=
  attach_tree_inv base st1 st start end_ offset i n_ch /\
  (exists es1 : entry,
      st1 !! start = Some es1 /\
      (n_ch + count_direct comps (offset + 1) i (end_ - i))%nat = children_cap es1 /\
      n_children es1 = Z.of_nat (children_cap es1)) /\
  ((i < end_)%nat ->
   exists ci : list string, comps !! i = Some ci /\ Z.of_nat (length ci) = offset + 1).

(** The table lists a tree: no path is listed twice, and every record but
    one, the root, has its parent in the table. *)
Definition lists_tree (table : list entry) : Prop :=
  NoDup (components <$> table) /\
  exists root : entry,
    root ∈ table /\
    forall e : entry,
      e ∈ table -> components e <> components root ->
      exists p : entry, p ∈ table /\ components p = truncated e.

#[local] Instance string_eq_dec : EqDecision string := string_dec.

(** ** The post-order builder of the earlier revision *)

(** A record without children. *)
Definition childless (e : entry) : Prop := children e = [] /\ n_children e = 0.

(** The records [lo], ..., [hi - 1] are all passed by the inner loop of
    the earlier post-order builder, started at record [i]: each has fewer
    than [offset - 1] components, in 32-bit arithmetic, and a component at
    [offset] that differs from that of record [i]. *)
Definition walk_passes (comps : list (list string)) (i : nat) (offset : Z)
    (lo hi : nat) : Prop :=
  forall k : nat,
    (lo <= k < hi)%nat ->
    exists (ci ck : list string) (x y : string),
      comps !! i = Some ci /\ comps !! k = Some ck /\
      Z.of_nat (length ck) < wrap32 (offset - 1) /\ 0 <= offset /\
      ci !! Z.to_nat offset = Some x /\ ck !! Z.to_nat offset = Some y /\
      strcmp x y <> 0.

(** What one turn of the loop of the earlier post-order builder does to the
    record it steps to: the depth is assigned, the counter is cleared and an
    empty array of children is allocated. *)
Definition flat_record (d : Z) (e : entry) : entry :=
  alloc_children 0 (set_n_children 0 (set_depth d e)).

(** The depths a completed run of the earlier post-order variant assigns,
    from the number [n0] of components of the first record: [n0 - 1] to the
    first record and, as a 32-bit unsigned number, [n0 - 2] to every other
    one. *)
Definition flat_depth (n0 : Z) (k : nat) : Z :=
  match k with
  | O => n0 - 1
  | S _ => wrap32 (n0 - 2)
  end.

Definition flat_table (table : list entry) : list entry :=
  match table with
  | [] => []
  | e0 :: _ => imap (fun k e => set_depth (flat_depth (n_components e0) k) e) table
  end.

(** The line of a record in the raw listing: the indentation of its depth,
    its name and its size. *)
Definition depth_line (e : entry) : string :=
  match depth e with
  | Some d => String.append (indent d) (String.append (name_of e) (size_field e))
  | None => EmptyString
  end.
(** * Properties *)

(** ** Outcomes *)

Lemma bind_Ok {A B : Type} (m : outcome A) (k : A -> outcome B) (b : B) :
  bind m k = Ok b -> exists a, m = Ok a /\ k a = Ok b.
Proof. destruct m; simpl; intros H; try discriminate. eauto. Qed.

(** Splits a hypothesis [bind m k = Ok b] into its two steps. *)
Ltac bind_ok H :=
  let a := fresh "a" in
  let Ha := fresh "Ha" in
  apply bind_Ok in H; destruct H as (a & Ha & H).

Tactic Notation "bind_inv" hyp(H) "as" ident(a) ident(Ha) :=
  apply bind_Ok in H; destruct H as (a & Ha & H).

(** ** strcmp and compare_entries *)

Lemma strcmp_refl (s : string) : strcmp s s = 0.
Proof. induction s as [|c s IH]; simpl; [reflexivity|]. now rewrite Ascii.eqb_refl. Qed.

Lemma byte_inj (c1 c2 : ascii) : byte c1 = byte c2 -> c1 = c2.
Proof.
  unfold byte. intros H. apply Nat2Z.inj in H.
  rewrite <- (ascii_nat_embedding c1), <- (ascii_nat_embedding c2). now rewrite H.
Qed.

Lemma byte_nonzero (c : ascii) : Ascii.eqb c NUL = false -> byte c <> 0.
Proof.
  intros H E. apply Ascii.eqb_neq in H. apply H. apply byte_inj. exact E.
Qed.

Lemma strcmp_eq (s1 s2 : string) :
  nul_free s1 = true -> nul_free s2 = true -> strcmp s1 s2 = 0 -> s1 = s2.
Proof.
  revert s2. induction s1 as [|c1 r1 IH]; intros [|c2 r2]; simpl; intros H1 H2 E.
  - reflexivity.
  - apply andb_prop in H2 as [H2 _]. apply negb_true_iff in H2.
    apply byte_nonzero in H2. lia.
  - apply andb_prop in H1 as [H1 _]. apply negb_true_iff in H1.
    apply byte_nonzero in H1. lia.
  - apply andb_prop in H1 as [_ H1]. apply andb_prop in H2 as [_ H2].
    destruct (Ascii.eqb c1 c2) eqn:Ec.
    + apply Ascii.eqb_eq in Ec. subst c2. f_equal. now apply IH.
    + apply Ascii.eqb_neq in Ec. exfalso. apply Ec. apply byte_inj. lia.
Qed.

Lemma first_difference_Some (c1 c2 : list string) (q : Z) :
  first_difference c1 c2 = Some q ->
  q <> 0 /\
  exists (i : nat) (s1 s2 : string),
    c1 !! i = Some s1 /\ c2 !! i = Some s2 /\ q = strcmp s1 s2 /\
    forall (k : nat) (t1 t2 : string),
      (k < i)%nat -> c1 !! k = Some t1 -> c2 !! k = Some t2 -> strcmp t1 t2 = 0.
Proof.
  revert c2. induction c1 as [|s1 r1 IH]; intros [|s2 r2]; simpl; try discriminate.
  destruct (strcmp s1 s2 =? 0) eqn:E.
  - intros H. apply IH in H as (Hq & i & t1 & t2 & H1 & H2 & Hs & Hlt).
    split; [exact Hq|]. exists (S i), t1, t2. repeat split; try assumption.
    intros [|k] u1 u2 Hk; simpl; intros Hu1 Hu2.
    + injection Hu1 as <-. injection Hu2 as <-. now apply Z.eqb_eq.
    + apply (Hlt k); [lia | assumption | assumption].
  - intros H. injection H as <-. apply Z.eqb_neq in E. split; [exact E|].
    exists 0%nat, s1, s2. repeat split. intros k ? ? Hk. lia.
Qed.

Lemma first_difference_None (c1 c2 : list string) :
  first_difference c1 c2 = None ->
  forall (k : nat) (t1 t2 : string),
    c1 !! k = Some t1 -> c2 !! k = Some t2 -> strcmp t1 t2 = 0.
Proof.
  revert c2. induction c1 as [|s1 r1 IH]; intros [|s2 r2]; simpl;
    intros H k t1 t2 H1 H2; try discriminate.
  destruct (strcmp s1 s2 =? 0) eqn:E; [|discriminate].
  destruct k as [|k]; simpl in *.
  - injection H1 as <-. injection H2 as <-. now apply Z.eqb_eq.
  - now apply (IH r2 H k).
Qed.

Lemma first_difference_same (c : list string) : first_difference c c = None.
Proof. induction c as [|s r IH]; simpl; [reflexivity|]. now rewrite strcmp_refl. Qed.

(** C7. The Lexicographic Comparator [compare_entries] compares the
    component sequences element by element with the byte-wise [strcmp] and
    returns the first comparison that is not zero; when all compared
    components are equal and the lengths differ it returns the difference of
    the lengths, which is negative exactly when the first record has fewer
    components; it never returns zero: two records with the same components
    fail the assertion. *)
Theorem compare_entries_lexicographic (e1 e2 : entry) :
  match compare_entries e1 e2 with
  | Ok q =>
      q <> 0 /\
      ((exists (i : nat) (s1 s2 : string),
          components e1 !! i = Some s1 /\ components e2 !! i = Some s2 /\
          q = strcmp s1 s2 /\
          forall (k : nat) (t1 t2 : string),
            (k < i)%nat -> components e1 !! k = Some t1 ->
            components e2 !! k = Some t2 -> strcmp t1 t2 = 0)
       \/
       ((forall (k : nat) (t1 t2 : string),
            components e1 !! k = Some t1 -> components e2 !! k = Some t2 ->
            strcmp t1 t2 = 0) /\
        q = n_components e1 - n_components e2 /\
        (q < 0 <-> n_components e1 < n_components e2)))
  | Abort =>
      n_components e1 = n_components e2 /\
      forall (k : nat) (t1 t2 : string),
        components e1 !! k = Some t1 -> components e2 !! k = Some t2 ->
        strcmp t1 t2 = 0
  | _ => False
  end
  /\ (components e1 = components e2 -> compare_entries e1 e2 = Abort).
Proof.
  unfold compare_entries. split.
  - destruct (first_difference (components e1) (components e2)) as [q|] eqn:E.
    + apply first_difference_Some in E as (Hq & i & s1 & s2 & H).
      split; [exact Hq|]. left. exists i, s1, s2. exact H.
    + pose proof (first_difference_None _ _ E) as Hall.
      destruct (n_components e1 =? n_components e2) eqn:En.
      * apply Z.eqb_eq in En. split; assumption.
      * apply Z.eqb_neq in En. split; [lia|]. right.
        split; [exact Hall|]. split; [reflexivity|]. lia.
  - intros Hc. rewrite Hc, first_difference_same.
    unfold n_components. rewrite Hc. now rewrite Z.eqb_refl.
Qed.

Lemma compare_entries_lexicographic_witness :
  compare_entries (mkEntry 5 ["a"; "b"]%string None 0 0 [])
                  (mkEntry 7 ["a"; "b"]%string None 0 0 []) = Abort.
Proof.
  apply (proj2 (compare_entries_lexicographic
                  (mkEntry 5 ["a"; "b"]%string None 0 0 [])
                  (mkEntry 7 ["a"; "b"]%string None 0 0 []))).
  reflexivity.
Defined.

(** ** Which fatal exits a function has *)

Lemma fails_only_bind {A B : Type} (P : error -> Prop)
    (m : outcome A) (k : A -> outcome B) :
  fails_only P m -> (forall a, fails_only P (k a)) -> fails_only P (bind m k).
Proof. destruct m; simpl; auto. Qed.

Lemma fails_only_weaken {A : Type} (P Q : error -> Prop) (m : outcome A) :
  (forall e, P e -> Q e) -> fails_only P m -> fails_only Q m.
Proof. destruct m; simpl; auto. Qed.

Lemma fails_only_not_fatal {A : Type} (m : outcome A) :
  fails_only (fun _ => False) m -> is_fatal m = false.
Proof. destruct m; simpl; tauto. Qed.

Lemma entry_at_fails (P : error -> Prop) (st : list entry) (i : nat) :
  fails_only P (entry_at st i).
Proof. unfold entry_at. destruct (st !! i); exact I. Qed.

Lemma update_entry_fails (P : error -> Prop) (st : list entry) (i : nat) f :
  fails_only P (update_entry st i f).
Proof. unfold update_entry. destruct (st !! i); exact I. Qed.

Lemma component_at_fails (P : error -> Prop) (i : nat) (e : entry) (k : Z) :
  fails_only P (component_at i e k).
Proof.
  unfold component_at. destruct (k <? 0); [exact I|].
  destruct (components e !! Z.to_nat k); exact I.
Qed.

Lemma depth_at_fails (P : error -> Prop) (st : list entry) (i : nat) :
  fails_only P (depth_at st i).
Proof.
  unfold depth_at. apply fails_only_bind; [apply entry_at_fails|].
  intros e. destruct (depth e); exact I.
Qed.

Lemma store_child_fails (P : error -> Prop) (st : list entry) (p k c : nat) :
  fails_only P (store_child st p k c).
Proof.
  unfold store_child. apply fails_only_bind; [apply entry_at_fails|].
  intros e. destruct (k <? children_cap e)%nat; exact I.
Qed.

Lemma compare_entries_fails (P : error -> Prop) (e1 e2 : entry) :
  fails_only P (compare_entries e1 e2).
Proof.
  unfold compare_entries.
  destruct (first_difference (components e1) (components e2)); [exact I|].
  destruct (n_components e1 =? n_components e2); exact I.
Qed.

Lemma compare_subtrees_fails (P : error -> Prop) base st (p1 p2 : nat) :
  fails_only P (compare_subtrees base st p1 p2).
Proof.
  unfold compare_subtrees.
  apply fails_only_bind; [apply entry_at_fails|]. intros e1.
  apply fails_only_bind; [apply entry_at_fails|]. intros e2.
  destruct (negb _); [exact I|].
  apply fails_only_bind; [apply depth_at_fails|]. intros d1.
  apply fails_only_bind; [apply depth_at_fails|]. intros d2.
  destruct (negb _); [exact I|].
  apply fails_only_bind; [apply component_at_fails|]. intros c1.
  apply fails_only_bind; [apply component_at_fails|]. intros c2.
  destruct (negb _); exact I.
Qed.

Lemma insert_sorted_fails {A : Type} (P : error -> Prop)
    (cmp : A -> A -> outcome Z) (x : A) (l : list A) :
  (forall a b, fails_only P (cmp a b)) -> fails_only P (insert_sorted cmp x l).
Proof.
  intros Hc. induction l as [|y l IH]; simpl; [exact I|].
  apply fails_only_bind; [apply Hc|]. intros q.
  destruct (q <=? 0); [exact I|].
  apply fails_only_bind; [exact IH|]. intros; exact I.
Qed.

Lemma qsort_fails {A : Type} (P : error -> Prop)
    (cmp : A -> A -> outcome Z) (l : list A) :
  (forall a b, fails_only P (cmp a b)) -> fails_only P (qsort cmp l).
Proof.
  intros Hc. induction l as [|x l IH]; simpl; [exact I|].
  apply fails_only_bind; [exact IH|]. intros s. now apply insert_sorted_fails.
Qed.

(** *** The post-order builder has no fatal exit *)

Lemma postorder_walk_fails (P : error -> Prop) st i offset j steps :
  fails_only P (postorder_walk st i offset j steps).
Proof.
  revert st j. induction steps as [|steps IH]; intros st j; simpl; [exact I|].
  apply fails_only_bind; [apply entry_at_fails|]. intros ej.
  destruct (negb _); [exact I|].
  apply fails_only_bind; [apply entry_at_fails|]. intros ei.
  apply fails_only_bind; [apply component_at_fails|]. intros ci.
  apply fails_only_bind; [apply component_at_fails|]. intros cj.
  destruct (negb _); [exact I|].
  apply fails_only_bind; [apply update_entry_fails|]. intros st'. apply IH.
Qed.

Lemma fill_children_fails (P : error -> Prop) st offset j k steps n_ch :
  fails_only P (fill_children st offset j k steps n_ch).
Proof.
  revert st k n_ch. induction steps as [|steps IH]; intros st k n_ch; simpl; [exact I|].
  apply fails_only_bind; [apply entry_at_fails|]. intros ek.
  destruct (n_components ek =? _); [|apply IH].
  apply fails_only_bind; [apply store_child_fails|]. intros st'. apply IH.
Qed.

Lemma postorder_loop_fails (P : error -> Prop) rec fuel st end_ i :
  (forall st a b d, fails_only P (rec st a b d)) ->
  fails_only P (postorder_loop rec fuel st end_ i).
Proof.
  intros Hrec. revert st i. induction fuel as [|fuel IH]; intros st i; simpl.
  - destruct (end_ <=? i)%nat; exact I.
  - destruct (end_ <=? i)%nat; [exact I|].
    apply fails_only_bind; [apply entry_at_fails|]. intros ei.
    apply fails_only_bind; [apply postorder_walk_fails|]. intros w.
    apply fails_only_bind.
    { destruct (S i <? snd w)%nat; [apply Hrec | exact I]. }
    intros st2.
    apply fails_only_bind; [apply entry_at_fails|]. intros ej.
    apply fails_only_bind; [apply fill_children_fails|]. intros f. apply IH.
Qed.

Lemma build_tree_postorder_fails (P : error -> Prop) fuel st start end_ depth :
  fails_only P (build_tree_postorder fuel st start end_ depth).
Proof.
  revert st start end_ depth.
  induction fuel as [|fuel IH]; intros st start end_ depth; simpl; [exact I|].
  apply fails_only_bind; [apply update_entry_fails|]. intros st0.
  apply postorder_loop_fails. intros. apply IH.
Qed.

(** *** The pre-order builder exits only with its two diagnostics *)

Lemma count_children_fails (P : error -> Prop) st offset i steps n :
  fails_only P (count_children st offset i steps n).
Proof.
  revert i n. induction steps as [|steps IH]; intros i n; simpl; [exact I|].
  apply fails_only_bind; [apply entry_at_fails|]. intros ei. apply IH.
Qed.

Lemma walk_subtree_fails (P : error -> Prop) st i offset j steps :
  fails_only P (walk_subtree st i offset j steps).
Proof.
  revert j. induction steps as [|steps IH]; intros j; simpl; [exact I|].
  apply fails_only_bind; [apply entry_at_fails|]. intros ej.
  destruct (negb _); [exact I|].
  apply fails_only_bind; [apply entry_at_fails|]. intros ei.
  apply fails_only_bind; [apply component_at_fails|]. intros ci.
  apply fails_only_bind; [apply component_at_fails|]. intros cj.
  destruct (strcmp ci cj =? 0); [apply IH | exact I].
Qed.

Lemma attach_fails rec fuel st start end_ offset depth i n_ch :
  (forall st a b d, fails_only builder_error (rec st a b d)) ->
  fails_only builder_error (attach rec fuel st start end_ offset depth i n_ch).
Proof.
  intros Hrec. revert st i n_ch.
  induction fuel as [|fuel IH]; intros st i n_ch; simpl.
  - destruct (end_ <=? i)%nat; exact I.
  - destruct (end_ <=? i)%nat; [exact I|].
    apply fails_only_bind; [apply entry_at_fails|]. intros ei.
    destruct (negb _); [exact I|].
    apply fails_only_bind; [apply store_child_fails|]. intros st1.
    apply fails_only_bind; [apply update_entry_fails|]. intros st2.
    apply fails_only_bind; [apply walk_subtree_fails|]. intros j.
    apply fails_only_bind.
    { destruct (S i <? j)%nat; [apply Hrec | exact I]. }
    intros st3. apply IH.
Qed.

Lemma build_tree_preorder_fails base fuel st start end_ depth :
  fails_only builder_error (build_tree_preorder base fuel st start end_ depth).
Proof.
  revert st start end_ depth.
  induction fuel as [|fuel IH]; intros st start end_ depth; simpl; [exact I|].
  apply fails_only_bind; [apply entry_at_fails|]. intros e.
  destruct (negb _); [exact I|].
  apply fails_only_bind; [apply count_children_fails|]. intros n.
  apply fails_only_bind; [apply update_entry_fails|]. intros st1.
  apply fails_only_bind; [apply attach_fails; intros; apply IH|]. intros r.
  apply fails_only_bind; [apply entry_at_fails|]. intros e'.
  destruct (negb _); [exact I|].
  apply fails_only_bind; [|intros; exact I].
  apply qsort_fails. intros. apply compare_subtrees_fails.
Qed.

(** ** The parser *)

Lemma split_components_length (s : string) : (1 <= length (split_components s))%nat.
Proof.
  induction s as [|c r IH]; simpl; [lia|].
  destruct (Ascii.eqb c NL || Ascii.eqb c NUL); simpl; [lia|].
  destruct (Ascii.eqb c SLASH); simpl; [lia|].
  destruct (split_components r); simpl in *; lia.
Qed.

Lemma split_components_nul_free (s : string) :
  Forall (fun x => nul_free x = true) (split_components s).
Proof.
  induction s as [|c r IH]; simpl.
  - repeat constructor.
  - destruct (Ascii.eqb c NL) eqn:Enl; simpl; [repeat constructor|].
    destruct (Ascii.eqb c NUL) eqn:Enul; simpl; [repeat constructor|].
    destruct (Ascii.eqb c SLASH); [constructor; [reflexivity | exact IH]|].
    destruct (split_components r) as [|x xs].
    + constructor; [|constructor]. simpl. now rewrite Enul.
    + inversion IH as [|? ? Hx Hxs]; subst.
      constructor; [|exact Hxs]. simpl. now rewrite Enul, Hx.
Qed.

Lemma parse_line_fails (path : string) (line_number : Z) :
  fails_only parser_error (parse_line path line_number).
Proof.
  unfold parse_line. destruct (skip_digits path) as [digits rest].
  destruct digits as [|d ds]; [exact I|].
  destruct rest as [|c rest']; [exact I|].
  destruct (negb _); [exact I|].
  destruct (sscanf_u64 (String d ds)) as [n_scanned sz].
  destruct (negb _); [exact I|].
  destruct (DU_COMPONENTS_MAX <=? _); exact I.
Qed.

Lemma parse_line_parsed (path : string) (line_number : Z) (e : entry) :
  parse_line path line_number = Ok e -> parsed e.
Proof.
  unfold parse_line. destruct (skip_digits path) as [digits rest].
  destruct digits as [|d ds]; [discriminate|].
  destruct rest as [|c rest']; [discriminate|].
  destruct (negb _); [discriminate|].
  destruct (sscanf_u64 (String d ds)) as [n_scanned sz].
  destruct (negb _); [discriminate|].
  destruct (DU_COMPONENTS_MAX <=? _) eqn:E; [discriminate|].
  intros H. injection H as <-. apply Z.leb_gt in E.
  unfold parsed, n_components; simpl.
  pose proof (split_components_length rest').
  repeat split; try reflexivity; try lia. apply split_components_nul_free.
Qed.

Lemma Duvis_read_entries_fails FILE len path_get fuel f zeroflag table k log :
  fails_only parser_error
    (Duvis.read_entries FILE len path_get fuel f zeroflag table k log).
Proof.
  revert f table k log.
  induction fuel as [|fuel IH]; intros f table k log; simpl; [exact I|].
  destruct (path_get len f zeroflag) as [[nchars path] f'].
  destruct (nchars =? 0); [exact I|].
  apply fails_only_bind; [apply parse_line_fails|]. intros e. apply IH.
Qed.

Lemma Duvis_read_entries_parsed FILE len path_get fuel f zeroflag table k log r :
  Forall parsed table ->
  Duvis.read_entries FILE len path_get fuel f zeroflag table k log = Ok r ->
  Forall parsed (fst r).
Proof.
  revert f table k log.
  induction fuel as [|fuel IH]; intros f table k log Ht; simpl; [discriminate|].
  destruct (path_get len f zeroflag) as [[nchars path] f'].
  destruct (nchars =? 0).
  - intros H. injection H as <-. exact Ht.
  - intros H. bind_ok H. apply IH in H; [exact H|].
    apply Forall_app. split; [exact Ht|].
    constructor; [|constructor]. eapply parse_line_parsed. exact Ha.
Qed.

(** The sentinel [path[du_buffer_length - 1]] of the earlier revision is
    still zero after [fgets]. *)
Lemma fgets_chars_length (n : nat) (s : string) :
  (String.length (fst (Rev0.fgets_chars n s)) <= n)%nat.
Proof.
  revert s. induction n as [|n IH]; intros s; simpl; [lia|].
  destruct s as [|c r]; simpl; [lia|].
  destruct (Ascii.eqb c NL); simpl; [lia|].
  specialize (IH r). destruct (Rev0.fgets_chars n r) as [a b]. simpl in *. lia.
Qed.

Lemma length_list_ascii_of_string (s : string) :
  length (list_ascii_of_string s) = String.length s.
Proof. induction s as [|c s IH]; simpl; [reflexivity|]. now rewrite IH. Qed.

Lemma du_buffer_length_pos : (2 <= Rev0.du_buffer_length)%nat.
Proof. unfold Rev0.du_buffer_length. lia. Qed.

Opaque Rev0.du_buffer_length.

Lemma sentinel_kept_at (n : nat) (junk : ascii) (chunk : string) :
  (0 < n)%nat -> (String.length chunk <= n - 1)%nat ->
  Rev0.store_string (<[(n - 1)%nat := NUL]> (repeat junk n)) chunk !! (n - 1)%nat
  = Some NUL.
Proof.
  intros Hn Hlen. unfold Rev0.store_string.
  rewrite lookup_app_r; rewrite length_list_ascii_of_string; [|lia].
  destruct (decide (String.length chunk = n - 1)%nat) as [E|E].
  - rewrite E, Nat.sub_diag. reflexivity.
  - replace (n - 1 - String.length chunk)%nat
      with (S (n - 1 - S (String.length chunk)))%nat by lia.
    change ((?x :: ?l) !! S ?i) with (l !! i).
    rewrite lookup_drop.
    replace (S (String.length chunk) + (n - 1 - S (String.length chunk)))%nat
      with (n - 1)%nat by lia.
    apply list_lookup_insert_eq. rewrite repeat_length. lia.
Qed.

Lemma sentinel_kept (junk : ascii) (chunk : string) :
  (String.length chunk <= Rev0.du_buffer_length - 1)%nat ->
  Rev0.store_string
    (<[(Rev0.du_buffer_length - 1)%nat := NUL]> (repeat junk Rev0.du_buffer_length))
    chunk !! (Rev0.du_buffer_length - 1)%nat = Some NUL.
Proof.
  apply sentinel_kept_at. pose proof du_buffer_length_pos. lia.
Qed.

Lemma fgets_length (f chunk f' : string) :
  Rev0.fgets Rev0.du_buffer_length f = Some (chunk, f') ->
  (String.length chunk <= Rev0.du_buffer_length - 1)%nat.
Proof.
  unfold Rev0.fgets. destruct f as [|c f]; [discriminate|].
  intros Eg. injection Eg as Eg.
  pose proof (fgets_chars_length (Rev0.du_buffer_length - 1) (String c f)) as Hl.
  rewrite Eg in Hl. exact Hl.
Qed.

Lemma Rev0_read_entries_fails junk fuel f table k :
  fails_only parser_error (Rev0.read_entries junk fuel f table k).
Proof.
  revert f table k. induction fuel as [|fuel IH]; intros f table k; simpl; [exact I|].
  destruct (Rev0.fgets Rev0.du_buffer_length f) as [[chunk f']|] eqn:Eg; [|exact I].
  rewrite (sentinel_kept junk chunk (fgets_length _ _ _ Eg)).
  rewrite Ascii.eqb_refl. simpl.
  apply fails_only_bind; [apply parse_line_fails|]. intros e. apply IH.
Qed.

Lemma Rev0_read_entries_parsed junk fuel f table k r :
  Forall parsed table ->
  Rev0.read_entries junk fuel f table k = Ok r -> Forall parsed r.
Proof.
  revert f table k. induction fuel as [|fuel IH]; intros f table k Ht; simpl;
    [discriminate|].
  destruct (Rev0.fgets Rev0.du_buffer_length f) as [[chunk f']|].
  - destruct (_ !! _) as [c|]; [|discriminate].
    destruct (negb _); [discriminate|].
    intros H. bind_ok H. apply IH in H; [exact H|].
    apply Forall_app. split; [exact Ht|].
    constructor; [|constructor]. eapply parse_line_parsed. exact Ha.
  - intros H. injection H as <-. exact Ht.
Qed.

(** ** qsort returns a permutation *)

Lemma insert_sorted_Permutation {A : Type} (cmp : A -> A -> outcome Z)
    (x : A) (l l' : list A) :
  insert_sorted cmp x l = Ok l' -> Permutation (x :: l) l'.
Proof.
  revert l'. induction l as [|y l IH]; intros l'; simpl.
  - intros H. injection H as <-. reflexivity.
  - intros H. bind_ok H. destruct (a <=? 0).
    + injection H as <-. reflexivity.
    + bind_ok H. injection H as <-.
      rewrite perm_swap. apply perm_skip. now apply IH.
Qed.

Lemma qsort_Permutation {A : Type} (cmp : A -> A -> outcome Z) (l l' : list A) :
  qsort cmp l = Ok l' -> Permutation l l'.
Proof.
  revert l'. induction l as [|x l IH]; intros l'; simpl.
  - intros H. injection H as <-. reflexivity.
  - intros H. bind_ok H. apply insert_sorted_Permutation in H.
    rewrite <- H. apply perm_skip. now apply IH.
Qed.

(** ** The earlier post-order builder has no fatal exit either *)

Lemma Rev0_postorder_walk_fails (P : error -> Prop) st i offset j steps :
  fails_only P (Rev0.postorder_walk st i offset j steps).
Proof.
  revert st j. induction steps as [|steps IH]; intros st j; simpl; [exact I|].
  apply fails_only_bind; [apply entry_at_fails|]. intros ej.
  destruct (negb _); [exact I|].
  apply fails_only_bind; [apply entry_at_fails|]. intros ei.
  apply fails_only_bind; [apply component_at_fails|]. intros ci.
  apply fails_only_bind; [apply component_at_fails|]. intros cj.
  destruct (strcmp ci cj =? 0); [exact I|].
  apply fails_only_bind; [apply update_entry_fails|]. intros st'. apply IH.
Qed.

Lemma Rev0_fill_children_fails (P : error -> Prop) st offset j k steps n_ch :
  fails_only P (Rev0.fill_children st offset j k steps n_ch).
Proof.
  revert st k n_ch. induction steps as [|steps IH]; intros st k n_ch; simpl; [exact I|].
  apply fails_only_bind; [apply entry_at_fails|]. intros ek.
  destruct (n_components ek =? _); [|apply IH].
  apply fails_only_bind; [apply store_child_fails|]. intros st'. apply IH.
Qed.

Lemma Rev0_postorder_loop_fails (P : error -> Prop) rec fuel st end_ depth i :
  (forall st a b d, fails_only P (rec st a b d)) ->
  fails_only P (Rev0.postorder_loop rec fuel st end_ depth i).
Proof.
  intros Hrec. revert st i. induction fuel as [|fuel IH]; intros st i; simpl.
  - destruct (end_ <=? i)%nat; exact I.
  - destruct (end_ <=? i)%nat; [exact I|].
    apply fails_only_bind; [apply update_entry_fails|]. intros st0.
    apply fails_only_bind; [apply entry_at_fails|]. intros ei.
    apply fails_only_bind; [apply Rev0_postorder_walk_fails|]. intros w.
    apply fails_only_bind.
    { destruct (S i <? snd w)%nat; [|exact I].
      apply fails_only_bind; [apply entry_at_fails|]. intros ej. apply Hrec. }
    intros st2.
    apply fails_only_bind; [apply entry_at_fails|]. intros ej.
    apply fails_only_bind; [apply Rev0_fill_children_fails|]. intros f.
    apply fails_only_bind; [apply entry_at_fails|]. intros ej'.
    destruct (negb _); [exact I | apply IH].
Qed.

Lemma Rev0_build_tree_postorder_fails (P : error -> Prop) fuel st start end_ depth :
  fails_only P (Rev0.build_tree_postorder fuel st start end_ depth).
Proof.
  revert st start end_ depth.
  induction fuel as [|fuel IH]; intros st start end_ depth; simpl; [exact I|].
  apply fails_only_bind; [apply update_entry_fails|]. intros st0.
  apply Rev0_postorder_loop_fails. intros. apply IH.
Qed.

(** ** main never reports a zero-length entry *)

Lemma parsed_first_after_sort (table sorted : list entry) (e0 : entry) :
  Forall parsed table -> qsort compare_entries table = Ok sorted ->
  entry_at sorted 0 = Ok e0 -> (n_components e0 =? 0) = false.
Proof.
  intros Ht Hs H0. apply qsort_Permutation in Hs.
  unfold entry_at in H0. destruct (sorted !! 0%nat) as [e|] eqn:E; [|discriminate].
  injection H0 as ->.
  assert (Hin : e0 ∈ table).
  { rewrite Hs. eapply list_elem_of_lookup_2. exact E. }
  rewrite Forall_forall in Ht. apply Ht in Hin.
  destruct Hin as (_ & _ & _ & Hn & _). apply Z.eqb_neq. lia.
Qed.

Lemma parser_error_not_zero_length (e : error) : parser_error e -> not_zero_length e.
Proof. destruct e; simpl; intros H; try contradiction; discriminate. Qed.

Lemma builder_error_not_zero_length (e : error) : builder_error e -> not_zero_length e.
Proof. destruct e; simpl; intros H; try contradiction; discriminate. Qed.

Lemma Duvis_main_fails FILE len path_get fuel pflag zeroflag inf :
  fails_only not_zero_length (Duvis.main FILE len path_get fuel pflag zeroflag inf).
Proof.
  unfold Duvis.main.
  destruct (Duvis.read_entries FILE len path_get fuel inf zeroflag [] 0 []) as [r| | | |] eqn:Er;
    try exact I.
  - simpl. pose proof (Duvis_read_entries_parsed _ _ _ _ _ _ _ _ _ _ (Forall_nil_2 _) Er) as Hp.
    destruct (length (fst r) =? 0)%nat; [exact I|].
    destruct pflag.
    + destruct (qsort compare_entries (fst r)) as [sorted| | | |] eqn:Es; try exact I.
      * simpl. destruct (entry_at sorted 0) as [e0| | | |] eqn:E0; try exact I.
        -- simpl. rewrite (parsed_first_after_sort _ _ _ Hp Es E0).
           apply fails_only_bind; [|intros; exact I].
           eapply fails_only_weaken; [apply builder_error_not_zero_length|].
           apply build_tree_preorder_fails.
        -- pose proof (entry_at_fails not_zero_length sorted 0) as H.
           rewrite E0 in H. exact H.
      * pose proof (qsort_fails not_zero_length compare_entries (fst r)
                      (fun a b => compare_entries_fails _ a b)) as H.
        rewrite Es in H. exact H.
    + apply fails_only_bind; [apply entry_at_fails|]. intros e.
      apply fails_only_bind; [|intros; exact I].
      apply build_tree_postorder_fails.
  - pose proof (Duvis_read_entries_fails FILE len path_get fuel inf zeroflag [] 0 []) as H.
    rewrite Er in H. simpl in *. now apply parser_error_not_zero_length.
Qed.

Lemma Rev0_main_fails junk fuel pflag stdin :
  fails_only not_zero_length (Rev0.main junk fuel pflag stdin).
Proof.
  unfold Rev0.main.
  destruct (Rev0.read_entries junk (S (String.length stdin)) stdin [] 0)
    as [table| | | |] eqn:Er; try exact I.
  - simpl. pose proof (Rev0_read_entries_parsed _ _ _ _ _ _ (Forall_nil_2 _) Er) as Hp.
    destruct (length table =? 0)%nat; [exact I|].
    destruct pflag; simpl.
    + destruct (qsort compare_entries table) as [sorted| | | |] eqn:Es; try exact I.
      * simpl. destruct (entry_at sorted 0) as [e0| | | |] eqn:E0; try exact I.
        -- simpl. rewrite (parsed_first_after_sort _ _ _ Hp Es E0).
           apply fails_only_bind; [|intros; exact I].
           eapply fails_only_weaken; [apply builder_error_not_zero_length|].
           apply build_tree_preorder_fails.
        -- pose proof (entry_at_fails not_zero_length sorted 0) as H.
           rewrite E0 in H. exact H.
      * pose proof (qsort_fails not_zero_length compare_entries table
                      (fun a b => compare_entries_fails _ a b)) as H.
        rewrite Es in H. exact H.
    + apply fails_only_bind; [apply entry_at_fails|]. intros e.
      apply fails_only_bind; [apply entry_at_fails|]. intros e0.
      apply fails_only_bind; [|intros; exact I].
      apply Rev0_build_tree_postorder_fails.
  - pose proof (Rev0_read_entries_fails junk (S (String.length stdin)) stdin [] 0) as H.
    rewrite Er in H. simpl in *. now apply parser_error_not_zero_length.
Qed.

Lemma Duvis_main_postorder_fails FILE len path_get fuel zeroflag inf :
  fails_only parser_error (Duvis.main FILE len path_get fuel false zeroflag inf).
Proof.
  unfold Duvis.main.
  apply fails_only_bind; [apply Duvis_read_entries_fails|]. intros r.
  destruct (length (fst r) =? 0)%nat; [exact I|].
  apply fails_only_bind; [apply entry_at_fails|]. intros e.
  apply fails_only_bind; [|intros; exact I].
  apply build_tree_postorder_fails.
Qed.

(** C4 (the code departs from the claim). The post-order builder has no
    malformed-hierarchy diagnostic.  In the listing [1 a/b/c/d], [100 a]
    the first record has four components under a root of one; the
    post-order variant does not stop with a diagnostic that cites it: it
    goes on to read the third component of the root record, which has one.
    Whatever the table, the range and the depth, the builder never ends in
    a fatal exit, and the only fatal exits of the post-order variant of the
    program are the parser's. *)
Theorem postorder_malformed_not_reported :
  duvis false ["1 a/b/c/d"; "100 a"]%string = Undefined (ComponentOutOfBounds 1 2) /\
  build_tree_postorder 2
    [mkEntry 1 ["a"; "b"; "c"; "d"]%string None 0 0 [];
     mkEntry 100 ["a"%string] None 0 0 []] 0 2 0
  = Undefined (ComponentOutOfBounds 1 2) /\
  (forall (fuel : nat) (st : list entry) (start end_ : nat) (depth : Z),
      is_fatal (build_tree_postorder fuel st start end_ depth) = false) /\
  (forall (FILE : Type) (len : Z) (path_get : Z -> FILE -> bool -> Z * string * FILE)
          (fuel : nat) (zeroflag : bool) (inf : FILE),
      fails_only parser_error (Duvis.main FILE len path_get fuel false zeroflag inf)).
Proof.
  split; [vm_compute; reflexivity|]. split; [vm_compute; reflexivity|]. split.
  - intros. apply fails_only_not_fatal. apply build_tree_postorder_fails.
  - intros. apply Duvis_main_postorder_fails.
Qed.

(** C9 (amended). No input leads to the zero-length-entry exit: every
    record the parser returns has at least one component (an empty path is
    one empty component), so the check in [main] never fires, in either
    revision and in either variant. *)
Theorem zero_length_entry_never_reported :
  (forall (path : string) (line_number : Z) (e : entry),
      parse_line path line_number = Ok e -> 1 <= n_components e) /\
  (forall (FILE : Type) (len : Z) (path_get : Z -> FILE -> bool -> Z * string * FILE)
          (fuel : nat) (pflag zeroflag : bool) (inf : FILE),
      Duvis.main FILE len path_get fuel pflag zeroflag inf <> Fatal ZeroLengthEntry) /\
  (forall (junk : ascii) (fuel : nat) (pflag : bool) (stdin : string),
      Rev0.main junk fuel pflag stdin <> Fatal ZeroLengthEntry).
Proof.
  split; [|split].
  - intros path k e H. apply parse_line_parsed in H.
    destruct H as (_ & _ & _ & Hn & _). lia.
  - intros FILE len path_get fuel pflag zeroflag inf H.
    pose proof (Duvis_main_fails FILE len path_get fuel pflag zeroflag inf) as Hf.
    rewrite H in Hf. now apply Hf.
  - intros junk fuel pflag stdin H.
    pose proof (Rev0_main_fails junk fuel pflag stdin) as Hf.
    rewrite H in Hf. now apply Hf.
Qed.

Lemma zero_length_entry_never_reported_witness :
  1 <= n_components (mkEntry 10 [EmptyString] None 0 0 []).
Proof.
  apply (proj1 zero_length_entry_never_reported (String "1" (String "0" (String " " EmptyString))) 1).
  vm_compute. reflexivity.
Defined.

(** C9, counterexample. There is no pre-order input, for either revision,
    on which the program ends with the zero-length-entry diagnostic. *)
Lemma no_input_reaches_empty_root :
  ~ (exists (junk : ascii) (fuel : nat) (stdin : string),
        Rev0.main junk fuel true stdin = Fatal ZeroLengthEntry) /\
  ~ (exists lines : list string, duvis true lines = Fatal ZeroLengthEntry).
Proof.
  split.
  - intros (junk & fuel & stdin & H).
    pose proof (Rev0_main_fails junk fuel true stdin) as Hf.
    rewrite H in Hf. now apply Hf.
  - intros (lines & H). unfold duvis in H.
    pose proof (Duvis_main_fails (list string) (Z.of_nat Rev0.du_buffer_length)
                  path_get_lines (S (length lines)) true false lines) as Hf.
    rewrite H in Hf. now apply Hf.
Qed.

(** C10. On the empty input both variants of the program return right
    after parsing: no record, no tree, no diagnostic.  For [duvis.c] the
    empty input is the one on which [path_get] reports the end of the input
    at its first call. *)
Theorem empty_input_builds_nothing :
  (forall (junk : ascii) (fuel : nat) (pflag : bool),
      Rev0.main junk fuel pflag EmptyString = Ok (mkRun [] None 0 [])) /\
  (forall (FILE : Type) (len : Z) (path_get : Z -> FILE -> bool -> Z * string * FILE)
          (fuel : nat) (pflag zeroflag : bool) (inf : FILE) (path : string) (f' : FILE),
      path_get len inf zeroflag = (0, path, f') ->
      Duvis.main FILE len path_get (S fuel) pflag zeroflag inf
      = Ok (mkRun [] None 0 [])).
Proof.
  split.
  - intros junk fuel pflag. reflexivity.
  - intros FILE len path_get fuel pflag zeroflag inf path f' Hget.
    unfold Duvis.main. simpl. rewrite Hget. reflexivity.
Qed.

Lemma empty_input_builds_nothing_witness :
  duvis true [] = Ok (mkRun [] None 0 []) /\
  duvis false [] = Ok (mkRun [] None 0 []).
Proof.
  split.
  - apply (proj2 empty_input_builds_nothing (list string)
             (Z.of_nat Rev0.du_buffer_length) path_get_lines 0%nat
             true false [] EmptyString []).
    reflexivity.
  - apply (proj2 empty_input_builds_nothing (list string)
             (Z.of_nat Rev0.du_buffer_length) path_get_lines 0%nat
             false false [] EmptyString []).
    reflexivity.
Defined.

(** ** Format errors *)

Lemma skip_digits_format (seen : bool) (s : string) :
  digits_then_blank seen s =
  match skip_digits s with
  | (digits, String c _) =>
      (seen || negb (String.eqb digits EmptyString))
      && (Ascii.eqb c SPACE || Ascii.eqb c TAB)
  | (_, EmptyString) => false
  end.
Proof.
  revert seen. induction s as [|c r IH]; intros seen; simpl; [reflexivity|].
  destruct (isdigit c) eqn:Ed.
  - rewrite IH. destruct (skip_digits r) as [d rest].
    destruct rest as [|c' rest']; [reflexivity|].
    simpl. now rewrite orb_true_r.
  - simpl. now rewrite orb_false_r.
Qed.

Lemma parse_line_format_error (path : string) (line_number : Z) :
  format_ok path = false ->
  parse_line path line_number = Fatal (BufferFormatError line_number).
Proof.
  unfold format_ok, parse_line. rewrite skip_digits_format.
  destruct (skip_digits path) as [digits rest].
  destruct digits as [|d ds]; [reflexivity|].
  destruct rest as [|c rest']; [reflexivity|].
  simpl. intros ->. reflexivity.
Qed.

Lemma parse_line_format_ok (path : string) (line_number : Z) :
  format_ok path = true ->
  parse_line path line_number <> Fatal (BufferFormatError line_number).
Proof.
  unfold format_ok, parse_line. rewrite skip_digits_format.
  destruct (skip_digits path) as [digits rest].
  destruct rest as [|c rest']; [discriminate|].
  destruct digits as [|d ds]; [discriminate|].
  simpl. intros ->. simpl.
  destruct (DU_COMPONENTS_MAX <=? _); discriminate.
Qed.

Lemma digits_then_blank_cut (seen : bool) (s : string) :
  digits_then_blank seen (cut_at_nul s) = digits_then_blank seen s.
Proof.
  revert seen. induction s as [|c r IH]; intros seen; simpl; [reflexivity|].
  destruct (Ascii.eqb c NUL) eqn:En.
  - apply Ascii.eqb_eq in En. subst c. simpl. now rewrite andb_false_r.
  - simpl. destruct (isdigit c); [apply IH | reflexivity].
Qed.

Lemma c_string_app_nul (s : string) (tl : list ascii) :
  Rev0.c_string (list_ascii_of_string s ++ NUL :: tl) = cut_at_nul s.
Proof.
  induction s as [|c r IH]; simpl.
  - reflexivity.
  - destruct (Ascii.eqb c NUL); [reflexivity|]. f_equal. exact IH.
Qed.

Lemma c_string_store (buf : list ascii) (s : string) :
  Rev0.c_string (Rev0.store_string buf s) = cut_at_nul s.
Proof. unfold Rev0.store_string. apply c_string_app_nul. Qed.

Lemma cut_at_nul_free (s : string) : nul_free s = true -> cut_at_nul s = s.
Proof.
  induction s as [|c r IH]; simpl; [reflexivity|].
  intros H. apply andb_prop in H as [Hc Hr]. apply negb_true_iff in Hc.
  rewrite Hc. f_equal. now apply IH.
Qed.

(** One turn of the reading loop of the earlier revision. *)
Lemma Rev0_read_entries_step junk fuel f table k chunk f' :
  Rev0.fgets Rev0.du_buffer_length f = Some (chunk, f') ->
  Rev0.read_entries junk (S fuel) f table k =
  bind (parse_line (cut_at_nul chunk) (k + 1))
       (fun e => Rev0.read_entries junk fuel f' (table ++ [e]) (k + 1)).
Proof.
  intros Eg. simpl. rewrite Eg.
  rewrite (sentinel_kept junk chunk (fgets_length _ _ _ Eg)).
  rewrite Ascii.eqb_refl. simpl. now rewrite c_string_store.
Qed.

Lemma fgets_chars_line (n : nat) (line rest : string) :
  newline_free line = true -> (String.length line + 1 <= n)%nat ->
  Rev0.fgets_chars n (String.append line (String NL rest))
  = (String.append line (String NL EmptyString), rest).
Proof.
  revert n. induction line as [|c r IH]; intros n Hnl Hlen; simpl in *.
  - destruct n as [|n]; [lia|]. simpl. reflexivity.
  - destruct n as [|n]; [lia|]. simpl.
    apply andb_prop in Hnl as [Hc Hr]. apply negb_true_iff in Hc. rewrite Hc.
    rewrite (IH n Hr) by lia. reflexivity.
Qed.

Lemma fgets_line (line rest : string) :
  fits_buffer line ->
  Rev0.fgets Rev0.du_buffer_length (String.append line (String NL rest))
  = Some (String.append line (String NL EmptyString), rest).
Proof.
  intros (Hnl & _ & Hlen). unfold Rev0.fgets.
  rewrite fgets_chars_line by (assumption || lia).
  destruct line; reflexivity.
Qed.

Lemma nul_free_app (s t : string) :
  nul_free (String.append s t) = nul_free s && nul_free t.
Proof.
  induction s as [|c r IH]; simpl; [reflexivity|]. rewrite IH. now rewrite andb_assoc.
Qed.

Lemma digits_then_blank_newline (seen : bool) (line : string) :
  digits_then_blank seen line = false ->
  digits_then_blank seen (String.append line (String NL EmptyString)) = false.
Proof.
  revert seen. induction line as [|c r IH]; intros seen; simpl.
  - intros _. now rewrite andb_false_r.
  - destruct (isdigit c); [apply IH | auto].
Qed.

Lemma parse_line_ok_any_number (path : string) (k k' : Z) :
  is_ok (parse_line path k) = true -> is_ok (parse_line path k') = true.
Proof.
  unfold parse_line. destruct (skip_digits path) as [digits rest].
  destruct digits as [|d ds]; [discriminate|].
  destruct rest as [|c rest']; [discriminate|].
  destruct (negb _); [discriminate|].
  destruct (sscanf_u64 (String d ds)) as [n_scanned sz].
  destruct (negb _); [discriminate|].
  destruct (DU_COMPONENTS_MAX <=? _); [discriminate|]. reflexivity.
Qed.

(** The earlier revision reads the well-formed lines one by one and stops
    at the first badly prefixed one. *)
Lemma Rev0_read_entries_bad_line junk (good : list string) (bad rest : string) :
  forall (fuel : nat) (table : list entry) (k : Z),
    Forall well_formed_line good -> fits_buffer bad -> format_ok bad = false ->
    (length good < fuel)%nat ->
    Rev0.read_entries junk fuel
      (unlines good (String.append bad (String NL rest))) table k
    = Fatal (BufferFormatError (k + Z.of_nat (length good) + 1)).
Proof.
  induction good as [|l good IH]; intros fuel table k Hgood Hbad Hfmt Hfuel.
  - destruct fuel as [|fuel]; [simpl in Hfuel; lia|].
    simpl unlines.
    rewrite (Rev0_read_entries_step junk fuel _ table k _ rest (fgets_line bad rest Hbad)).
    destruct Hbad as (Hnl & Hnul & Hlen).
    rewrite cut_at_nul_free by (rewrite nul_free_app, Hnul; reflexivity).
    rewrite parse_line_format_error by (now apply digits_then_blank_newline).
    simpl. f_equal. f_equal. lia.
  - destruct fuel as [|fuel]; [simpl in Hfuel; lia|].
    inversion Hgood as [|? ? [Hfit Hok] Hgood']; subst.
    simpl unlines.
    rewrite (Rev0_read_entries_step junk fuel _ table k _ _ (fgets_line l _ Hfit)).
    destruct Hfit as (Hnl & Hnul & Hlen).
    rewrite cut_at_nul_free by (rewrite nul_free_app, Hnul; reflexivity).
    apply (parse_line_ok_any_number _ 0 (k + 1)) in Hok.
    destruct (parse_line (String.append l (String NL EmptyString)) (k + 1)) as [e| | | |];
      try discriminate.
    simpl bind. rewrite IH; try assumption; [|simpl in Hfuel; lia].
    f_equal. f_equal. simpl length. lia.
Qed.

Lemma string_length_append (s t : string) :
  String.length (String.append s t) = (String.length s + String.length t)%nat.
Proof. induction s as [|c r IH]; simpl; [reflexivity|]. now rewrite IH. Qed.

(** Closed instances of [fits_buffer] and [well_formed_line]. *)
Ltac fits_buffer_by_computation :=
  split; [vm_compute; reflexivity
         | split; [vm_compute; reflexivity
                  | apply Nat.leb_le; vm_compute; reflexivity]].

Ltac well_formed_by_computation :=
  split; [fits_buffer_by_computation | vm_compute; reflexivity].

Lemma unlines_length (lines : list string) (rest : string) :
  (length lines <= String.length (unlines lines rest))%nat.
Proof.
  induction lines as [|l r IH]; simpl; [lia|].
  rewrite string_length_append. simpl. lia.
Qed.

(** The reading loop of [duvis.c] makes a record of every buffer that
    parses, counting the lines, and stops at the first buffer that is not
    well prefixed with the format error of its number. *)
Lemma Duvis_read_entries_bad_buffer (FILE : Type) (len : Z)
    (path_get : Z -> FILE -> bool -> Z * string * FILE) (zeroflag : bool)
    (good : list string) (bad : string) (nchars : Z) (f1 f' : FILE) :
  path_get len f1 zeroflag = (nchars, bad, f') -> nchars <> 0 ->
  format_ok bad = false ->
  forall (fuel : nat) (f : FILE) (table : list entry) (k : Z) (log : list Z),
    hands_over path_get len zeroflag f good f1 -> Forall parses good ->
    (length good < fuel)%nat ->
    Duvis.read_entries FILE len path_get fuel f zeroflag table k log
    = Fatal (BufferFormatError (k + Z.of_nat (length good) + 1)).
Proof.
  intros Hget Hn Hfmt.
  induction good as [|b good IH]; intros fuel f table k log Hread Hgood Hfuel;
    (destruct fuel as [|fuel]; [simpl in Hfuel; lia|]).
  - simpl in Hread. subst f1. simpl. rewrite Hget.
    apply Z.eqb_neq in Hn. rewrite Hn.
    rewrite parse_line_format_error by exact Hfmt.
    simpl. do 2 f_equal. lia.
  - destruct Hread as (n & f2 & Hb & Hnb & Hrest).
    inversion Hgood as [|? ? Hpb Hpr]; subst.
    simpl Duvis.read_entries. rewrite Hb.
    apply Z.eqb_neq in Hnb. rewrite Hnb.
    pose proof (parse_line_ok_any_number b 0 (k + 1) Hpb) as Hok.
    destruct (parse_line b (k + 1)) as [e| | | |] eqn:Ep; try discriminate.
    simpl bind. rewrite (IH fuel f2 _ (k + 1) _ Hrest Hpr) by (simpl in Hfuel; lia).
    do 2 f_equal. simpl length. lia.
Qed.

(** The stand-in for [path_get] hands over the lines that fit the buffer as
    they are. *)
Lemma path_get_lines_hands_over (good rest : list string) :
  Forall fits_buffer good ->
  hands_over path_get_lines (Z.of_nat Rev0.du_buffer_length) false
    (good ++ rest) good rest.
Proof.
  induction good as [|l good IH]; intros Hfit; [reflexivity|].
  inversion Hfit as [|? ? (_ & _ & Hlen) Hr]; subst.
  exists (Z.of_nat (String.length l) + 1), (good ++ rest). simpl.
  destruct (Z.of_nat Rev0.du_buffer_length <=? Z.of_nat (String.length l) + 1) eqn:E;
    [apply Z.leb_le in E; lia|].
  split; [reflexivity|]. split; [lia|]. now apply IH.
Qed.

(** C8. A line whose leading run of digits is empty, or is not immediately
    followed by a space or a tab, makes parsing stop with the format error
    of that line's number, and no table of records is returned.  This holds
    for the parsing of one buffer; for [read_entries] and [main] of
    [duvis.c] on a whole input, whatever [path_get] is: when the buffers
    handed over before the bad one parse, the number reported is the number
    of those buffers plus one; for [duvis.c] run on a list of lines; and for
    the earlier revision run on a text whose earlier lines are well formed.
    The input [abc /x] fails on line 1. *)
Theorem format_error_reported :
  (forall (path : string) (k : Z),
      format_ok path = false ->
      parse_line path k = Fatal (BufferFormatError k)) /\
  (forall (FILE : Type) (len : Z) (path_get : Z -> FILE -> bool -> Z * string * FILE)
          (fuel : nat) (f : FILE) (zeroflag : bool) (table : list entry) (k : Z)
          (log : list Z) (good : list string) (f1 : FILE) (nchars : Z)
          (bad : string) (f' : FILE),
      hands_over path_get len zeroflag f good f1 -> Forall parses good ->
      path_get len f1 zeroflag = (nchars, bad, f') -> nchars <> 0 ->
      format_ok bad = false -> (length good < fuel)%nat ->
      Duvis.read_entries FILE len path_get fuel f zeroflag table k log
      = Fatal (BufferFormatError (k + Z.of_nat (length good) + 1))) /\
  (forall (FILE : Type) (len : Z) (path_get : Z -> FILE -> bool -> Z * string * FILE)
          (fuel : nat) (pflag zeroflag : bool) (f : FILE)
          (good : list string) (f1 : FILE) (nchars : Z) (bad : string) (f' : FILE),
      hands_over path_get len zeroflag f good f1 -> Forall parses good ->
      path_get len f1 zeroflag = (nchars, bad, f') -> nchars <> 0 ->
      format_ok bad = false -> (length good < fuel)%nat ->
      Duvis.main FILE len path_get fuel pflag zeroflag f
      = Fatal (BufferFormatError (Z.of_nat (length good) + 1))) /\
  (forall (pflag : bool) (good : list string) (bad : string) (rest : list string),
      Forall fits_buffer good -> Forall parses good ->
      fits_buffer bad -> format_ok bad = false ->
      duvis pflag (good ++ bad :: rest)
      = Fatal (BufferFormatError (Z.of_nat (length good) + 1))) /\
  (forall (junk : ascii) (fuel : nat) (pflag : bool)
          (good : list string) (bad rest : string),
      Forall well_formed_line good -> fits_buffer bad -> format_ok bad = false ->
      Rev0.main junk fuel pflag (unlines good (String.append bad (String NL rest)))
      = Fatal (BufferFormatError (Z.of_nat (length good) + 1))) /\
  (forall pflag : bool, duvis pflag ["abc /x"%string] = Fatal (BufferFormatError 1)).
Proof.
  assert (Hmain : forall (FILE : Type) (len : Z)
            (path_get : Z -> FILE -> bool -> Z * string * FILE)
            (fuel : nat) (pflag zeroflag : bool) (f : FILE)
            (good : list string) (f1 : FILE) (nchars : Z) (bad : string) (f' : FILE),
            hands_over path_get len zeroflag f good f1 -> Forall parses good ->
            path_get len f1 zeroflag = (nchars, bad, f') -> nchars <> 0 ->
            format_ok bad = false -> (length good < fuel)%nat ->
            Duvis.main FILE len path_get fuel pflag zeroflag f
            = Fatal (BufferFormatError (Z.of_nat (length good) + 1))).
  { intros FILE len path_get fuel pflag zeroflag f good f1 nchars bad f'
           Hread Hgood Hget Hn Hfmt Hfuel.
    unfold Duvis.main.
    rewrite (Duvis_read_entries_bad_buffer FILE len path_get zeroflag good bad nchars
               f1 f' Hget Hn Hfmt fuel f [] 0 [] Hread Hgood Hfuel).
    reflexivity. }
  split; [|split; [|split; [|split; [|split]]]].
  - apply parse_line_format_error.
  - intros FILE len path_get fuel f zeroflag table k log good f1 nchars bad f'
           Hread Hgood Hget Hn Hfmt Hfuel.
    now apply (Duvis_read_entries_bad_buffer FILE len path_get zeroflag good bad nchars
                 f1 f').
  - exact Hmain.
  - intros pflag good bad rest Hfit Hgood (Hnl & Hnul & Hlen) Hfmt. unfold duvis.
    apply (Hmain _ _ _ _ _ _ _ good (bad :: rest) (Z.of_nat (String.length bad) + 1)
             bad rest).
    + now apply path_get_lines_hands_over.
    + exact Hgood.
    + simpl.
      destruct (Z.of_nat Rev0.du_buffer_length <=? Z.of_nat (String.length bad) + 1)
        eqn:E; [apply Z.leb_le in E; lia | reflexivity].
    + lia.
    + exact Hfmt.
    + rewrite length_app. simpl. lia.
  - intros junk fuel pflag good bad rest Hgood Hbad Hfmt. unfold Rev0.main.
    rewrite (Rev0_read_entries_bad_line junk good bad rest); try assumption.
    + reflexivity.
    + pose proof (unlines_length good (String.append bad (String NL rest))). lia.
  - intros [|]; vm_compute; reflexivity.
Qed.

Lemma format_error_reported_witness :
  duvis true ["1 a"; "2 a/b"; "abc /x"; "60 a/y"]%string
  = Fatal (BufferFormatError 3) /\
  Rev0.main "x"%char 0 true
    (unlines ["100 a"; "40 a/x"]%string (String.append "abc /x" (String NL "60 a/y")))
  = Fatal (BufferFormatError 3).
Proof.
  split.
  - apply (proj1 (proj2 (proj2 (proj2 format_error_reported))) true
             ["1 a"; "2 a/b"]%string "abc /x"%string ["60 a/y"%string]).
    + constructor; [fits_buffer_by_computation|].
      constructor; [fits_buffer_by_computation|]. constructor.
    + constructor; [vm_compute; reflexivity|].
      constructor; [vm_compute; reflexivity|]. constructor.
    + fits_buffer_by_computation.
    + reflexivity.
  - apply (proj1 (proj2 (proj2 (proj2 (proj2 format_error_reported)))) "x"%char 0%nat true
             ["100 a"; "40 a/x"]%string "abc /x"%string "60 a/y"%string).
    + constructor; [well_formed_by_computation|].
      constructor; [well_formed_by_computation|]. constructor.
    + fits_buffer_by_computation.
    + reflexivity.
Defined.

(** ** Lines longer than the buffer *)

Lemma Rev0_read_entries_no_overrun junk fuel f table k line :
  Rev0.read_entries junk fuel f table k <> Fatal (BufferOverrun line).
Proof.
  intros H. pose proof (Rev0_read_entries_fails junk fuel f table k) as Hf.
  rewrite H in Hf. exact Hf.
Qed.

Lemma Duvis_read_entries_no_overrun FILE len path_get fuel f zeroflag table k log line :
  Duvis.read_entries FILE len path_get fuel f zeroflag table k log
  <> Fatal (BufferOverrun line).
Proof.
  intros H.
  pose proof (Duvis_read_entries_fails FILE len path_get fuel f zeroflag table k log) as Hf.
  rewrite H in Hf. exact Hf.
Qed.

(** C5 (the code departs from the claim). A line of 4119 bytes is not
    reported: the earlier revision, whose sentinel test looks at the one
    byte of the buffer that [fgets] never fills, reads it as two records;
    neither revision's [read_entries] ever ends in the buffer-overrun exit,
    and [duvis.c] goes on to parse the buffer after writing its message. *)
Theorem overlong_line_not_reported :
  (forall junk : ascii,
      Rev0.read_entries junk 3 (String.append overlong_line (String NL EmptyString)) [] 0
      = Ok [mkEntry 1 [filler 4114] None 0 0 [];
            mkEntry 2 ["b"%string] None 0 0 []]) /\
  (forall (junk : ascii) (fuel : nat) (f : string) (table : list entry) (k line : Z),
      Rev0.read_entries junk fuel f table k <> Fatal (BufferOverrun line)) /\
  (forall (FILE : Type) (len : Z) (path_get : Z -> FILE -> bool -> Z * string * FILE)
          (fuel : nat) (f : FILE) (zeroflag : bool) (table : list entry)
          (k : Z) (log : list Z) (line : Z),
      Duvis.read_entries FILE len path_get fuel f zeroflag table k log
      <> Fatal (BufferOverrun line)) /\
  Duvis.read_entries (list string) (Z.of_nat Rev0.du_buffer_length) path_get_lines
    2 [overlong_line] false [] 0 []
  = Ok ([mkEntry 1 [filler 4114] None 0 0 []], [1]).
Proof.
  split; [|split; [|split]].
  - intros junk. vm_compute. reflexivity.
  - intros. apply Rev0_read_entries_no_overrun.
  - intros. apply Duvis_read_entries_no_overrun.
  - vm_compute. reflexivity.
Qed.

(** ** The missing-entry diagnostic of the pre-order builder *)

Lemma wrap32_small z : 0 <= z < 2 ^ 32 -> wrap32 z = z.
Proof. intros H. unfold wrap32. now apply Z.mod_small. Qed.


Lemma count_children_ok st offset i steps n :
  (i + steps <= length st)%nat ->
  exists m, count_children st offset i steps n = Ok m.
Proof.
  revert i n. induction steps as [|steps IH]; intros i n Hlen; simpl.
  - eauto.
  - unfold entry_at. destruct (lookup_lt_is_Some_2 st i ltac:(lia)) as [ei Hi].
    rewrite Hi. simpl. apply IH. lia.
Qed.

Lemma attach_missing_entry rec fuel st start end_ offset depth i n_ch ei :
  (i < end_)%nat -> st !! i = Some ei ->
  n_components ei <> wrap32 (offset + 1) ->
  attach rec (S fuel) st start end_ offset depth i n_ch
  = Fatal (MissingEntry (Z.of_nat i + 1)).
Proof.
  intros Hi He Hn. simpl.
  destruct (end_ <=? i)%nat eqn:E; [apply Nat.leb_le in E; lia|].
  unfold entry_at. rewrite He. simpl.
  apply Z.eqb_neq in Hn. rewrite Hn. reflexivity.
Qed.

Lemma build_tree_preorder_first_child base fuel st start end_ depth e e1 :
  st !! start = Some e -> st !! S start = Some e1 ->
  (S start < end_ <= length st)%nat ->
  n_components e = wrap32 (depth + base) ->
  n_components e1 <> wrap32 (n_components e + 1) ->
  build_tree_preorder base (S fuel) st start end_ depth
  = Fatal (MissingEntry (Z.of_nat start + 2)).
Proof.
  intros He He1 Hr Hn Hn1. simpl. unfold entry_at at 1. rewrite He. simpl.
  rewrite <- Hn, Z.eqb_refl. simpl.
  destruct (count_children_ok (<[start:=set_depth depth e]> st) (n_components e)
              (S start) (end_ - S start) (n_children e)) as [m Hm].
  { rewrite length_insert. lia. }
  rewrite Hm. simpl. unfold update_entry.
  rewrite list_lookup_insert_eq by (apply lookup_lt_Some in He; exact He). simpl.
  destruct (end_ - S start)%nat as [|k] eqn:Ek; [lia|].
  rewrite (attach_missing_entry _ k _ start end_ (n_components e) depth (S start) 0 e1);
    try assumption; try lia.
  - simpl. f_equal. f_equal. lia.
  - rewrite list_lookup_insert_ne by lia. rewrite list_lookup_insert_ne by lia. exact He1.
Qed.

(** C6 (amended). In the attach pass a record met at a direct-child
    boundary whose component count is not the parent's plus one ends the
    build with the missing-entry diagnostic, which cites the record's index
    counted from one ([offset] is the parent's component count, below
    [DU_COMPONENTS_MAX] as the parser leaves it); the first record after
    the parent is always such a boundary.  The sorted input [1 a],
    [10 a/b/c] fails this way at index 2. *)
Theorem missing_entry_reported :
  (forall (rec : list entry -> nat -> nat -> Z -> outcome (list entry))
          (fuel : nat) (st : list entry) (start end_ : nat) (offset depth : Z)
          (i n_ch : nat) (ei : entry),
      (i < end_)%nat -> st !! i = Some ei ->
      0 <= offset < DU_COMPONENTS_MAX ->
      n_components ei <> offset + 1 ->
      attach rec (S fuel) st start end_ offset depth i n_ch
      = Fatal (MissingEntry (Z.of_nat i + 1))) /\
  (forall (base : Z) (fuel : nat) (st : list entry) (start end_ : nat) (depth : Z)
          (e e1 : entry),
      st !! start = Some e -> st !! S start = Some e1 ->
      (S start < end_ <= length st)%nat ->
      n_components e = wrap32 (depth + base) ->
      n_components e < DU_COMPONENTS_MAX ->
      n_components e1 <> n_components e + 1 ->
      build_tree_preorder base (S fuel) st start end_ depth
      = Fatal (MissingEntry (Z.of_nat start + 2))) /\
  duvis true ["1 a"; "10 a/b/c"]%string = Fatal (MissingEntry 2) /\
  (forall junk : ascii,
      Rev0.main junk 2 true (unlines ["1 a"; "10 a/b/c"]%string EmptyString)
      = Fatal (MissingEntry 2)).
Proof.
  split; [|split; [|split]].
  - intros rec fuel st start end_ offset depth i n_ch ei Hi He Hoff Hn.
    eapply attach_missing_entry; try eassumption.
    rewrite wrap32_small; [exact Hn|].
    unfold DU_COMPONENTS_MAX, DU_PATH_MAX in Hoff. lia.
  - intros base fuel st start end_ depth e e1 He He1 Hr Hd Hb Hn.
    eapply build_tree_preorder_first_child; try eassumption.
    rewrite wrap32_small; [exact Hn|].
    unfold DU_COMPONENTS_MAX, DU_PATH_MAX in Hb. unfold n_components in *. lia.
  - vm_compute. reflexivity.
  - intros junk. vm_compute. reflexivity.
Qed.

Lemma missing_entry_reported_witness :
  build_tree_preorder 1 1
    [mkEntry 1 ["a"%string] None 0 0 [];
     mkEntry 10 ["a"; "b"; "c"]%string None 0 0 []] 0 2 0
  = Fatal (MissingEntry 2).
Proof.
  apply (proj1 (proj2 missing_entry_reported) 1 0%nat
           [mkEntry 1 ["a"%string] None 0 0 [];
            mkEntry 10 ["a"; "b"; "c"]%string None 0 0 []] 0%nat 2%nat 0
           (mkEntry 1 ["a"%string] None 0 0 [])
           (mkEntry 10 ["a"; "b"; "c"]%string None 0 0 [])).
  - reflexivity.
  - reflexivity.
  - simpl. lia.
  - reflexivity.
  - vm_compute. reflexivity.
  - vm_compute. discriminate.
Defined.

(** C6, counterexample. The input that consists of the one record
    [10 a/b/c], with no record for [a] or [a/b], is not refused: the record
    is the root, with a base depth of three. *)
Lemma lone_deep_record_accepted :
  duvis true ["10 a/b/c"%string]
  = Ok (mkRun [mkEntry 10 ["a"; "b"; "c"]%string (Some 0) 0 0 []] (Some 0%nat) 3 []) /\
  Rev0.main "x"%char 1 true (unlines ["10 a/b/c"%string] EmptyString)
  = Ok (mkRun [mkEntry 10 ["a"; "b"; "c"]%string (Some 0) 0 0 []] (Some 0%nat) 3 []).
Proof. split; vm_compute; reflexivity. Qed.

(** ** The two builders on one tree *)

(** C1 (the code departs from the claim). On the tree [a] with the
    children [a/x] and [a/y], listed in post-order, the post-order variant
    builds no tree: its first statement gives depth 0 to the first record,
    [a/x], not to the root, and its first turn of the loop stores a child
    into the [children] array of [a/y], allocated with no slot.  The
    pre-order variant builds the tree, with the root at depth 0 and both
    children at depth 1. *)
Theorem builders_disagree_on_depth :
  duvis false ["40 a/x"; "60 a/y"; "100 a"]%string = Undefined (ChildrenOverflow 1) /\
  build_tree_postorder 3
    [mkEntry 40 ["a"; "x"]%string None 0 0 [];
     mkEntry 60 ["a"; "y"]%string None 0 0 [];
     mkEntry 100 ["a"%string] None 0 0 []] 0 3 0
  = Undefined (ChildrenOverflow 1) /\
  postorder_setup
    [mkEntry 40 ["a"; "x"]%string None 0 0 [];
     mkEntry 60 ["a"; "y"]%string None 0 0 [];
     mkEntry 100 ["a"%string] None 0 0 []] 0 0
  = Ok [mkEntry 40 ["a"; "x"]%string (Some 0) 0 0 [];
        mkEntry 60 ["a"; "y"]%string None 0 0 [];
        mkEntry 100 ["a"%string] None 0 0 []] /\
  exists r : run,
    duvis true ["40 a/x"; "60 a/y"; "100 a"]%string = Ok r /\
    root_entry r = Some 0%nat /\
    node_triples r
    = [("a", 100, Some 0); ("x", 40, Some 1); ("y", 60, Some 1)]%string /\
    shown_children (entries r) 0 = [2; 1]%nat /\
    forall junk : ascii,
      Rev0.main junk 3 true (unlines ["40 a/x"; "60 a/y"; "100 a"]%string EmptyString)
      = Ok r.
Proof.
  split; [vm_compute; reflexivity|].
  split; [vm_compute; reflexivity|].
  split; [vm_compute; reflexivity|].
  eexists. split; [vm_compute; reflexivity|].
  split; [reflexivity|].
  split; [vm_compute; reflexivity|].
  split; [vm_compute; reflexivity|].
  intros junk. vm_compute. reflexivity.
Qed.

(** ** Sibling order *)

(** C2 (the code departs from the claim). [compare_subtrees] converts the
    64-bit sizes to [int] and [compare_sizes] takes them as 32-bit values:
    under the root [a], the child [a/y] of size 1 is listed before the
    child [a/x] of size 4294967296, whose low 32 bits are zero. *)
Theorem siblings_ordered_by_low_32_bits :
  duvis true ["4294967297 a"; "4294967296 a/x"; "1 a/y"]%string
  = Ok (mkRun
          [mkEntry 4294967297 ["a"%string] (Some 0) 2 2 [2; 1]%nat;
           mkEntry 4294967296 ["a"; "x"]%string (Some 1) 0 0 [];
           mkEntry 1 ["a"; "y"]%string (Some 1) 0 0 []]
          (Some 0%nat) 1 []) /\
  compare_subtrees 1
    [mkEntry 4294967297 ["a"%string] (Some 0) 2 2 [1; 2]%nat;
     mkEntry 4294967296 ["a"; "x"]%string (Some 1) 0 0 [];
     mkEntry 1 ["a"; "y"]%string (Some 1) 0 0 []] 1 2
  = Ok 1 /\
  compare_sizes 1 4294967296 = 1 /\
  (forall junk : ascii,
      Rev0.main junk 3 true
        (unlines ["4294967297 a"; "4294967296 a/x"; "1 a/y"]%string EmptyString)
      = Ok (mkRun
              [mkEntry 4294967297 ["a"%string] (Some 0) 2 2 [2; 1]%nat;
               mkEntry 4294967296 ["a"; "x"]%string (Some 1) 0 0 [];
               mkEntry 1 ["a"; "y"]%string (Some 1) 0 0 []]
              (Some 0%nat) 1 [])).
Proof.
  split; [vm_compute; reflexivity|].
  split; [vm_compute; reflexivity|].
  split; [vm_compute; reflexivity|].
  intros junk. vm_compute. reflexivity.
Qed.

(** * The tree built by the pre-order builder *)

(** ** Children lists of a range of records *)

Lemma children_in_nil st i : children_in st i i = [].
Proof. unfold children_in. now rewrite Nat.sub_diag. Qed.

Lemma children_in_split st lo mid hi :
  (lo <= mid <= hi)%nat ->
  children_in st lo hi = children_in st lo mid ++ children_in st mid hi.
Proof.
  intros H. unfold children_in.
  replace (hi - lo)%nat with ((mid - lo) + (hi - mid))%nat by lia.
  rewrite seq_app, map_app, concat_app.
  replace (lo + (mid - lo))%nat with mid by lia. reflexivity.
Qed.

Lemma children_in_first st lo hi :
  (lo < hi)%nat ->
  children_in st lo hi = children_at st lo ++ children_in st (S lo) hi.
Proof.
  intros H. rewrite (children_in_split st lo (S lo) hi) by lia.
  f_equal. unfold children_in. replace (S lo - lo)%nat with 1%nat by lia.
  simpl. apply app_nil_r.
Qed.

Lemma children_in_ext st st' lo hi :
  (forall k, (lo <= k < hi)%nat -> st' !! k = st !! k) ->
  children_in st' lo hi = children_in st lo hi.
Proof.
  intros H. unfold children_in. f_equal. apply map_ext_in.
  intros k Hk. apply in_seq in Hk. unfold children_at. rewrite H by lia. reflexivity.
Qed.

Lemma children_in_all st :
  children_in st 0 (length st) = concat (map children st).
Proof.
  unfold children_in. rewrite Nat.sub_0_r. f_equal.
  assert (G : forall (pre l : list entry),
             map (children_at (pre ++ l)) (seq (length pre) (length l)) = map children l).
  { intros pre l. revert pre. induction l as [|e l IH]; intros pre; simpl; [reflexivity|].
    f_equal.
    - unfold children_at. rewrite lookup_app_r by lia. now rewrite Nat.sub_diag.
    - specialize (IH (pre ++ [e])). rewrite <- app_assoc in IH. simpl in IH.
      rewrite length_app in IH. simpl in IH.
      replace (length pre + 1)%nat with (S (length pre)) in IH by lia. exact IH. }
  apply (G [] st).
Qed.

(** ** Inversion of the table accesses *)

Lemma entry_at_Ok st i e : entry_at st i = Ok e -> st !! i = Some e.
Proof. unfold entry_at. destruct (st !! i); intros H; [now injection H as -> | discriminate]. Qed.

Lemma component_at_Ok i e k s :
  component_at i e k = Ok s -> 0 <= k /\ components e !! Z.to_nat k = Some s.
Proof.
  unfold component_at. destruct (k <? 0) eqn:E; [discriminate|].
  apply Z.ltb_ge in E. destruct (components e !! Z.to_nat k); [|discriminate].
  intros H. injection H as ->. split; [exact E | reflexivity].
Qed.

Lemma update_entry_Ok st i f st' :
  update_entry st i f = Ok st' -> exists e, st !! i = Some e /\ st' = <[i := f e]> st.
Proof.
  unfold update_entry. destruct (st !! i) as [e|]; [|discriminate].
  intros H. injection H as <-. eauto.
Qed.

Lemma store_child_Ok st p k c st' :
  store_child st p k c = Ok st' ->
  exists e, st !! p = Some e /\
            st' = <[p := set_children (take k (children e) ++ c :: drop (S k) (children e)) e]> st.
Proof.
  unfold store_child. intros H. bind_ok H. apply entry_at_Ok in Ha.
  destruct (k <? children_cap a)%nat; [|discriminate].
  injection H as <-. eauto.
Qed.

Lemma walk_subtree_spec st i offset j steps j' :
  walk_subtree st i offset j steps = Ok j' ->
  (j <= j' <= j + steps)%nat /\
  forall k : nat, (j <= k < j')%nat ->
    exists (ei ek : entry) (ci ck : string),
      st !! i = Some ei /\ st !! k = Some ek /\ 0 <= offset /\
      components ei !! Z.to_nat offset = Some ci /\
      components ek !! Z.to_nat offset = Some ck /\ strcmp ci ck = 0.
Proof.
  revert j. induction steps as [|steps IH]; intros j; simpl.
  - intros H. injection H as <-. split; [lia|]. intros k Hk. lia.
  - intros H. bind_inv H as ej Hej. apply entry_at_Ok in Hej.
    destruct (negb _).
    { injection H as <-. split; [lia|]. intros k Hk. lia. }
    bind_inv H as ei Hei. apply entry_at_Ok in Hei.
    bind_inv H as ci Hci. apply component_at_Ok in Hci as [Hoff Hci].
    bind_inv H as cj Hcj. apply component_at_Ok in Hcj as [_ Hcj].
    destruct (strcmp ci cj =? 0) eqn:Es.
    + apply IH in H as [Hr Hall]. split; [lia|].
      intros k Hk. destruct (decide (k = j)) as [->|Hne].
      * exists ei, ej, ci, cj. apply Z.eqb_eq in Es. repeat split; assumption.
      * apply Hall. lia.
    + injection H as <-. split; [lia|]. intros k Hk. lia.
Qed.

Lemma fmap_components_insert (st : list entry) k e e' :
  st !! k = Some e -> components e' = components e ->
  components <$> (<[k := e']> st) = components <$> st.
Proof.
  intros Hk He. rewrite list_fmap_insert. apply list_insert_id.
  rewrite list_lookup_fmap, Hk. simpl. now rewrite He.
Qed.

Lemma fmap_size_insert (st : list entry) k e e' :
  st !! k = Some e -> size e' = size e ->
  size <$> (<[k := e']> st) = size <$> st.
Proof.
  intros Hk He. rewrite list_fmap_insert. apply list_insert_id.
  rewrite list_lookup_fmap, Hk. simpl. now rewrite He.
Qed.

Lemma comps_lookup (st : list entry) comps k e :
  components <$> st = comps -> st !! k = Some e -> comps !! k = Some (components e).
Proof. intros <- Hk. rewrite list_lookup_fmap, Hk. reflexivity. Qed.

Lemma c_strings_lookup comps k c (s : string) i :
  Forall c_strings comps -> comps !! k = Some c -> c !! i = Some s ->
  nul_free s = true.
Proof.
  intros Hwf Hk Hi. rewrite Forall_forall in Hwf.
  destruct (Hwf c (list_elem_of_lookup_2 _ _ _ Hk)) as [_ Hn].
  rewrite Forall_forall in Hn. apply Hn. eapply list_elem_of_lookup_2. exact Hi.
Qed.

Lemma prefix_one_more (cs c : list string) :
  cs `prefix_of` c -> length c = S (length cs) -> exists x, c = cs ++ [x].
Proof.
  intros [t ->] Hlen. rewrite length_app in Hlen.
  destruct t as [|x [|y t]]; simpl in Hlen; try lia. now exists x.
Qed.

(** The records that the walk passes begin with the components of the
    child at which it started. *)
Lemma rooted_subtree comps start end_ i j cs ci :
  Forall c_strings comps -> rooted comps start end_ ->
  comps !! start = Some cs -> comps !! i = Some ci ->
  length ci = S (length cs) -> (start < i)%nat -> (j <= end_)%nat ->
  (forall k : nat, (S i <= k < j)%nat ->
     exists (ck : list string) (x y : string),
       comps !! k = Some ck /\ ci !! length cs = Some x /\
       ck !! length cs = Some y /\ strcmp x y = 0) ->
  rooted comps i j.
Proof.
  intros Hwf Hroot Hcs Hci Hlen Hsi Hj Hwalk k ci' ck Hi' Hk Hck.
  rewrite Hci in Hi'. injection Hi' as <-.
  destruct (prefix_one_more cs ci) as [x0 ->]; [|exact Hlen|].
  { apply (Hroot i cs ci Hcs); [lia | exact Hci]. }
  destruct (Hwalk k ltac:(lia)) as (ck' & x & y & Hck' & Hx & Hy & Hs).
  rewrite Hck in Hck'. injection Hck' as <-.
  destruct (Hroot k cs ck Hcs ltac:(lia) Hck) as [t ->].
  rewrite lookup_app_r in Hx by lia. rewrite Nat.sub_diag in Hx. injection Hx as <-.
  rewrite lookup_app_r in Hy by lia. rewrite Nat.sub_diag in Hy.
  destruct t as [|y' t]; [discriminate|]. injection Hy as ->.
  assert (x0 = y) as ->.
  { apply strcmp_eq; [| |exact Hs].
    - apply (c_strings_lookup comps i (cs ++ [x0]) x0 (length cs) Hwf Hci).
      rewrite lookup_app_r by lia. now rewrite Nat.sub_diag.
    - apply (c_strings_lookup comps k (cs ++ y :: t) y (length cs) Hwf Hck).
      rewrite lookup_app_r by lia. now rewrite Nat.sub_diag. }
  exists t. now rewrite <- app_assoc.
Qed.

Lemma attach_inv_done comps st_init st start end_ i n_ch :
  (end_ <= i)%nat -> attach_inv comps st_init st start end_ i n_ch ->
  attach_inv comps st_init st start end_ end_ n_ch.
Proof.
  intros Hle Hinv. pose proof Hinv as (_ & _ & Hr & _).
  assert (i = end_) as -> by lia. assumption.
Qed.

Lemma attach_spec rec comps st_init start end_ offset depth cs :
  build_spec rec -> Forall c_strings comps -> (end_ <= length comps)%nat ->
  comps !! start = Some cs -> Z.of_nat (length cs) = offset ->
  forall (fuel : nat) (st : list entry) (i n_ch : nat) (r : list entry * nat),
    attach_inv comps st_init st start end_ i n_ch ->
    attach rec fuel st start end_ offset depth i n_ch = Ok r ->
    attach_inv comps st_init (fst r) start end_ end_ (snd r).
Proof.
  intros Hrec Hwf Hend Hcs Hoff fuel.
  induction fuel as [|fuel IH]; intros st i n_ch r Hinv H; simpl in H.
  - destruct (end_ <=? i)%nat eqn:E; [|discriminate].
    injection H as <-. apply Nat.leb_le in E. simpl. eapply attach_inv_done; eassumption.
  - destruct (end_ <=? i)%nat eqn:E.
    { injection H as <-. apply Nat.leb_le in E. simpl. eapply attach_inv_done; eassumption. }
    apply Nat.leb_gt in E.
    bind_inv H as ei Hei. apply entry_at_Ok in Hei.
    destruct (n_components ei =? wrap32 (offset + 1)) eqn:En; simpl in H; [|discriminate].
    apply Z.eqb_eq in En.
    bind_inv H as st_a Ha. apply store_child_Ok in Ha as (es' & Hes' & ->).
    bind_inv H as st_b Hb. apply update_entry_Ok in Hb as (ei' & Hei' & Hstb).
    bind_inv H as j Hj. apply walk_subtree_spec in Hj as [Hjr Hwalk].
    bind_inv H as st_c Hc.
    destruct Hinv as (Hcomp & Hsize & Hrange & Hfresh & (es & Hes & Hlen) & Hcount
                      & Hperm & Hframe & Htree).
    rewrite Hes in Hes'. injection Hes' as <-.
    assert (Hne : start <> i) by lia.
    rewrite list_lookup_insert_ne in Hei' by exact Hne.
    rewrite Hei in Hei'. injection Hei' as <-.
    rewrite take_ge, drop_ge in Hstb by lia. 
    set (d := wrap32 (depth + 1)) in *.
    set (es1 := set_children (children es ++ [i]) es) in *.
    assert (Hlt_i : (i < length st)%nat) by (apply lookup_lt_Some in Hei; exact Hei).
    assert (Hlt_s : (start < length st)%nat) by (apply lookup_lt_Some in Hes; exact Hes).
    assert (Hb_start : st_b !! start = Some es1).
    { subst st_b. rewrite list_lookup_insert_ne by lia.
      apply list_lookup_insert_eq. exact Hlt_s. }
    assert (Hb_i : st_b !! i = Some (set_depth d ei)).
    { subst st_b. apply list_lookup_insert_eq. rewrite length_insert. exact Hlt_i. }
    assert (Hb_other : forall k, k <> start -> k <> i -> st_b !! k = st !! k).
    { intros k Hk1 Hk2. subst st_b.
      rewrite list_lookup_insert_ne by lia. now rewrite list_lookup_insert_ne by lia. }
    assert (Hb_comp : components <$> st_b = comps).
    { subst st_b. rewrite (fmap_components_insert _ i ei); [| |reflexivity].
      - rewrite (fmap_components_insert _ start es); [exact Hcomp|exact Hes|reflexivity].
      - rewrite list_lookup_insert_ne by lia. exact Hei. }
    assert (Hb_size : size <$> st_b = size <$> st_init).
    { subst st_b. rewrite (fmap_size_insert _ i ei); [| |reflexivity].
      - rewrite (fmap_size_insert _ start es); [exact Hsize|exact Hes|reflexivity].
      - rewrite list_lookup_insert_ne by lia. exact Hei. }
    assert (Hb_len : length st_b = length st).
    { subst st_b. now rewrite !length_insert. }
    assert (Hei_nil : children ei = [] /\ n_children ei = 0)
      by (apply (Hfresh i ei); [lia | exact Hei]).
    destruct Hei_nil as [Hei_nil Hei_zero].
    assert (Hjend : (j <= end_)%nat) by lia.
    (* the block from [i] to [j] *)
    assert (Hblock :
      components <$> st_c = comps /\
      size <$> st_c = size <$> st_init /\
      (forall k, ~ (i <= k < j)%nat -> st_c !! k = st_b !! k) /\
      children_counted st_c i j /\
      Permutation (children_in st_c i j) (seq (S i) (j - S i)) /\
      (rooted comps start end_ -> extends_parent comps st_c i j)).
    { destruct (S i <? j)%nat eqn:Esub.
      - apply Nat.ltb_lt in Esub.
        assert (Hpre : build_pre st_b i j).
        { split; [rewrite Hb_len; rewrite <- Hcomp, length_fmap in Hend; lia|].
          split; [|rewrite Hb_comp; exact Hwf].
          intros k e Hk Hke. destruct (decide (k = i)) as [->|Hki].
          - rewrite Hb_i in Hke. injection Hke as <-. split; assumption.
          - rewrite Hb_other in Hke by lia. apply (Hfresh k e); [lia | exact Hke]. }
        destruct (Hrec st_b i j d st_c Hpre Hc) as (B1 & Bs & B2 & Bc & B3 & B4).
        rewrite Hb_comp in B1, B4. rewrite Hb_size in Bs.
        split; [exact B1|]. split; [exact Bs|]. split; [exact B2|].
        split; [exact Bc|]. split; [exact B3|].
        intros Hroot. apply B4.
        pose proof (comps_lookup _ _ _ _ Hcomp Hei) as Hci.
        assert (Hleni : length (components ei) = S (length cs)).
        { assert (Hcsb : Z.of_nat (length cs) < DU_COMPONENTS_MAX).
          { rewrite Forall_forall in Hwf.
            apply (Hwf cs (list_elem_of_lookup_2 _ _ _ Hcs)). }
          unfold n_components in En. rewrite wrap32_small in En.
          - lia.
          - unfold DU_COMPONENTS_MAX, DU_PATH_MAX in Hcsb. lia. }
        apply (rooted_subtree comps start end_ i j cs (components ei)); try assumption; try lia.
        intros k Hk. destruct (Hwalk k Hk) as (ei' & ek & ci & ck & W1 & W2 & W3 & W4 & W5 & W6).
        rewrite Hb_i in W1. injection W1 as <-. simpl in W4.
        exists (components ek), ci, ck.
        replace (length cs) with (Z.to_nat offset) by lia.
        split; [exact (comps_lookup _ _ _ _ Hb_comp W2)|]. auto.
      - apply Nat.ltb_ge in Esub. injection Hc as <-.
        assert (j = S i) as -> by lia.
        split; [exact Hb_comp|]. split; [exact Hb_size|]. split; [reflexivity|].
        split.
        { intros p ep Hp Hpe. assert (p = i) as -> by lia.
          rewrite Hb_i in Hpe. injection Hpe as <-. simpl.
          rewrite Hei_nil, Hei_zero. reflexivity. }
        split.
        + rewrite children_in_first by lia. rewrite children_in_nil, Nat.sub_diag.
          unfold children_at. rewrite Hb_i. simpl. rewrite Hei_nil. reflexivity.
        + intros _ p ep c Hp Hpe Hc'. assert (p = i) as -> by lia.
          rewrite Hb_i in Hpe. injection Hpe as <-. simpl in Hc'.
          rewrite Hei_nil in Hc'. inversion Hc'. }
    destruct Hblock as (B1 & Bs & B2 & Bc & B3 & B4).
    assert (Hc_start : st_c !! start = Some es1).
    { rewrite B2 by lia. exact Hb_start. }
    apply (IH st_c j (S n_ch) r); [|exact H].
    split; [exact B1|]. split; [exact Bs|]. split; [lia|].
    split.
    { intros k e Hk Hke. rewrite B2 in Hke by lia.
      rewrite Hb_other in Hke by lia. apply (Hfresh k e); [lia | exact Hke]. }
    split.
    { exists es1. split; [exact Hc_start|]. simpl. rewrite length_app. simpl. lia. }
    split.
    { intros p ep Hp Hpe. destruct (decide (p < i)%nat) as [Hpi|Hpi].
      - rewrite B2 in Hpe by lia. rewrite Hb_other in Hpe by lia.
        apply (Hcount p ep); [lia | exact Hpe].
      - apply (Bc p ep); [lia | exact Hpe]. }
    split.
    { unfold children_at at 1. rewrite Hc_start. simpl.
      rewrite (children_in_split st_c (S start) i j) by lia.
      rewrite (children_in_ext st st_c (S start) i).
      2:{ intros k Hk. rewrite B2 by lia. apply Hb_other; lia. }
      rewrite B3.
      replace (j - S start)%nat with ((i - S start) + (j - i))%nat by lia.
      rewrite seq_app. rewrite <- Hperm.
      unfold children_at. rewrite Hes.
      replace (S start + (i - S start))%nat with i by lia.
      replace (j - i)%nat with (S (j - S i)) by lia. simpl seq.
      rewrite <- !app_assoc. apply Permutation_app_head. simpl.
      rewrite Permutation_middle. reflexivity. }
    split.
    { intros k Hk. rewrite B2 by lia. rewrite Hb_other by lia. apply Hframe. exact Hk. }
    intros Hroot p ep c Hp Hpe Hcin.
    destruct (decide (p = start)) as [->|Hps].
    { rewrite Hc_start in Hpe. injection Hpe as <-. simpl in *.
      apply elem_of_app in Hcin as [Hcin|Hcin].
      + apply (Htree Hroot start es c); [lia | exact Hes | exact Hcin].
      + apply list_elem_of_singleton in Hcin. subst c.
        pose proof (comps_lookup _ _ _ _ Hcomp Hei) as Hci.
        pose proof (comps_lookup _ _ _ _ Hcomp Hes) as Hcs'.
        rewrite Hcs in Hcs'. injection Hcs' as Hcs'.
        assert (Hcsb : Z.of_nat (length cs) < DU_COMPONENTS_MAX).
        { rewrite Forall_forall in Hwf.
          apply (Hwf cs (list_elem_of_lookup_2 _ _ _ Hcs)). }
        assert (Hpfx : cs `prefix_of` components ei).
        { apply (Hroot i cs (components ei) Hcs); [lia | exact Hci]. }
        assert (Hleni : length (components ei) = S (length cs)).
        { unfold n_components in En. rewrite wrap32_small in En; [lia|].
          unfold DU_COMPONENTS_MAX, DU_PATH_MAX in Hcsb. lia. }
        destruct (prefix_one_more cs (components ei) Hpfx Hleni) as [x Hx].
        exists x. rewrite Hci, Hx, Hcs'. reflexivity. }
    destruct (decide (p < i)%nat) as [Hpi|Hpi].
    + rewrite B2 in Hpe by lia. rewrite Hb_other in Hpe by lia.
      apply (Htree Hroot p ep c); [lia | exact Hpe | exact Hcin].
    + apply (B4 Hroot p ep c); [lia | exact Hpe | exact Hcin].
Qed.

Lemma build_tree_preorder_spec base fuel :
  build_spec (build_tree_preorder base fuel).
Proof.
  induction fuel as [|fuel IH]; intros st start end_ depth st' Hpre H; simpl in H;
    [discriminate|].
  destruct Hpre as (Hrange & Hfresh & Hwf).
  bind_inv H as e He. apply entry_at_Ok in He.
  destruct (n_components e =? wrap32 (depth + base)) eqn:En; simpl in H; [|discriminate].
  apply Z.eqb_eq in En.
  bind_inv H as n Hn.
  bind_inv H as st1 H1. apply update_entry_Ok in H1 as (e0 & He0 & Hst1).
  assert (Hlt : (start < length st)%nat) by (apply lookup_lt_Some in He; exact He).
  rewrite list_lookup_insert_eq in He0 by exact Hlt. injection He0 as <-.
  set (e1 := alloc_children n (set_n_children n (set_depth depth e))) in *.
  bind_inv H as r Hr.
  bind_inv H as e' He'. apply entry_at_Ok in He'.
  destruct (Z.of_nat r.2 =? n_children e') eqn:Eassert; simpl in H; [|discriminate].
  apply Z.eqb_eq in Eassert.
  bind_inv H as sorted Hs. apply qsort_Permutation in Hs. injection H as <-.
  assert (H1_start : st1 !! start = Some e1).
  { subst st1. apply list_lookup_insert_eq. now rewrite length_insert. }
  assert (H1_other : forall k, k <> start -> st1 !! k = st !! k).
  { intros k Hk. subst st1. rewrite !list_lookup_insert_ne by lia. reflexivity. }
  assert (H1_comp : components <$> st1 = components <$> st).
  { subst st1. rewrite (fmap_components_insert _ start (set_depth depth e)); [| |reflexivity].
    - now apply (fmap_components_insert _ start e).
    - now apply list_lookup_insert_eq. }
  assert (H1_size : size <$> st1 = size <$> st).
  { subst st1. rewrite (fmap_size_insert _ start (set_depth depth e)); [| |reflexivity].
    - now apply (fmap_size_insert _ start e).
    - now apply list_lookup_insert_eq. }
  assert (Hinit : attach_inv (components <$> st) st1 st1 start end_ (S start) 0).
  { split; [exact H1_comp|]. split; [reflexivity|]. split; [lia|].
    split.
    { intros k e2 Hk Hke. rewrite H1_other in Hke by lia.
      apply (Hfresh k e2); [lia | exact Hke]. }
    split; [exists e1; split; [exact H1_start | reflexivity]|].
    split; [intros p ep Hp; lia|].
    split.
    { unfold children_at. rewrite H1_start, children_in_nil, Nat.sub_diag. reflexivity. }
    split; [reflexivity|].
    intros _ p ep c Hp Hpe Hc. assert (p = start) as -> by lia.
    rewrite H1_start in Hpe. injection Hpe as <-. inversion Hc. }
  pose proof (attach_spec _ (components <$> st) st1 start end_ (wrap32 (depth + base))
                depth (components e) IH Hwf) as Hatt.
  specialize (Hatt ltac:(rewrite length_fmap; lia)
                   (comps_lookup _ _ _ _ eq_refl He) En _ _ _ _ _ Hinit Hr).
  destruct r as [st_f n_f]. simpl in *.
  destruct Hatt as (F1 & Fs & F2 & F3 & (es & Hes & Hlen) & Fc & F5 & F6 & F7).
  rewrite He' in Hes. injection Hes as <-.
  assert (Hf_lt : (start < length st_f)%nat) by (apply lookup_lt_Some in He'; exact He').
  split.
  { rewrite (fmap_components_insert _ start e'); [exact F1 | exact He' | reflexivity]. }
  split.
  { rewrite (fmap_size_insert _ start e'); [|exact He' | reflexivity].
    now rewrite Fs. }
  split.
  { intros k Hk. rewrite list_lookup_insert_ne by lia. rewrite F6 by exact Hk.
    apply H1_other. lia. }
  split.
  { intros p ep Hp Hpe. destruct (decide (p = start)) as [->|Hps].
    - rewrite list_lookup_insert_eq in Hpe by exact Hf_lt. injection Hpe as <-. simpl.
      rewrite <- Eassert, <- Hlen. f_equal. now apply Permutation_length.
    - rewrite list_lookup_insert_ne in Hpe by lia.
      apply (Fc p ep); [lia | exact Hpe]. }
  split.
  { rewrite children_in_first by lia.
    rewrite (children_in_ext st_f _ (S start) end_).
    2:{ intros k Hk. apply list_lookup_insert_ne. lia. }
    unfold children_at at 1. rewrite list_lookup_insert_eq by exact Hf_lt. simpl.
    rewrite <- Hs. rewrite <- F5. unfold children_at. rewrite He'. reflexivity. }
  intros Hroot p ep c Hp Hpe Hc.
  destruct (decide (p = start)) as [->|Hps].
  - rewrite list_lookup_insert_eq in Hpe by exact Hf_lt. injection Hpe as <-. simpl in *.
    apply (F7 Hroot start e' c); [lia | exact He' |].
    rewrite Hs. exact Hc.
  - rewrite list_lookup_insert_ne in Hpe by lia.
    apply (F7 Hroot p ep c); [lia | exact Hpe | exact Hc].
Qed.

Lemma parsed_build_pre (st : list entry) :
  st <> [] -> Forall parsed st -> build_pre st 0 (length st).
Proof.
  intros Hne Hp. split; [|split].
  - destruct st; [contradiction|]. simpl. lia.
  - intros k e _ Hk. rewrite Forall_forall in Hp.
    destruct (Hp e (list_elem_of_lookup_2 _ _ _ Hk)) as (Hn & Hc & _). split; assumption.
  - rewrite Forall_fmap. eapply Forall_impl; [exact Hp|].
    intros e (_ & _ & _ & Hn & Hs). split; [|exact Hs]. unfold n_components in Hn. lia.
Qed.

Lemma truncated_snoc (e : entry) (c : list string) (x : string) :
  components e = c ++ [x] -> truncated e = c.
Proof.
  intros H. unfold truncated. rewrite H, length_app. simpl.
  replace (length c + 1 - 1)%nat with (length c) by lia.
  now rewrite take_app_length.
Qed.

Lemma build_tree_preorder_structure (base : Z) (fuel : nat) (st st' : list entry) :
  st <> [] -> Forall parsed st ->
  build_tree_preorder base fuel st 0 (length st) 0 = Ok st' ->
  (components <$> st' = components <$> st /\ size <$> st' = size <$> st) /\
  listed_once st' /\ all_children_counted st' /\
  (rooted (components <$> st') 0 (length st') -> children_extend_parents st').
Proof.
  intros Hne Hp H.
  destruct (build_tree_preorder_spec base fuel st 0%nat (length st) 0 st'
              (parsed_build_pre st Hne Hp) H) as (B1 & Bs & B2 & Bc & B3 & B4).
  assert (Hlen : length st' = length st).
  { rewrite <- (length_fmap components st'), B1. apply length_fmap. }
  split; [split; assumption|]. split; [|split].
  - unfold listed_once. rewrite <- children_in_all, Hlen. exact B3.
  - intros p ep Hpe. apply (Bc p ep); [|exact Hpe].
    apply lookup_lt_Some in Hpe. lia.
  - rewrite B1, Hlen. intros Hroot p c ep ec Hpe Hc Hce.
    destruct (B4 Hroot p ep c) as [x Hx]; [|exact Hpe|exact Hc|].
    { apply lookup_lt_Some in Hpe. lia. }
    rewrite <- B1 in Hx. rewrite (comps_lookup st' _ c ec eq_refl Hce) in Hx.
    injection Hx as Hx. now apply truncated_snoc with x.
Qed.

Lemma Forall_parsed_sorted (table sorted : list entry) :
  Forall parsed table -> qsort compare_entries table = Ok sorted -> Forall parsed sorted.
Proof.
  intros Hp Hs. apply qsort_Permutation in Hs.
  rewrite Forall_forall in *. intros e He. apply Hp. now rewrite Hs.
Qed.

Lemma Duvis_main_preorder_structure FILE len path_get fuel zeroflag inf (r : run) :
  Duvis.main FILE len path_get fuel true zeroflag inf = Ok r ->
  listed_once (entries r) /\ all_children_counted (entries r) /\
  (rooted (components <$> entries r) 0 (length (entries r)) ->
   children_extend_parents (entries r)).
Proof.
  unfold Duvis.main. intros H. bind_inv H as t Ht.
  pose proof (Duvis_read_entries_parsed _ _ _ _ _ _ _ _ _ _ (Forall_nil_2 _) Ht) as Hp.
  destruct (length t.1 =? 0)%nat eqn:E0.
  - injection H as <-. simpl. apply Nat.eqb_eq in E0.
    destruct t.1; [|discriminate].
    split; [unfold listed_once; simpl; reflexivity|].
    split; [intros p ep Hpe; discriminate|].
    intros _ p c ep ec Hpe. discriminate.
  - apply Nat.eqb_neq in E0.
    bind_inv H as sorted Hs. bind_inv H as e0 He0.
    destruct (n_components e0 =? 0); [discriminate|].
    bind_inv H as built Hb. injection H as <-. simpl.
    pose proof (Forall_parsed_sorted _ _ Hp Hs) as Hps.
    apply qsort_Permutation in Hs. rewrite (Permutation_length Hs) in Hb, E0.
    apply build_tree_preorder_structure in Hb; [|destruct sorted; [contradiction|discriminate]|exact Hps].
    destruct Hb as (_ & H1 & H2 & H3). repeat split; assumption.
Qed.

(** C3 (amended). When the pre-order builder, run on the whole table of
    parsed records, completes without a fatal error, the records keep
    their sizes and components, every record except the first is listed
    exactly once among all the children lists and the first is listed in
    none, and every [n_children] is the length of its list; if moreover
    every record begins with the components of the first one, the
    components of every listed child without the last one are the
    components of the node that lists it.  The same holds of the table that
    the pre-order variant of the program leaves. *)
Theorem preorder_tree_structure :
  (forall (base : Z) (fuel : nat) (st st' : list entry),
      st <> [] -> Forall parsed st ->
      build_tree_preorder base fuel st 0 (length st) 0 = Ok st' ->
      (components <$> st' = components <$> st /\ size <$> st' = size <$> st) /\
      listed_once st' /\ all_children_counted st' /\
      (rooted (components <$> st') 0 (length st') -> children_extend_parents st')) /\
  (forall (FILE : Type) (len : Z) (path_get : Z -> FILE -> bool -> Z * string * FILE)
          (fuel : nat) (zeroflag : bool) (inf : FILE) (r : run),
      Duvis.main FILE len path_get fuel true zeroflag inf = Ok r ->
      listed_once (entries r) /\ all_children_counted (entries r) /\
      (rooted (components <$> entries r) 0 (length (entries r)) ->
       children_extend_parents (entries r))).
Proof.
  split.
  - apply build_tree_preorder_structure.
  - apply Duvis_main_preorder_structure.
Qed.

Lemma preorder_tree_structure_witness :
  let st := [mkEntry 100 ["a"%string] None 0 0 [];
             mkEntry 40 ["a"; "x"]%string None 0 0 [];
             mkEntry 60 ["a"; "y"]%string None 0 0 []] in
  let st' := [mkEntry 100 ["a"%string] (Some 0) 2 2 [2; 1]%nat;
              mkEntry 40 ["a"; "x"]%string (Some 1) 0 0 [];
              mkEntry 60 ["a"; "y"]%string (Some 1) 0 0 []] in
  listed_once st' /\ children_extend_parents st'.
Proof.
  intros st st'.
  assert (Hne : st <> []) by discriminate.
  assert (Hp : Forall parsed st).
  { repeat (apply Forall_cons_2 || apply Forall_nil_2);
      (split; [reflexivity|]; split; [reflexivity|]; split; [reflexivity|];
       split; [vm_compute; split; reflexivity|]; repeat constructor). }
  assert (Hb : build_tree_preorder 1 3 st 0 (length st) 0 = Ok st')
    by (vm_compute; reflexivity).
  destruct (proj1 preorder_tree_structure 1 3%nat st st' Hne Hp Hb)
    as (_ & Hperm & _ & Htree).
  split; [exact Hperm|]. apply Htree.
  intros k cs ck Hcs Hk Hck. simpl in Hcs. injection Hcs as <-.
  destruct k as [|[|[|k]]]; simpl in Hk; try lia;
    simpl in Hck; injection Hck as <-; eexists; reflexivity.
Defined.

(** C3, counterexample. On the input [1 a], [1 b/c] the pre-order variant
    completes without an error and lists [b/c] as the child of [a]: the
    components of the child without the last one are [b], those of its
    parent are [a]. *)
Lemma preorder_child_of_a_stranger :
  exists r : run,
    duvis true ["1 a"; "1 b/c"]%string = Ok r /\
    children_at (entries r) 0 = [1%nat] /\
    components <$> entries r !! 0%nat = Some ["a"%string] /\
    truncated <$> entries r !! 1%nat = Some ["b"%string].
Proof. eexists. repeat split; vm_compute; reflexivity. Qed.

(** * The post-order builder of duvis.c completes on no parsed table *)

Lemma postorder_walk_stuck st i offset j steps r :
  postorder_walk st i offset j steps = Ok r -> r = (st, j).
Proof.
  destruct steps as [|steps]; simpl; intros H.
  - now injection H as <-.
  - bind_inv H as ej Hej.
    destruct (n_components ej <? offset) eqn:E; simpl in H; [|now injection H as <-].
    bind_inv H as ei Hei. bind_inv H as ci Hci. bind_inv H as cj Hcj.
    apply component_at_Ok in Hcj as [Hoff Hcj]. apply lookup_lt_Some in Hcj.
    apply Z.ltb_lt in E. unfold n_components in E. lia.
Qed.

Lemma wrap32_sub_add (n : Z) : 0 <= n < 2 ^ 32 -> wrap32 (wrap32 (n - 2) + 2) = n.
Proof.
  intros H. unfold wrap32. rewrite Zplus_mod_idemp_l.
  replace (n - 2 + 2) with n by lia. now apply Z.mod_small.
Qed.

Lemma build_tree_postorder_never_completes (fuel : nat) (st st' : list entry) :
  st <> [] -> Forall parsed st ->
  build_tree_postorder fuel st 0 (length st) 0 <> Ok st'.
Proof.
  intros Hne Hp H. destruct fuel as [|fuel]; [discriminate|]. simpl in H.
  destruct st as [|e0 rest]; [contradiction|].
  inversion Hp as [|? ? Hp0 Hprest]; subst.
  unfold postorder_setup, update_entry in H. simpl in H.
  bind_inv H as w Hw. apply postorder_walk_stuck in Hw. subst w. simpl in H.
  bind_inv H as ej Hej. apply entry_at_Ok in Hej.
  destruct rest as [|e1 rest]; [discriminate|]. simpl in Hej. injection Hej as <-.
  inversion Hprest as [|? ? Hp1 _]; subst.
  bind_inv H as f Hf. clear H.
  destruct Hp0 as (_ & _ & _ & Hn0 & _).
  change (n_components (set_n_children 0 (set_depth 0 e0))) with (n_components e0) in Hf.
  rewrite wrap32_sub_add, Z.eqb_refl in Hf
    by (unfold DU_COMPONENTS_MAX, DU_PATH_MAX in Hn0; lia).
  unfold store_child, entry_at in Hf. simpl in Hf.
  destruct Hp1 as (Hz & _). rewrite Hz in Hf. simpl in Hf. discriminate.
Qed.

(** * Fuel

    A call of the pre-order builder on a range of [n] records needs no more
    than [n] units of fuel, which is what [main] gives it. *)

Lemma fueled_bind {A B : Type} (m : outcome A) (k : A -> outcome B) :
  fueled m -> (forall a, m = Ok a -> fueled (k a)) -> fueled (bind m k).
Proof.
  unfold fueled. destruct m; simpl; intros Hm Hk; try discriminate.
  - now apply Hk.
  - contradiction.
Qed.

Lemma entry_at_fueled st i : fueled (entry_at st i).
Proof. unfold fueled, entry_at. destruct (st !! i); discriminate. Qed.

Lemma update_entry_fueled st i f : fueled (update_entry st i f).
Proof. unfold fueled, update_entry. destruct (st !! i); discriminate. Qed.

Lemma component_at_fueled i e k : fueled (component_at i e k).
Proof.
  unfold fueled, component_at. destruct (k <? 0); [discriminate|].
  destruct (components e !! Z.to_nat k); discriminate.
Qed.

Lemma depth_at_fueled st i : fueled (depth_at st i).
Proof.
  unfold depth_at. apply fueled_bind; [apply entry_at_fueled|].
  intros e _. unfold fueled. destruct (depth e); discriminate.
Qed.

Lemma store_child_fueled st p k c : fueled (store_child st p k c).
Proof.
  unfold store_child. apply fueled_bind; [apply entry_at_fueled|].
  intros e _. unfold fueled. destruct (k <? children_cap e)%nat; discriminate.
Qed.

Lemma compare_subtrees_fueled base st p1 p2 : fueled (compare_subtrees base st p1 p2).
Proof.
  unfold compare_subtrees.
  apply fueled_bind; [apply entry_at_fueled|]. intros e1 _.
  apply fueled_bind; [apply entry_at_fueled|]. intros e2 _.
  destruct (negb _); [discriminate|].
  apply fueled_bind; [apply depth_at_fueled|]. intros d1 _.
  apply fueled_bind; [apply depth_at_fueled|]. intros d2 _.
  destruct (negb _); [discriminate|].
  apply fueled_bind; [apply component_at_fueled|]. intros c1 _.
  apply fueled_bind; [apply component_at_fueled|]. intros c2 _.
  destruct (negb _); discriminate.
Qed.

Lemma insert_sorted_fueled {A : Type} (cmp : A -> A -> outcome Z) (x : A) (l : list A) :
  (forall a b, fueled (cmp a b)) -> fueled (insert_sorted cmp x l).
Proof.
  intros Hc. induction l as [|y l IH]; simpl; [discriminate|].
  apply fueled_bind; [apply Hc|]. intros q _.
  destruct (q <=? 0); [discriminate|].
  apply fueled_bind; [exact IH|]. intros; discriminate.
Qed.

Lemma qsort_fueled {A : Type} (cmp : A -> A -> outcome Z) (l : list A) :
  (forall a b, fueled (cmp a b)) -> fueled (qsort cmp l).
Proof.
  intros Hc. induction l as [|x l IH]; simpl; [discriminate|].
  apply fueled_bind; [exact IH|]. intros s _. now apply insert_sorted_fueled.
Qed.

Lemma count_children_fueled st offset i steps n :
  fueled (count_children st offset i steps n).
Proof.
  revert i n. induction steps as [|steps IH]; intros i n; simpl; [discriminate|].
  apply fueled_bind; [apply entry_at_fueled|]. intros ei _. apply IH.
Qed.

Lemma walk_subtree_fueled st i offset j steps : fueled (walk_subtree st i offset j steps).
Proof.
  revert j. induction steps as [|steps IH]; intros j; simpl; [discriminate|].
  apply fueled_bind; [apply entry_at_fueled|]. intros ej _.
  destruct (negb _); [discriminate|].
  apply fueled_bind; [apply entry_at_fueled|]. intros ei _.
  apply fueled_bind; [apply component_at_fueled|]. intros ci _.
  apply fueled_bind; [apply component_at_fueled|]. intros cj _.
  destruct (strcmp ci cj =? 0); [apply IH | discriminate].
Qed.

Lemma attach_fueled rec start end_ offset depth fuel :
  forall (st : list entry) (i n_ch : nat),
    (end_ - i <= fuel)%nat ->
    (forall st a b d, (i <= a)%nat -> (a < b <= end_)%nat -> fueled (rec st a b d)) ->
    fueled (attach rec fuel st start end_ offset depth i n_ch).
Proof.
  induction fuel as [|fuel IH]; intros st i n_ch Hfuel Hrec; simpl.
  - destruct (end_ <=? i)%nat eqn:E; [discriminate|]. apply Nat.leb_gt in E. lia.
  - destruct (end_ <=? i)%nat eqn:E; [discriminate|]. apply Nat.leb_gt in E.
    apply fueled_bind; [apply entry_at_fueled|]. intros ei _.
    destruct (negb _); [discriminate|].
    apply fueled_bind; [apply store_child_fueled|]. intros st1 _.
    apply fueled_bind; [apply update_entry_fueled|]. intros st2 _.
    apply fueled_bind; [apply walk_subtree_fueled|]. intros j Hj.
    apply walk_subtree_spec in Hj as [Hj _].
    apply fueled_bind.
    { destruct (S i <? j)%nat eqn:Es; [|discriminate].
      apply Nat.ltb_lt in Es. apply Hrec; lia. }
    intros st3 _. apply IH; [lia|].
    intros st' a b d Ha Hb. apply Hrec; lia.
Qed.

Lemma build_tree_preorder_fueled base fuel :
  forall (st : list entry) (start end_ : nat) (depth : Z),
    (start < end_)%nat -> (end_ - start <= fuel)%nat ->
    fueled (build_tree_preorder base fuel st start end_ depth).
Proof.
  induction fuel as [|fuel IH]; intros st start end_ depth Hlt Hfuel; [lia|]. simpl.
  apply fueled_bind; [apply entry_at_fueled|]. intros e _.
  destruct (negb _); [discriminate|].
  apply fueled_bind; [apply count_children_fueled|]. intros n _.
  apply fueled_bind; [apply update_entry_fueled|]. intros st1 _.
  apply fueled_bind.
  { apply attach_fueled; [lia|]. intros st' a b d Ha Hb. apply IH; lia. }
  intros r _.
  apply fueled_bind; [apply entry_at_fueled|]. intros e' _.
  destruct (negb _); [discriminate|].
  apply fueled_bind; [|intros; discriminate].
  apply qsort_fueled. intros. apply compare_subtrees_fueled.
Qed.

(** * What the program does with its fuel *)

Lemma postorder_walk_cases st i offset j steps :
  postorder_walk st i offset j steps = Ok (st, j) \/
  exists u, postorder_walk st i offset j steps = Undefined u.
Proof.
  destruct steps as [|steps]; simpl; [now left|].
  unfold entry_at. destruct (st !! j) as [ej|]; simpl; [|right; eauto].
  destruct (n_components ej <? offset) eqn:E; simpl; [|now left].
  destruct (st !! i) as [ei|]; simpl; [|right; eauto].
  right. unfold component_at.
  destruct (offset <? 0) eqn:E0; [simpl; eauto|].
  destruct (components ei !! Z.to_nat offset); simpl; [|eauto].
  apply Z.ltb_lt in E. apply Z.ltb_ge in E0. unfold n_components in E.
  rewrite (lookup_ge_None_2 (components ej) (Z.to_nat offset)) by lia.
  simpl. eauto.
Qed.

(** On every non-empty table of parsed records the post-order builder of
    [duvis.c], called as [main] calls it, runs into an access outside an
    object. *)
Lemma build_tree_postorder_undefined (fuel : nat) (st : list entry) :
  st <> [] -> Forall parsed st ->
  exists u, build_tree_postorder (S fuel) st 0 (length st) 0 = Undefined u.
Proof.
  intros Hne Hp. destruct st as [|e0 rest]; [contradiction|].
  inversion Hp as [|? ? Hp0 Hprest]; subst.
  simpl. unfold postorder_setup, update_entry. simpl.
  match goal with
  | |- context [postorder_walk ?s ?i ?o ?j ?n] =>
      destruct (postorder_walk_cases s i o j n) as [Hw|[u Hw]]; rewrite Hw
  end; simpl; [|eauto].
  destruct rest as [|e1 rest]; simpl; [eauto|].
  inversion Hprest as [|? ? Hp1 _]; subst.
  destruct Hp0 as (_ & _ & _ & Hn0 & _).
  change (n_components (set_n_children 0 (set_depth 0 e0))) with (n_components e0).
  rewrite wrap32_sub_add, Z.eqb_refl
    by (unfold DU_COMPONENTS_MAX, DU_PATH_MAX in Hn0; lia).
  unfold store_child, entry_at. simpl.
  destruct Hp1 as (Hz & _). rewrite Hz. simpl. eauto.
Qed.

Lemma compare_entries_fueled e1 e2 : fueled (compare_entries e1 e2).
Proof.
  unfold fueled, compare_entries.
  destruct (first_difference (components e1) (components e2)); [discriminate|].
  destruct (n_components e1 =? n_components e2); discriminate.
Qed.

(** The fuel that [main] gives the pre-order builder is enough. *)
Lemma Duvis_main_preorder_fueled FILE len path_get fuel zeroflag inf :
  fueled (Duvis.read_entries FILE len path_get fuel inf zeroflag [] 0 []) ->
  fueled (Duvis.main FILE len path_get fuel true zeroflag inf).
Proof.
  intros Hread. unfold Duvis.main.
  apply fueled_bind; [exact Hread|]. intros t _.
  destruct (length t.1 =? 0)%nat eqn:E0; [discriminate|]. apply Nat.eqb_neq in E0.
  apply fueled_bind; [apply qsort_fueled; intros; apply compare_entries_fueled|].
  intros sorted _.
  apply fueled_bind; [apply entry_at_fueled|]. intros e0 _.
  destruct (n_components e0 =? 0); [discriminate|].
  apply fueled_bind; [|intros; discriminate].
  apply build_tree_preorder_fueled; lia.
Qed.

(** * The order of compare_entries *)

Lemma strcmp_antisym (s1 s2 : string) : strcmp s2 s1 = - strcmp s1 s2.
Proof.
  revert s2. induction s1 as [|c1 r1 IH]; intros [|c2 r2]; simpl; try lia.
  rewrite (Ascii.eqb_sym c2 c1). destruct (Ascii.eqb c1 c2); [apply IH | lia].
Qed.

Lemma byte_nonneg (c : ascii) : 0 <= byte c.
Proof. unfold byte. lia. Qed.

Lemma strcmp_lt_trans (s1 s2 s3 : string) :
  strcmp s1 s2 < 0 -> strcmp s2 s3 < 0 -> strcmp s1 s3 < 0.
Proof.
  revert s2 s3. induction s1 as [|c1 r1 IH]; intros [|c2 r2] [|c3 r3]; simpl;
    intros H1 H2;
    try (pose proof (byte_nonneg c1)); try (pose proof (byte_nonneg c2));
    try (pose proof (byte_nonneg c3)); try lia.
  - assert (byte c3 <> 0); [|lia].
    intros E. destruct (Ascii.eqb c2 c3) eqn:E23; [|lia].
    apply Ascii.eqb_eq in E23. subst c3. lia.
  - destruct (Ascii.eqb c1 c2) eqn:E12; destruct (Ascii.eqb c2 c3) eqn:E23.
    + apply Ascii.eqb_eq in E12, E23. subst. rewrite Ascii.eqb_refl.
      eapply IH; eassumption.
    + apply Ascii.eqb_eq in E12. subst. rewrite E23. exact H2.
    + apply Ascii.eqb_eq in E23. subst. rewrite E12. exact H1.
    + destruct (Ascii.eqb c1 c3) eqn:E13; [|lia].
      apply Ascii.eqb_eq in E13. subst. lia.
Qed.

Lemma first_difference_antisym (c1 c2 : list string) :
  first_difference c2 c1 = Z.opp <$> first_difference c1 c2.
Proof.
  revert c2. induction c1 as [|s1 r1 IH]; intros [|s2 r2]; simpl; try reflexivity.
  rewrite (strcmp_antisym s1 s2).
  destruct (strcmp s1 s2 =? 0) eqn:E.
  - apply Z.eqb_eq in E. rewrite E. simpl. apply IH.
  - apply Z.eqb_neq in E.
    destruct (- strcmp s1 s2 =? 0) eqn:E'; [apply Z.eqb_eq in E'; lia|reflexivity].
Qed.

Lemma sorts_before_path (e1 e2 : entry) :
  sorts_before e1 e2 <-> path_before (components e1) (components e2).
Proof.
  unfold sorts_before, path_before, compare_entries, n_components.
  destruct (first_difference (components e1) (components e2)) as [q|].
  - split; [intros (q' & H & Hq); now injection H as -> | intros Hq; eauto].
  - destruct (_ =? _) eqn:E.
    + apply Z.eqb_eq in E. split; [intros (q' & H & _); discriminate | lia].
    + split; [intros (q' & H & Hq); injection H as <-; lia|].
      intros Hl. eexists. split; [reflexivity | lia].
Qed.

Lemma path_before_trans (c1 c2 c3 : list string) :
  Forall (fun s => nul_free s = true) c1 ->
  Forall (fun s => nul_free s = true) c2 ->
  Forall (fun s => nul_free s = true) c3 ->
  path_before c1 c2 -> path_before c2 c3 -> path_before c1 c3.
Proof.
  unfold path_before. revert c2 c3.
  induction c1 as [|s1 r1 IH]; intros [|s2 r2] [|s3 r3] F1 F2 F3; simpl; try lia.
  inversion F1 as [|? ? N1 F1']; inversion F2 as [|? ? N2 F2'];
      inversion F3 as [|? ? N3 F3']; subst.
  destruct (strcmp s1 s2 =? 0) eqn:E12; destruct (strcmp s2 s3 =? 0) eqn:E23.
  - apply Z.eqb_eq in E12, E23.
    apply strcmp_eq in E12; [|assumption..]. apply strcmp_eq in E23; [|assumption..].
    subst. rewrite strcmp_refl. simpl.
    specialize (IH r2 r3 F1' F2' F3').
    destruct (first_difference r1 r2), (first_difference r2 r3),
      (first_difference r1 r3); simpl in *; lia.
  - apply Z.eqb_eq in E12. apply strcmp_eq in E12; [|assumption..]. subst.
    rewrite E23. destruct (first_difference r1 r2); simpl; lia.
  - apply Z.eqb_eq in E23. apply strcmp_eq in E23; [|assumption..]. subst.
    rewrite E12. destruct (first_difference r2 r3); simpl; lia.
  - intros H1 H2. pose proof (strcmp_lt_trans s1 s2 s3 H1 H2) as H13.
    destruct (strcmp s1 s3 =? 0) eqn:E13; [apply Z.eqb_eq in E13; lia | exact H13].
Qed.

Lemma path_before_irrefl (c : list string) : ~ path_before c c.
Proof. unfold path_before. rewrite first_difference_same. lia. Qed.

Lemma path_before_asym (c1 c2 : list string) :
  path_before c1 c2 -> ~ path_before c2 c1.
Proof.
  unfold path_before. rewrite (first_difference_antisym c1 c2).
  destruct (first_difference c1 c2); simpl; lia.
Qed.

Lemma path_before_total (c1 c2 : list string) :
  Forall (fun s => nul_free s = true) c1 ->
  Forall (fun s => nul_free s = true) c2 ->
  c1 = c2 \/ path_before c1 c2 \/ path_before c2 c1.
Proof.
  unfold path_before. revert c2.
  induction c1 as [|s1 r1 IH]; intros [|s2 r2] F1 F2; simpl.
  - now left.
  - right. left. lia.
  - right. right. lia.
  - inversion F1 as [|? ? N1 F1']; inversion F2 as [|? ? N2 F2']; subst.
    rewrite (strcmp_antisym s1 s2).
    destruct (strcmp s1 s2 =? 0) eqn:E.
    + apply Z.eqb_eq in E. rewrite E. simpl.
      apply strcmp_eq in E; [|assumption..]. subst s2.
      destruct (IH r2 F1' F2') as [->|[H|H]].
      * now left.
      * right. left. destruct (first_difference r1 r2); [exact H | lia].
      * right. right. destruct (first_difference r2 r1); [exact H | lia].
    + apply Z.eqb_neq in E.
      destruct (- strcmp s1 s2 =? 0) eqn:E'; [apply Z.eqb_eq in E'; lia|].
      right. lia.
Qed.

Lemma path_before_extension (c k : list string) : k <> [] -> path_before c (c ++ k).
Proof.
  intros Hk. unfold path_before.
  assert (H : first_difference c (c ++ k) = None).
  { induction c as [|s r IH]; simpl; [now destruct k|]. now rewrite strcmp_refl. }
  rewrite H, length_app. destruct k; [contradiction | simpl; lia].
Qed.

(** X1. [compare_entries] is antisymmetric: when it orders two records, it
    orders them the opposite way with the arguments exchanged, and when it
    fails its assertion on two records it fails it with the arguments
    exchanged as well. *)
Theorem compare_entries_antisymmetric (e1 e2 : entry) :
  match compare_entries e1 e2 with
  | Ok q =>
      exists q' : Z,
        compare_entries e2 e1 = Ok q' /\ (q < 0 <-> 0 < q') /\ (0 < q <-> q' < 0)
  | o => compare_entries e2 e1 = o
  end.
Proof.
  unfold compare_entries.
  rewrite (first_difference_antisym (components e1) (components e2)).
  destruct (first_difference (components e1) (components e2)) as [q|]; simpl.
  - exists (- q). split; [reflexivity | lia].
  - rewrite (Z.eqb_sym (n_components e2)).
    destruct (n_components e1 =? n_components e2); [reflexivity|].
    eexists. split; [reflexivity | lia].
Qed.

(** X2. "Prefixes before path extensions": a record whose components are
    those of another record followed by at least one more is sorted after
    that record, whatever the components are. *)
Theorem prefix_sorts_before_extension (e1 e2 : entry) (k : list string) :
  k <> [] -> components e2 = components e1 ++ k -> sorts_before e1 e2.
Proof.
  intros Hk He. apply sorts_before_path. rewrite He. now apply path_before_extension.
Qed.

Lemma prefix_sorts_before_extension_witness :
  sorts_before (mkEntry 100 ["a"; "b"]%string None 0 0 [])
               (mkEntry 1 ["a"; "b"; "A"; "z"]%string None 0 0 []).
Proof.
  apply (prefix_sorts_before_extension
           (mkEntry 100 ["a"; "b"]%string None 0 0 [])
           (mkEntry 1 ["a"; "b"; "A"; "z"]%string None 0 0 [])
           ["A"; "z"]%string); [discriminate | reflexivity].
Defined.

(** X3. On records whose components are C strings, the order of
    [compare_entries] is transitive, so that it is an order [qsort] can
    sort by. *)
Theorem compare_entries_transitive (e1 e2 e3 : entry) :
  c_string_components e1 -> c_string_components e2 -> c_string_components e3 ->
  sorts_before e1 e2 -> sorts_before e2 e3 -> sorts_before e1 e3.
Proof.
  intros F1 F2 F3 H12 H23. apply sorts_before_path.
  apply sorts_before_path in H12, H23.
  now apply (path_before_trans _ (components e2)).
Qed.

Lemma compare_entries_transitive_witness :
  sorts_before (mkEntry 1 ["a"%string] None 0 0 [])
               (mkEntry 3 ["a"; "c"]%string None 0 0 []).
Proof.
  apply (compare_entries_transitive
           (mkEntry 1 ["a"%string] None 0 0 [])
           (mkEntry 2 ["a"; "b"; "x"]%string None 0 0 [])
           (mkEntry 3 ["a"; "c"]%string None 0 0 [])).
  - repeat constructor.
  - repeat constructor.
  - repeat constructor.
  - exists (-2). split; [reflexivity | lia].
  - exists (-1). split; [reflexivity | lia].
Defined.

(** X4. On records whose components are C strings, [compare_entries]
    fails its assertion exactly when the two records have the same
    components; two records with different components are ordered one way
    or the other. *)
Theorem compare_entries_total (e1 e2 : entry) :
  c_string_components e1 -> c_string_components e2 ->
  (compare_entries e1 e2 = Abort <-> components e1 = components e2) /\
  (components e1 <> components e2 -> sorts_before e1 e2 \/ sorts_before e2 e1).
Proof.
  intros F1 F2. split.
  - split.
    + intros Ha.
      destruct (path_before_total _ _ F1 F2) as [E|[H|H]]; [exact E| |]; exfalso;
        revert Ha H; unfold compare_entries, path_before, n_components;
        rewrite ?(first_difference_antisym (components e1) (components e2));
        destruct (first_difference (components e1) (components e2)); simpl;
        try discriminate;
        (destruct (_ =? _) eqn:E; [|discriminate]); apply Z.eqb_eq in E; lia.
    + intros E. unfold compare_entries, n_components.
      rewrite E, first_difference_same. now rewrite Z.eqb_refl.
  - intros Hne. destruct (path_before_total _ _ F1 F2) as [E|[H|H]]; [contradiction| |].
    + left. now apply sorts_before_path.
    + right. now apply sorts_before_path.
Qed.

Lemma compare_entries_total_witness :
  sorts_before (mkEntry 1 ["a"; "b"]%string None 0 0 [])
               (mkEntry 2 ["a"; "c"]%string None 0 0 []) \/
  sorts_before (mkEntry 2 ["a"; "c"]%string None 0 0 [])
               (mkEntry 1 ["a"; "b"]%string None 0 0 []).
Proof.
  apply (compare_entries_total
           (mkEntry 1 ["a"; "b"]%string None 0 0 [])
           (mkEntry 2 ["a"; "c"]%string None 0 0 [])).
  - repeat constructor.
  - repeat constructor.
  - discriminate.
Defined.

(** * The sorted table *)

Lemma sorted_by_nil {A : Type} (R : A -> A -> Prop) : sorted_by R [].
Proof. intros i j x y _ Hi. destruct i; discriminate. Qed.

Lemma sorted_by_cons {A : Type} (R : A -> A -> Prop) (x : A) (l : list A) :
  sorted_by R (x :: l) <-> Forall (R x) l /\ sorted_by R l.
Proof.
  split.
  - intros H. split.
    + apply Forall_lookup. intros j y Hj. apply (H 0%nat (S j)); [lia|reflexivity|exact Hj].
    + intros i j a b Hij Hi Hj. apply (H (S i) (S j)); [lia|exact Hi|exact Hj].
  - intros [Hx Hl] [|i] [|j] a b Hij Hi Hj; try lia; simpl in *.
    + injection Hi as <-. rewrite Forall_lookup in Hx. now apply (Hx j).
    + apply (Hl i j); [lia|assumption..].
Qed.

(** An insertion sort whose comparison function decides a transitive
    relation [R] on the elements that satisfy [P] returns them sorted by
    [R]. *)
Section Sorting.
Context {A : Type}.
Variable cmp : A -> A -> outcome Z.
Variable R : A -> A -> Prop.
Variable P : A -> Prop.
Hypothesis cmp_decides :
  forall (a b : A) (q : Z),
    P a -> P b -> cmp a b = Ok q -> (q <= 0 -> R a b) /\ (0 < q -> R b a).
Hypothesis R_trans :
  forall a b c : A, P a -> P b -> P c -> R a b -> R b c -> R a c.

Lemma insert_sorted_sorted (x : A) (l l' : list A) :
  P x -> Forall P l -> sorted_by R l -> insert_sorted cmp x l = Ok l' ->
  sorted_by R l'.
Proof using cmp_decides R_trans.
  intros Px. revert l'. induction l as [|y l IH]; intros l' Pl Hl; simpl; intros H.
  - injection H as <-. apply sorted_by_cons. split; [constructor | apply sorted_by_nil].
  - inversion Pl as [|? ? Py Pl']; subst.
    apply sorted_by_cons in Hl as [Hy Hl].
    bind_inv H as q Hq. destruct (cmp_decides x y q Px Py Hq) as [Hle Hgt].
    destruct (q <=? 0) eqn:E.
    + injection H as <-. apply Z.leb_le in E.
      apply sorted_by_cons. split.
      * constructor; [now apply Hle|].
        rewrite Forall_forall in Hy, Pl' |- *. intros z Hz.
        apply (R_trans x y z); [exact Px | exact Py | now apply Pl' | now apply Hle
                              | now apply Hy].
      * apply sorted_by_cons. split; assumption.
    + bind_inv H as l'' Hl''. injection H as <-. apply Z.leb_gt in E.
      apply sorted_by_cons. split.
      * pose proof (insert_sorted_Permutation _ _ _ _ Hl'') as Hp.
        rewrite <- Hp. constructor; [now apply Hgt | exact Hy].
      * now apply IH.
Qed.

Lemma qsort_sorted (l s : list A) :
  Forall P l -> qsort cmp l = Ok s -> sorted_by R s.
Proof using cmp_decides R_trans.
  revert s. induction l as [|x l IH]; intros s Pl; simpl; intros H.
  - injection H as <-. apply sorted_by_nil.
  - inversion Pl as [|? ? Px Pl']; subst. bind_inv H as s' Hs'.
    apply (insert_sorted_sorted x s'); [exact Px| |now apply IH|exact H].
    apply qsort_Permutation in Hs'. now rewrite <- Hs'.
Qed.
End Sorting.

Lemma compare_entries_decides (a b : entry) (q : Z) :
  compare_entries a b = Ok q ->
  (q <= 0 -> sorts_before a b) /\ (0 < q -> sorts_before b a).
Proof.
  intros Hq.
  pose proof (first_difference_antisym (components a) (components b)) as Ha.
  unfold sorts_before, compare_entries in *.
  rewrite Ha, (Z.eqb_sym (n_components b)).
  destruct (first_difference (components a) (components b)) as [q'|] eqn:Ed; simpl.
  - injection Hq as ->. apply first_difference_Some in Ed as [Hne _].
    split; intros Hs; eexists; (split; [reflexivity | lia]).
  - destruct (_ =? _) eqn:En; [discriminate|]. injection Hq as <-.
    apply Z.eqb_neq in En.
    split; intros Hs; eexists; (split; [reflexivity | lia]).
Qed.

Lemma qsort_ascending (l s : list entry) :
  Forall c_string_components l -> qsort compare_entries l = Ok s -> ascending s.
Proof.
  apply (qsort_sorted compare_entries sorts_before c_string_components).
  - intros a b q _ _. apply compare_entries_decides.
  - intros a b c Fa Fb Fc Hab Hbc. apply sorts_before_path.
    apply sorts_before_path in Hab, Hbc.
    now apply (path_before_trans _ (components b)).
Qed.

Lemma ascending_components (l l' : list entry) :
  components <$> l' = components <$> l -> ascending l -> ascending l'.
Proof.
  intros Hc Hl i j ei' ej' Hij Hi Hj.
  assert (Hlook : forall k e', l' !! k = Some e' ->
                    exists e, l !! k = Some e /\ components e = components e').
  { intros k e' Hk.
    assert (H : (components <$> l) !! k = Some (components e')).
    { rewrite <- Hc, list_lookup_fmap, Hk. reflexivity. }
    rewrite list_lookup_fmap in H. destruct (l !! k) as [e|]; [|discriminate].
    injection H as H. eauto. }
  destruct (Hlook i ei' Hi) as (ei & Hei & Hci).
  destruct (Hlook j ej' Hj) as (ej & Hej & Hcj).
  apply sorts_before_path. rewrite <- Hci, <- Hcj. apply sorts_before_path.
  now apply (Hl i j).
Qed.

Lemma ascending_NoDup (l : list entry) : ascending l -> NoDup (components <$> l).
Proof.
  intros Hl. apply NoDup_alt. intros i j c Hi Hj.
  rewrite list_lookup_fmap in Hi, Hj.
  destruct (l !! i) as [ei|] eqn:Ei; [|discriminate].
  destruct (l !! j) as [ej|] eqn:Ej; [|discriminate].
  injection Hi as Hi. injection Hj as Hj.
  destruct (Nat.lt_trichotomy i j) as [H|[H|H]]; [|exact H|]; exfalso.
  - apply (Hl i j ei ej H Ei) in Ej. apply sorts_before_path in Ej.
    rewrite Hi, Hj in Ej. now apply path_before_irrefl in Ej.
  - apply (Hl j i ej ei H Ej) in Ei. apply sorts_before_path in Ei.
    rewrite Hi, Hj in Ei. now apply path_before_irrefl in Ei.
Qed.

Lemma parsed_c_string_components (l : list entry) :
  Forall parsed l -> Forall c_string_components l.
Proof.
  intros H. eapply Forall_impl; [exact H|]. intros e (_ & _ & _ & _ & Hc). exact Hc.
Qed.

(** What a completed run of the pre-order variant went through. *)
Lemma Duvis_main_preorder_Ok FILE len path_get fuel zeroflag inf (r : run) :
  Duvis.main FILE len path_get fuel true zeroflag inf = Ok r ->
  (entries r = [] /\ root_entry r = None) \/
  exists (table sorted : list entry) (e0 : entry),
    Forall parsed table /\ qsort compare_entries table = Ok sorted /\
    sorted !! 0%nat = Some e0 /\
    run_base_depth r = n_components e0 /\ root_entry r = Some 0%nat /\
    build_tree_preorder (n_components e0) (length sorted) sorted 0 (length sorted) 0
    = Ok (entries r).
Proof.
  unfold Duvis.main. intros H. bind_inv H as t Ht.
  pose proof (Duvis_read_entries_parsed _ _ _ _ _ _ _ _ _ _ (Forall_nil_2 _) Ht) as Hp.
  destruct (length t.1 =? 0)%nat eqn:E0.
  - injection H as <-. simpl. apply Nat.eqb_eq in E0. left.
    destruct t.1; [split; reflexivity | discriminate].
  - bind_inv H as sorted Hs. bind_inv H as e0 He0.
    destruct (n_components e0 =? 0); [discriminate|].
    bind_inv H as built Hb. injection H as <-. simpl. right.
    exists t.1, sorted, e0. apply entry_at_Ok in He0.
    rewrite (Permutation_length (qsort_Permutation _ _ _ Hs)) in Hb.
    repeat split; assumption.
Qed.

Lemma Rev0_main_preorder_Ok junk fuel stdin (r : run) :
  Rev0.main junk fuel true stdin = Ok r ->
  (entries r = [] /\ root_entry r = None) \/
  exists (table sorted : list entry) (e0 : entry),
    Forall parsed table /\ qsort compare_entries table = Ok sorted /\
    sorted !! 0%nat = Some e0 /\
    run_base_depth r = n_components e0 /\ root_entry r = Some 0%nat /\
    build_tree_preorder (n_components e0) fuel sorted 0 (length sorted) 0
    = Ok (entries r).
Proof.
  unfold Rev0.main. intros H. bind_inv H as t Ht.
  pose proof (Rev0_read_entries_parsed _ _ _ _ _ _ (Forall_nil_2 _) Ht) as Hp.
  destruct (length t =? 0)%nat eqn:E0.
  - injection H as <-. simpl. apply Nat.eqb_eq in E0. left.
    destruct t; [split; reflexivity | discriminate].
  - simpl in H. bind_inv H as sorted Hs. bind_inv H as e0 He0.
    destruct (n_components e0 =? 0); [discriminate|].
    bind_inv H as built Hb. injection H as <-. simpl. right.
    exists t, sorted, e0. apply entry_at_Ok in He0.
    rewrite (Permutation_length (qsort_Permutation _ _ _ Hs)) in Hb.
    repeat split; assumption.
Qed.

Lemma built_table_ascending (base : Z) (fuel : nat) (table sorted st' : list entry)
    (e0 : entry) :
  Forall parsed table -> qsort compare_entries table = Ok sorted ->
  sorted !! 0%nat = Some e0 ->
  build_tree_preorder base fuel sorted 0 (length sorted) 0 = Ok st' ->
  ascending st' /\ NoDup (components <$> st').
Proof.
  intros Hp Hs H0 Hb.
  assert (Ha : ascending st').
  { apply (ascending_components sorted).
    - apply (build_tree_preorder_structure base fuel sorted st'); [|now apply (Forall_parsed_sorted table)|exact Hb].
      intros ->. discriminate.
    - apply (qsort_ascending table); [now apply parsed_c_string_components | exact Hs]. }
  split; [exact Ha | now apply ascending_NoDup].
Qed.

(** X5. The sort of the pre-order variant leaves the table in the order of
    [compare_entries]: [qsort] with [compare_entries], when no comparison
    fails, returns the records rearranged so that each one sorts before
    every later one.  The table that a completed run of the pre-order
    variant leaves is in that order, and no two of its records have the
    same components: an input that names a path twice does not get through
    the sort. *)
Theorem sorted_table_ascending :
  (forall l s : list entry,
      Forall c_string_components l -> qsort compare_entries l = Ok s ->
      s ≡ₚ l /\ ascending s) /\
  (forall (FILE : Type) (len : Z) (path_get : Z -> FILE -> bool -> Z * string * FILE)
          (fuel : nat) (zeroflag : bool) (inf : FILE) (r : run),
      Duvis.main FILE len path_get fuel true zeroflag inf = Ok r ->
      ascending (entries r) /\ NoDup (components <$> entries r)) /\
  (forall (junk : ascii) (fuel : nat) (stdin : string) (r : run),
      Rev0.main junk fuel true stdin = Ok r ->
      ascending (entries r) /\ NoDup (components <$> entries r)).
Proof.
  split; [|split].
  - intros l s Fl Hs. split; [symmetry; now apply (qsort_Permutation compare_entries)|].
    now apply (qsort_ascending l).
  - intros FILE len path_get fuel zeroflag inf r H.
    apply Duvis_main_preorder_Ok in H as [[-> _]|(t & s & e0 & Hp & Hs & H0 & _ & _ & Hb)].
    + split; [apply sorted_by_nil | constructor].
    + eapply (built_table_ascending _ _ t s _ e0); eassumption.
  - intros junk fuel stdin r H.
    apply Rev0_main_preorder_Ok in H as [[-> _]|(t & s & e0 & Hp & Hs & H0 & _ & _ & Hb)].
    + split; [apply sorted_by_nil | constructor].
    + eapply (built_table_ascending _ _ t s _ e0); eassumption.
Qed.

Lemma sorted_table_ascending_witness :
  [mkEntry 1 ["a"%string] None 0 0 [];
   mkEntry 2 ["a"; "b"]%string None 0 0 [];
   mkEntry 3 ["a"; "c"]%string None 0 0 []]
  ≡ₚ [mkEntry 3 ["a"; "c"]%string None 0 0 [];
      mkEntry 1 ["a"%string] None 0 0 [];
      mkEntry 2 ["a"; "b"]%string None 0 0 []] /\
  ascending [mkEntry 1 ["a"%string] None 0 0 [];
             mkEntry 2 ["a"; "b"]%string None 0 0 [];
             mkEntry 3 ["a"; "c"]%string None 0 0 []].
Proof.
  apply (proj1 sorted_table_ascending
           [mkEntry 3 ["a"; "c"]%string None 0 0 [];
            mkEntry 1 ["a"%string] None 0 0 [];
            mkEntry 2 ["a"; "b"]%string None 0 0 []]).
  - repeat constructor.
  - reflexivity.
Defined.

(** * The parser *)

(** X6. Splitting a path into components loses nothing: the components
    that [read_entries] stores, joined again by slashes, are the text of the
    line from the start of the path to the first newline or zero byte. *)
Theorem split_components_round_trip (s : string) :
  exists (c0 : string) (rest : list string),
    split_components s = c0 :: rest /\
    String.append c0 (join_path rest) = line_text s.
Proof.
  induction s as [|c r (c0 & rest & Hs & Hj)]; simpl.
  - exists EmptyString, []. split; reflexivity.
  - destruct (Ascii.eqb c NL || Ascii.eqb c NUL).
    + exists EmptyString, []. split; reflexivity.
    + destruct (Ascii.eqb c SLASH) eqn:Es.
      * apply Ascii.eqb_eq in Es. subst c. rewrite Hs.
        exists EmptyString, (c0 :: rest). split; [reflexivity|].
        simpl. now rewrite Hj.
      * rewrite Hs. exists (String c c0), rest. split; [reflexivity|].
        simpl. now rewrite Hj.
Qed.

(** X7. A component holds no slash, no newline and no zero byte, and a
    path with [n] slashes before its end has [n + 1] components, some of
    them empty when slashes are doubled, lead or trail. *)
Theorem split_components_separators (s : string) :
  Forall (fun c => slash_free c = true /\ newline_free c = true /\ nul_free c = true)
         (split_components s) /\
  length (split_components s) = S (count_slashes (line_text s)).
Proof.
  induction s as [|c r [IHf IHl]]; simpl.
  - split; [repeat constructor | reflexivity].
  - destruct (Ascii.eqb c NL) eqn:Enl; simpl; [split; [repeat constructor | reflexivity]|].
    destruct (Ascii.eqb c NUL) eqn:Enul; simpl; [split; [repeat constructor | reflexivity]|].
    destruct (Ascii.eqb c SLASH) eqn:Es.
    + split; [constructor; [repeat split | exact IHf] | simpl; now rewrite IHl].
    + destruct (split_components r) as [|x xs]; [discriminate|].
      inversion IHf as [|? ? (H1 & H2 & H3) Hxs]; subst. split.
      * constructor; [|exact Hxs]. simpl. rewrite Es, Enl, Enul, H1, H2, H3.
        repeat split.
      * exact IHl.
Qed.

Lemma split_components_line_text (s : string) :
  split_components (line_text s) = split_components s.
Proof.
  induction s as [|c r IH]; simpl; [reflexivity|].
  destruct (Ascii.eqb c NL || Ascii.eqb c NUL) eqn:E; [reflexivity|].
  simpl. rewrite E, IH. reflexivity.
Qed.

Lemma isdigit_not_end (c : ascii) :
  Ascii.eqb c NL || Ascii.eqb c NUL = true -> isdigit c = false.
Proof.
  intros H. apply orb_prop in H as [H|H]; apply Ascii.eqb_eq in H; subst c; reflexivity.
Qed.

Lemma blank_not_end (c : ascii) :
  Ascii.eqb c SPACE || Ascii.eqb c TAB = true ->
  Ascii.eqb c NL || Ascii.eqb c NUL = false.
Proof.
  intros H. apply orb_prop in H as [H|H]; apply Ascii.eqb_eq in H; subst c; reflexivity.
Qed.

Lemma skip_digits_line_text (s : string) :
  skip_digits (line_text s) = (fst (skip_digits s), line_text (snd (skip_digits s))).
Proof.
  induction s as [|c r IH]; simpl; [reflexivity|].
  destruct (Ascii.eqb c NL || Ascii.eqb c NUL) eqn:E.
  - rewrite (isdigit_not_end c E). simpl. now rewrite E.
  - simpl. destruct (isdigit c).
    + rewrite IH. destruct (skip_digits r) as [d rest]. reflexivity.
    + simpl. now rewrite E.
Qed.

Lemma parse_line_line_text (s : string) (k : Z) :
  parse_line (line_text s) k = parse_line s k.
Proof.
  unfold parse_line. rewrite skip_digits_line_text.
  destruct (skip_digits s) as [digits rest]. simpl.
  destruct digits as [|d ds]; [reflexivity|].
  destruct rest as [|c rest']; [reflexivity|]. simpl.
  destruct (Ascii.eqb c NL || Ascii.eqb c NUL) eqn:E.
  - destruct (Ascii.eqb c SPACE || Ascii.eqb c TAB) eqn:Eb; [|reflexivity].
    apply blank_not_end in Eb. congruence.
  - now rewrite split_components_line_text.
Qed.

(** X8. A record depends only on the text of its line: what follows the
    first newline or zero byte of the buffer, and whether there is a newline
    at all, changes neither the record nor the diagnostic. *)
Theorem parse_line_reads_line_text (s : string) (k : Z) :
  parse_line s k = parse_line (line_text s) k.
Proof. symmetry. apply parse_line_line_text. Qed.

Lemma parse_line_format_only (path : string) (k : Z) :
  fails_only format_error (parse_line path k).
Proof.
  unfold parse_line. destruct (skip_digits path) as [digits rest].
  destruct digits as [|d ds]; [exact I|].
  destruct rest as [|c rest']; [exact I|].
  destruct (negb _); [exact I|]. simpl.
  destruct (DU_COMPONENTS_MAX <=? _); exact I.
Qed.

Lemma Duvis_read_entries_format_only FILE len path_get fuel f zeroflag table k log :
  fails_only format_error
    (Duvis.read_entries FILE len path_get fuel f zeroflag table k log).
Proof.
  revert f table k log.
  induction fuel as [|fuel IH]; intros f table k log; simpl; [exact I|].
  destruct (path_get len f zeroflag) as [[nchars path] f'].
  destruct (nchars =? 0); [exact I|].
  apply fails_only_bind; [apply parse_line_format_only|]. intros e. apply IH.
Qed.

Lemma Rev0_read_entries_format_only junk fuel f table k :
  fails_only format_error (Rev0.read_entries junk fuel f table k).
Proof.
  revert f table k. induction fuel as [|fuel IH]; intros f table k; simpl; [exact I|].
  destruct (Rev0.fgets Rev0.du_buffer_length f) as [[chunk f']|] eqn:Eg; [|exact I].
  rewrite (sentinel_kept junk chunk (fgets_length _ _ _ Eg)).
  rewrite Ascii.eqb_refl. simpl.
  apply fails_only_bind; [apply parse_line_format_only|]. intros e. apply IH.
Qed.

(** X9. The size-parse-failure exit is never taken: [sscanf] is called on
    a buffer that starts with at least one digit, so it scans one item.
    The only diagnostic of [read_entries], in either revision, is the
    format error. *)
Theorem size_parse_failure_never_reported :
  (forall (path : string) (k : Z), fails_only format_error (parse_line path k)) /\
  (forall (FILE : Type) (len : Z) (path_get : Z -> FILE -> bool -> Z * string * FILE)
          (fuel : nat) (f : FILE) (zeroflag : bool) (table : list entry)
          (k : Z) (log : list Z) (line : Z),
      Duvis.read_entries FILE len path_get fuel f zeroflag table k log
      <> Fatal (SizeParseFailure line)) /\
  (forall (junk : ascii) (fuel : nat) (f : string) (table : list entry) (k line : Z),
      Rev0.read_entries junk fuel f table k <> Fatal (SizeParseFailure line)).
Proof.
  split; [exact parse_line_format_only|]. split.
  - intros FILE len path_get fuel f zeroflag table k log line H.
    pose proof (Duvis_read_entries_format_only FILE len path_get fuel f zeroflag table k log) as Hf.
    rewrite H in Hf. exact Hf.
  - intros junk fuel f table k line H.
    pose proof (Rev0_read_entries_format_only junk fuel f table k) as Hf.
    rewrite H in Hf. exact Hf.
Qed.

(** * The diagnostics of the pre-order builder *)

Lemma fails_only_bind_Ok {A B : Type} (P : error -> Prop)
    (m : outcome A) (k : A -> outcome B) :
  fails_only P m -> (forall a, m = Ok a -> fails_only P (k a)) ->
  fails_only P (bind m k).
Proof. destruct m; simpl; auto. Qed.

Lemma wrap32_succ_comm (depth base : Z) :
  wrap32 (wrap32 (depth + base) + 1) = wrap32 (wrap32 (depth + 1) + base).
Proof.
  unfold wrap32. rewrite !Zplus_mod_idemp_l. f_equal. lia.
Qed.

Lemma attach_checked base rec start end_ depth :
  (forall st a b d e,
      st !! a = Some e -> n_components e = wrap32 (d + base) ->
      fails_only missing_entry (rec st a b d)) ->
  forall (fuel : nat) (st : list entry) (i n_ch : nat),
    fails_only missing_entry
      (attach rec fuel st start end_ (wrap32 (depth + base)) depth i n_ch).
Proof.
  intros Hrec. induction fuel as [|fuel IH]; intros st i n_ch; simpl.
  - destruct (end_ <=? i)%nat; exact I.
  - destruct (end_ <=? i)%nat; [exact I|].
    apply fails_only_bind_Ok; [apply entry_at_fails|]. intros ei Hei.
    apply entry_at_Ok in Hei.
    destruct (n_components ei =? _) eqn:En; simpl; [|exact I].
    apply Z.eqb_eq in En.
    apply fails_only_bind_Ok; [apply store_child_fails|]. intros st1 H1.
    apply store_child_Ok in H1 as (es & Hes & ->).
    apply fails_only_bind_Ok; [apply update_entry_fails|]. intros st2 H2.
    apply update_entry_Ok in H2 as (ei1 & Hei1 & ->).
    apply fails_only_bind; [apply walk_subtree_fails|]. intros j.
    apply fails_only_bind; [|intros st3; apply IH].
    destruct (S i <? j)%nat; [|exact I].
    apply (Hrec _ i j _ (set_depth (wrap32 (depth + 1)) ei1)).
    + apply list_lookup_insert_eq. rewrite length_insert.
      apply lookup_lt_Some in Hei. exact Hei.
    + rewrite <- wrap32_succ_comm, <- En. unfold n_components. simpl.
      destruct (decide (start = i)) as [->|Hne].
      * rewrite list_lookup_insert_eq in Hei1 by (now apply lookup_lt_Some in Hei).
        injection Hei1 as <-. rewrite Hes in Hei. injection Hei as ->. reflexivity.
      * rewrite list_lookup_insert_ne in Hei1 by exact Hne.
        rewrite Hei in Hei1. now injection Hei1 as ->.
Qed.

Lemma build_tree_preorder_checked base fuel :
  forall (st : list entry) (start end_ : nat) (depth : Z) (e : entry),
    st !! start = Some e -> n_components e = wrap32 (depth + base) ->
    fails_only missing_entry (build_tree_preorder base fuel st start end_ depth).
Proof.
  induction fuel as [|fuel IH]; intros st start end_ depth e He Hn; simpl; [exact I|].
  unfold entry_at at 1. rewrite He. simpl.
  rewrite Hn, Z.eqb_refl. simpl.
  apply fails_only_bind; [apply count_children_fails|]. intros n.
  apply fails_only_bind; [apply update_entry_fails|]. intros st1.
  apply fails_only_bind; [apply attach_checked; exact IH|]. intros r.
  apply fails_only_bind; [apply entry_at_fails|]. intros e'.
  destruct (negb _); [exact I|].
  apply fails_only_bind; [|intros; exact I].
  apply qsort_fails. intros. apply compare_subtrees_fails.
Qed.

(** X10. The unexpected-entry exit of [build_tree_preorder] can only be
    taken by the outermost call: a call on a record whose component count
    is [depth + base_depth] exits, if at all, with the missing-entry
    diagnostic, since every recursive call is made on a record whose count
    the attach pass has just checked.  So an unexpected entry, when
    reported, is the record the builder was called on. *)
Theorem unexpected_entry_only_at_outermost_call :
  (forall (base : Z) (fuel : nat) (st : list entry) (start end_ : nat) (depth : Z)
          (e : entry),
      st !! start = Some e -> n_components e = wrap32 (depth + base) ->
      fails_only missing_entry (build_tree_preorder base fuel st start end_ depth)) /\
  (forall (base : Z) (fuel : nat) (st : list entry) (start end_ : nat) (depth index : Z),
      build_tree_preorder base fuel st start end_ depth = Fatal (UnexpectedEntry index) ->
      index = Z.of_nat start + 1 /\
      exists e : entry, st !! start = Some e /\ n_components e <> wrap32 (depth + base)).
Proof.
  split; [intros base fuel; apply build_tree_preorder_checked|].
  intros base fuel st start end_ depth index H.
  destruct (st !! start) as [e|] eqn:He.
  - destruct (decide (n_components e = wrap32 (depth + base))) as [Hn|Hn].
    + pose proof (build_tree_preorder_checked base fuel st start end_ depth e He Hn) as Hf.
      rewrite H in Hf. contradiction.
    + destruct fuel as [|fuel]; [discriminate|]. simpl in H.
      unfold entry_at in H. rewrite He in H. simpl in H.
      apply Z.eqb_neq in Hn. rewrite Hn in H. simpl in H.
      injection H as <-. split; [reflexivity|]. apply Z.eqb_neq in Hn. eauto.
  - destruct fuel as [|fuel]; [discriminate|]. simpl in H.
    unfold entry_at in H. rewrite He in H. discriminate.
Qed.

Lemma unexpected_entry_only_at_outermost_call_witness :
  2 = Z.of_nat 1 + 1 /\
  exists e : entry,
    [mkEntry 9 ["a"%string] None 0 0 []; mkEntry 1 ["a"; "b"; "c"]%string None 0 0 []]
      !! 1%nat = Some e /\
    n_components e <> wrap32 (0 + 1).
Proof.
  apply (proj2 unexpected_entry_only_at_outermost_call 1 1%nat
           [mkEntry 9 ["a"%string] None 0 0 [];
            mkEntry 1 ["a"; "b"; "c"]%string None 0 0 []] 1%nat 2%nat 0 2).
  reflexivity.
Defined.

Lemma preorder_run_fails base fuel (table sorted : list entry) :
  Forall parsed table -> qsort compare_entries table = Ok sorted ->
  fails_only (fun e => format_error e \/ missing_entry e)
    (let! e0 := entry_at sorted 0 in
     if n_components e0 =? 0 then Fatal ZeroLengthEntry
     else let! built := build_tree_preorder (n_components e0) fuel sorted 0
                          (length table) 0 in
          Ok (mkRun built (Some 0%nat) (n_components e0) base)).
Proof.
  intros Hp Hs.
  apply fails_only_bind_Ok; [apply entry_at_fails|]. intros e0 H0.
  rewrite (parsed_first_after_sort _ _ _ Hp Hs H0).
  apply fails_only_bind; [|intros; exact I].
  eapply fails_only_weaken; [intros e He; right; exact He|].
  apply entry_at_Ok in H0.
  apply (build_tree_preorder_checked _ _ _ _ _ _ e0 H0).
  pose proof (Forall_parsed_sorted _ _ Hp Hs) as Hps.
  rewrite Forall_forall in Hps.
  destruct (Hps e0 (list_elem_of_lookup_2 _ _ _ H0)) as (_ & _ & _ & Hn & _).
  rewrite wrap32_small; [reflexivity|].
  unfold DU_COMPONENTS_MAX, DU_PATH_MAX in Hn. lia.
Qed.

(** X11. Of the six diagnostics in the source, a run of the program can
    end with two only: the format error of a line and, in the pre-order
    variant, the missing entry.  Buffer overrun, size parse failure,
    unexpected entry and zero-length entry are never the program's exit, in
    either revision. *)
Theorem main_exits_with_format_error_or_missing_entry :
  (forall (FILE : Type) (len : Z) (path_get : Z -> FILE -> bool -> Z * string * FILE)
          (fuel : nat) (pflag zeroflag : bool) (inf : FILE),
      fails_only (fun e => format_error e \/ (pflag = true /\ missing_entry e))
        (Duvis.main FILE len path_get fuel pflag zeroflag inf)) /\
  (forall (junk : ascii) (fuel : nat) (pflag : bool) (stdin : string),
      fails_only (fun e => format_error e \/ (pflag = true /\ missing_entry e))
        (Rev0.main junk fuel pflag stdin)).
Proof.
  split.
  - intros FILE len path_get fuel pflag zeroflag inf. unfold Duvis.main.
    apply fails_only_bind_Ok.
    { eapply fails_only_weaken; [intros e He; left; exact He|].
      apply Duvis_read_entries_format_only. }
    intros r Hr.
    pose proof (Duvis_read_entries_parsed _ _ _ _ _ _ _ _ _ _ (Forall_nil_2 _) Hr) as Hp.
    destruct (length r.1 =? 0)%nat; [exact I|].
    destruct pflag.
    + apply fails_only_bind_Ok.
      { apply qsort_fails. intros. apply compare_entries_fails. }
      intros sorted Hs.
      eapply fails_only_weaken;
        [|exact (preorder_run_fails (snd r) (length r.1) r.1 sorted Hp Hs)].
      intros e [He|He]; [left|right]; auto.
    + apply fails_only_bind; [apply entry_at_fails|]. intros e.
      apply fails_only_bind; [|intros; exact I].
      apply build_tree_postorder_fails.
  - intros junk fuel pflag stdin. unfold Rev0.main.
    apply fails_only_bind_Ok.
    { eapply fails_only_weaken; [intros e He; left; exact He|].
      apply Rev0_read_entries_format_only. }
    intros table Hr.
    pose proof (Rev0_read_entries_parsed _ _ _ _ _ _ (Forall_nil_2 _) Hr) as Hp.
    destruct (length table =? 0)%nat; [exact I|].
    destruct pflag; simpl.
    + apply fails_only_bind_Ok.
      { apply qsort_fails. intros. apply compare_entries_fails. }
      intros sorted Hs.
      eapply fails_only_weaken;
        [|exact (preorder_run_fails [] fuel table sorted Hp Hs)].
      intros e [He|He]; [left|right]; auto.
    + apply fails_only_bind; [apply entry_at_fails|]. intros e.
      apply fails_only_bind; [apply entry_at_fails|]. intros e0.
      apply fails_only_bind; [|intros; exact I].
      apply Rev0_build_tree_postorder_fails.
Qed.

(** * The reading loop of the earlier revision *)

Lemma parse_line_Ok_number (path : string) (k k' : Z) (e : entry) :
  parse_line path k = Ok e -> parse_line path k' = Ok e.
Proof.
  unfold parse_line. destruct (skip_digits path) as [digits rest].
  destruct digits as [|d ds]; [discriminate|].
  destruct rest as [|c rest']; [discriminate|].
  destruct (negb _); [discriminate|].
  destruct (sscanf_u64 (String d ds)) as [n_scanned sz].
  destruct (negb _); [discriminate|].
  destruct (DU_COMPONENTS_MAX <=? _); [discriminate|]. auto.
Qed.

Lemma line_text_line (l rest : string) :
  newline_free l = true -> nul_free l = true ->
  line_text (String.append l (String NL rest)) = l.
Proof.
  induction l as [|c r IH]; simpl; [reflexivity|]. intros Hnl Hnul.
  apply andb_prop in Hnl as [Hc Hnl]. apply andb_prop in Hnul as [Hc' Hnul].
  apply negb_true_iff in Hc, Hc'. rewrite Hc, Hc'. simpl. now rewrite IH.
Qed.

Lemma fgets_chars_whole (n : nat) (s : string) :
  newline_free s = true -> (String.length s <= n)%nat ->
  Rev0.fgets_chars n s = (s, EmptyString).
Proof.
  revert n. induction s as [|c r IH]; intros n Hnl Hlen; simpl in *.
  - destruct n; reflexivity.
  - destruct n as [|n]; [lia|]. simpl.
    apply andb_prop in Hnl as [Hc Hr]. apply negb_true_iff in Hc. rewrite Hc.
    rewrite (IH n Hr) by lia. reflexivity.
Qed.

Lemma Rev0_read_entries_end junk fuel table k :
  Rev0.read_entries junk (S fuel) EmptyString table k = Ok table.
Proof. reflexivity. Qed.

Lemma Rev0_read_entries_lines junk (last : string) :
  fits_buffer last ->
  forall (lines : list string) (fuel : nat) (table0 : list entry) (k : Z)
         (table : list entry),
    Forall fits_buffer lines ->
    (length lines + length (last_line last) < fuel)%nat ->
    Rev0.read_entries junk fuel (unlines lines last) table0 k = Ok table <->
    exists es : list entry,
      table = table0 ++ es /\ Forall2 record_of (lines ++ last_line last) es.
Proof.
  intros (Lnl & Lnul & Llen).
  induction lines as [|l lines IH]; intros fuel table0 k table Hfit Hfuel.
  - simpl unlines. simpl app. destruct last as [|c r].
    + destruct fuel as [|fuel]; [simpl in Hfuel; lia|].
      rewrite Rev0_read_entries_end. split.
      * intros H. injection H as <-. exists []. split; [now rewrite app_nil_r | constructor].
      * intros (es & -> & H). inversion H; subst. now rewrite app_nil_r.
    + destruct fuel as [|[|fuel]]; [simpl in Hfuel; lia..|].
      rewrite (Rev0_read_entries_step junk (S fuel) _ table0 k (String c r) EmptyString).
      2:{ unfold Rev0.fgets. rewrite fgets_chars_whole; [reflexivity|exact Lnl|lia]. }
      rewrite cut_at_nul_free by exact Lnul.
      simpl last_line. split.
      * intros H. bind_inv H as e He. rewrite Rev0_read_entries_end in H.
        injection H as <-. exists [e]. split; [reflexivity|].
        constructor; [|constructor]. intros k'. now apply (parse_line_Ok_number _ (k + 1)).
      * intros (es & -> & H). inversion H as [|? e ? es' He Hes']; subst.
        inversion Hes'; subst. rewrite (He (k + 1)). reflexivity.
  - inversion Hfit as [|? ? Hl Hfit']; subst.
    destruct fuel as [|fuel]; [simpl in Hfuel; lia|].
    simpl unlines.
    rewrite (Rev0_read_entries_step junk fuel _ table0 k _ _ (fgets_line l _ Hl)).
    destruct Hl as (Hnl & Hnul & Hlen).
    rewrite cut_at_nul_free by (rewrite nul_free_app, Hnul; reflexivity).
    rewrite <- parse_line_line_text, line_text_line by assumption.
    split.
    + intros H. bind_inv H as e He.
      apply IH in H as (es & -> & Hes); [|exact Hfit'|simpl in Hfuel; lia].
      exists (e :: es). split; [now rewrite <- app_assoc|].
      simpl. constructor; [|exact Hes].
      intros k'. now apply (parse_line_Ok_number _ (k + 1)).
    + intros (es & -> & H). simpl in H.
      inversion H as [|? e ? es' He Hes']; subst.
      rewrite (He (k + 1)). simpl bind.
      apply IH; [exact Hfit'|simpl in Hfuel; lia|].
      exists es'. split; [now rewrite <- app_assoc | exact Hes'].
Qed.

Lemma last_line_length (last : string) :
  (length (last_line last) <= String.length last)%nat.
Proof. destruct last; simpl; lia. Qed.

Lemma unlines_length_last (lines : list string) (last : string) :
  (length lines + length (last_line last) <= String.length (unlines lines last))%nat.
Proof.
  induction lines as [|l r IH]; simpl.
  - apply last_line_length.
  - rewrite string_length_append. simpl. lia.
Qed.

(** X12. The reading loop of the earlier revision makes one record from
    each line of its input, in the order of the lines, and reads a last
    line that no newline ends like the others: on a text whose lines fit
    the line buffer, [read_entries], given the fuel [main] gives it, returns
    a table exactly when every line parses, and the table is then the list
    of the lines' records. *)
Theorem Rev0_read_entries_in_order (junk : ascii) (lines : list string)
    (last : string) (table : list entry) :
  Forall fits_buffer lines -> fits_buffer last ->
  Rev0.read_entries junk (S (String.length (unlines lines last)))
    (unlines lines last) [] 0 = Ok table <->
  Forall2 record_of (lines ++ last_line last) table.
Proof.
  intros Hfit Hlast.
  rewrite (Rev0_read_entries_lines junk last Hlast lines _ [] 0 table Hfit).
  - split; [intros (es & -> & H); exact H | intros H; eauto].
  - pose proof (unlines_length_last lines last). lia.
Qed.

Lemma Rev0_read_entries_in_order_witness :
  Rev0.read_entries "x"%char (S (String.length (unlines ["7 a"; "3 a/b"]%string "4 a/c")))
    (unlines ["7 a"; "3 a/b"]%string "4 a/c") [] 0
  = Ok [mkEntry 7 ["a"%string] None 0 0 [];
        mkEntry 3 ["a"; "b"]%string None 0 0 [];
        mkEntry 4 ["a"; "c"]%string None 0 0 []].
Proof.
  apply (Rev0_read_entries_in_order "x"%char ["7 a"; "3 a/b"]%string "4 a/c").
  - constructor; [fits_buffer_by_computation|].
    constructor; [fits_buffer_by_computation|constructor].
  - fits_buffer_by_computation.
  - constructor; [intros k; reflexivity|].
    constructor; [intros k; reflexivity|].
    constructor; [intros k; reflexivity|constructor].
Defined.

(** * The tree of the pre-order builder, in full *)

Lemma to_int_wrap32 (z : Z) : wrap32 (to_int z) = wrap32 z.
Proof.
  unfold to_int, wrap32. destruct (z mod 2 ^ 32 <? 2 ^ 31).
  - apply Z.mod_mod. lia.
  - rewrite Zminus_mod, Z.mod_same, Z.sub_0_r, !Z.mod_mod by lia. reflexivity.
Qed.

Lemma to_int_small (z : Z) : 0 <= z < 2 ^ 31 -> to_int z = z.
Proof.
  intros H. unfold to_int, wrap32. rewrite Z.mod_small by lia.
  destruct (z <? 2 ^ 31) eqn:E; [reflexivity | apply Z.ltb_ge in E; lia].
Qed.

Lemma last_lookup_default (l : list string) (s d : string) :
  l !! (length l - 1)%nat = Some s -> List.last l d = s.
Proof.
  induction l as [|x l IH]; [discriminate|]. simpl.
  destruct l as [|y l].
  - simpl. intros H. now injection H.
  - simpl in *. rewrite Nat.sub_0_r in *. exact IH.
Qed.

Lemma sibling_before_trans (e1 e2 e3 : entry) :
  sibling_before e1 e2 -> sibling_before e2 e3 -> sibling_before e1 e3.
Proof.
  unfold sibling_before. intros [H12|[E12 S12]] [H23|[E23 S23]].
  - left. lia.
  - left. lia.
  - left. lia.
  - right. split; [lia|]. eapply strcmp_lt_trans; eassumption.
Qed.

(** What [compare_subtrees] decides on two records of [N] components whose
    depth has been assigned. *)
Lemma compare_subtrees_decides (base N : Z) (st : list entry) (c1 c2 : nat) (q : Z) :
  1 <= N -> 0 <= N - base < 2 ^ 31 ->
  (exists e : entry, st !! c1 = Some e /\ n_components e = N /\ depth e = Some (N - base)) ->
  (exists e : entry, st !! c2 = Some e /\ n_components e = N /\ depth e = Some (N - base)) ->
  compare_subtrees base st c1 c2 = Ok q ->
  (q <= 0 ->
   forall e1 e2, st !! c1 = Some e1 -> st !! c2 = Some e2 -> sibling_before e1 e2) /\
  (0 < q ->
   forall e2 e1, st !! c2 = Some e2 -> st !! c1 = Some e1 -> sibling_before e2 e1).
Proof.
  intros HN Hd (e1 & H1 & N1 & D1) (e2 & H2 & N2 & D2) H.
  unfold compare_subtrees, depth_at, entry_at in H. rewrite H1, H2 in H. simpl in H.
  rewrite D1, D2 in H. simpl in H.
  unfold compare_sizes in H. rewrite !to_int_wrap32 in H.
  assert (G : forall P : entry -> entry -> Prop,
             P e1 e2 -> forall a b, st !! c1 = Some a -> st !! c2 = Some b -> P a b).
  { intros P HP a b Ha Hb. rewrite H1 in Ha. rewrite H2 in Hb.
    injection Ha as <-. injection Hb as <-. exact HP. }
  assert (G' : forall P : entry -> entry -> Prop,
             P e2 e1 -> forall b a, st !! c2 = Some b -> st !! c1 = Some a -> P b a).
  { intros P HP b a Hb Ha. rewrite H1 in Ha. rewrite H2 in Hb.
    injection Ha as <-. injection Hb as <-. exact HP. }
  destruct (wrap32 (size e2) <? wrap32 (size e1)) eqn:E21.
  { simpl in H. injection H as <-. apply Z.ltb_lt in E21.
    split; [intros _; apply G; left; exact E21 | lia]. }
  destruct (wrap32 (size e1) <? wrap32 (size e2)) eqn:E12.
  { simpl in H. injection H as <-. apply Z.ltb_lt in E12.
    split; [lia | intros _; apply G'; left; exact E12]. }
  simpl in H. rewrite Z.eqb_refl in H. simpl in H.
  apply Z.ltb_ge in E21, E12.
  rewrite to_int_small in H by exact Hd.
  bind_inv H as s1 Hs1. bind_inv H as s2 Hs2.
  apply component_at_Ok in Hs1 as [_ Hs1]. apply component_at_Ok in Hs2 as [_ Hs2].
  replace (Z.to_nat (N - base + base - 1)) with (length (components e1) - 1)%nat in Hs1
    by (unfold n_components in N1; lia).
  replace (Z.to_nat (N - base + base - 1)) with (length (components e2) - 1)%nat in Hs2
    by (unfold n_components in N2; lia).
  apply (last_lookup_default _ _ EmptyString) in Hs1, Hs2.
  destruct (strcmp s1 s2 =? 0) eqn:Es; simpl in H; [discriminate|].
  injection H as <-. apply Z.eqb_neq in Es.
  split; intros Hq.
  - apply G. right. split; [lia|]. rewrite Hs1, Hs2. lia.
  - apply G'. right. split; [lia|]. rewrite Hs1, Hs2, (strcmp_antisym s1 s2). lia.
Qed.

Lemma qsort_subtrees_sorted (base N : Z) (st : list entry) (l s : list nat) :
  1 <= N -> 0 <= N - base < 2 ^ 31 ->
  Forall (fun c => exists e : entry,
            st !! c = Some e /\ n_components e = N /\ depth e = Some (N - base)) l ->
  qsort (compare_subtrees base st) l = Ok s ->
  sorted_by (fun c1 c2 : nat =>
               forall e1 e2 : entry,
                 st !! c1 = Some e1 -> st !! c2 = Some e2 -> sibling_before e1 e2) s.
Proof.
  intros HN Hd.
  apply (qsort_sorted (compare_subtrees base st)).
  - intros a b q Pa Pb Hq. now apply (compare_subtrees_decides base N st a b q).
  - intros a b c _ (eb & Hb & _) _ Hab Hbc e1 e3 H1 H3.
    apply (sibling_before_trans e1 eb e3); [now apply Hab | now apply Hbc].
Qed.

Lemma components_same (st st' : list entry) (k : nat) (e e' : entry) :
  components <$> st' = components <$> st ->
  st !! k = Some e -> st' !! k = Some e' -> components e' = components e.
Proof.
  intros Hc He He'.
  pose proof (comps_lookup st' _ k e' eq_refl He') as H'.
  rewrite Hc, (comps_lookup st _ k e eq_refl He) in H'. now injection H'.
Qed.

Lemma size_same (st st' : list entry) (k : nat) (e e' : entry) :
  size <$> st' = size <$> st ->
  st !! k = Some e -> st' !! k = Some e' -> size e' = size e.
Proof.
  intros Hc He He'.
  assert (H' : (size <$> st') !! k = Some (size e')) by (now rewrite list_lookup_fmap, He').
  rewrite Hc, list_lookup_fmap, He in H'. now injection H'.
Qed.

Lemma fmap_components_length (st st' : list entry) :
  components <$> st' = components <$> st -> length st' = length st.
Proof. intros H. rewrite <- (length_fmap components st'), H. apply length_fmap. Qed.

Lemma node_ok_ext (base : Z) (st st' : list entry) (hi hi' p : nat) (ep : entry) :
  (hi <= hi')%nat -> (forall c, (p < c < hi)%nat -> st' !! c = st !! c) ->
  node_ok base st hi p ep -> node_ok base st' hi' p ep.
Proof.
  intros Hhi Hsame [Hd Hc]. split; [exact Hd|].
  intros c Hin. destruct (Hc c Hin) as (Hr & ec & Hec & Hn).
  split; [lia|]. exists ec. split; [|exact Hn]. now rewrite Hsame.
Qed.

Lemma children_sorted_ext (base : Z) (st st' : list entry) (hi p : nat) (ep : entry) :
  st !! p = Some ep -> st' !! p = Some ep ->
  (forall c, (p < c < hi)%nat -> st' !! c = st !! c) ->
  node_ok base st hi p ep -> children_sorted st p -> children_sorted st' p.
Proof.
  intros Hp Hp' Hsame [_ Hc] Hs. unfold children_sorted, children_at in *.
  rewrite Hp in Hs. rewrite Hp'.
  intros a b ca cb Hab Ha Hb e1 e2 H1 H2.
  pose proof (Hc ca (list_elem_of_lookup_2 _ _ _ Ha)) as [Hra _].
  pose proof (Hc cb (list_elem_of_lookup_2 _ _ _ Hb)) as [Hrb _].
  rewrite Hsame in H1, H2 by assumption.
  now apply (Hs a b ca cb Hab Ha Hb).
Qed.

Lemma attach_tree_step (base : Z) rec (st1 : list entry) (start end_ : nat)
    (depth offset : Z) (st st_a st_b st_c : list entry) (i j n_ch : nat) (ei : entry) :
  0 <= base -> 0 <= depth -> offset = depth + base -> offset < DU_COMPONENTS_MAX ->
  tree_spec base rec ->
  (end_ <= length st1)%nat ->
  (forall k e, (S start <= k < end_)%nat -> st1 !! k = Some e ->
               children e = [] /\ n_children e = 0) ->
  Forall c_strings (components <$> st1) ->
  attach_tree_inv base st1 st start end_ offset i n_ch ->
  (i < end_)%nat -> st !! i = Some ei -> n_components ei = offset + 1 ->
  store_child st start n_ch i = Ok st_a ->
  update_entry st_a i (set_depth (wrap32 (depth + 1))) = Ok st_b ->
  (S i <= j <= end_)%nat ->
  (if (S i <? j)%nat then rec st_b i j (wrap32 (depth + 1)) else Ok st_b) = Ok st_c ->
  attach_tree_inv base st1 st_c start end_ offset j (S n_ch).
Proof.
  intros Hbase Hdepth Hoff Hmax Hrec Hend Hfresh Hwf Hinv E Hei En Ha Hstb Hjr Hc.
  unfold DU_COMPONENTS_MAX, DU_PATH_MAX in Hmax.
  apply store_child_Ok in Ha as (es' & Hes' & ->).
  apply update_entry_Ok in Hstb as (ei' & Hei' & Hstb).
  destruct Hinv as (Hrange & Hframe & Hcomp & Hsize
                    & (es & es1 & Hes & Hes1 & Hdep & Hnc & Hcap & Hlen & Hnd & Hkids)
                    & Hnodes & Hsorted).
  rewrite Hes in Hes'. injection Hes' as <-.
  assert (Hne : start <> i) by lia.
  rewrite list_lookup_insert_ne in Hei' by exact Hne.
  rewrite Hei in Hei'. injection Hei' as <-.
  rewrite take_ge, drop_ge in Hstb by lia.
  assert (Hd : wrap32 (depth + 1) = depth + 1) by (apply wrap32_small; lia).
  rewrite Hd in Hstb, Hc.
  set (es2 := set_children (children es ++ [i]) es) in *.
  assert (Hlt_i : (i < length st)%nat) by (apply lookup_lt_Some in Hei; exact Hei).
  assert (Hlt_s : (start < length st)%nat) by (apply lookup_lt_Some in Hes; exact Hes).
  assert (Hb_start : st_b !! start = Some es2).
  { subst st_b. rewrite list_lookup_insert_ne by lia.
    apply list_lookup_insert_eq. exact Hlt_s. }
  assert (Hb_i : st_b !! i = Some (set_depth (depth + 1) ei)).
  { subst st_b. apply list_lookup_insert_eq. rewrite length_insert. exact Hlt_i. }
  assert (Hb_other : forall k, k <> start -> k <> i -> st_b !! k = st !! k).
  { intros k Hk1 Hk2. subst st_b.
    rewrite list_lookup_insert_ne by lia. now rewrite list_lookup_insert_ne by lia. }
  assert (Hb_comp : components <$> st_b = components <$> st).
  { subst st_b. rewrite (fmap_components_insert _ i ei); [| |reflexivity].
    - now rewrite (fmap_components_insert _ start es).
    - rewrite list_lookup_insert_ne by lia. exact Hei. }
  assert (Hb_size : size <$> st_b = size <$> st).
  { subst st_b. rewrite (fmap_size_insert _ i ei); [| |reflexivity].
    - now rewrite (fmap_size_insert _ start es).
    - rewrite list_lookup_insert_ne by lia. exact Hei. }
  assert (Hb_len : length st_b = length st).
  { subst st_b. now rewrite !length_insert. }
  assert (Hlen1 : length st = length st1) by (now apply fmap_components_length).
  assert (Hei_fresh : children ei = [] /\ n_children ei = 0).
  { apply (Hfresh i ei); [lia|]. rewrite <- Hframe by lia. exact Hei. }
  destruct Hei_fresh as [Hei_nil Hei_zero].
  assert (Hblock : tree_built base st_b st_c i j).
  { destruct (S i <? j)%nat eqn:Esub.
    - apply Nat.ltb_lt in Esub. apply (Hrec st_b i j (depth + 1) st_c); [|lia|lia|exact Hc].
      split; [lia|]. split; [|now rewrite Hb_comp, Hcomp].
      intros k e Hk Hke. destruct (decide (k = i)) as [->|Hki].
      + rewrite Hb_i in Hke. injection Hke as <-. split; assumption.
      + rewrite Hb_other in Hke by lia. rewrite Hframe in Hke by lia.
        apply (Hfresh k e); [lia | exact Hke].
    - apply Nat.ltb_ge in Esub. injection Hc as <-.
      assert (j = S i) as -> by lia.
      split; [reflexivity|]. split; [reflexivity|]. split; [reflexivity|]. split.
      + intros p ep Hp Hpe. assert (p = i) as -> by lia.
        rewrite Hb_i in Hpe. injection Hpe as <-. split.
        * simpl. f_equal. change (n_components (set_depth (depth + 1) ei))
            with (n_components ei). lia.
        * simpl. rewrite Hei_nil. intros c Hin. inversion Hin.
      + intros p Hp. assert (p = i) as -> by lia.
        unfold children_sorted, children_at. rewrite Hb_i. simpl. rewrite Hei_nil.
        apply sorted_by_nil. }
  destruct Hblock as (B_frame & B_comp & B_size & B_nodes & B_sorted).
  assert (Hc_low : forall k, k <> start -> (k < i)%nat -> st_c !! k = st !! k).
  { intros k Hk1 Hk2. rewrite B_frame by lia. apply Hb_other; lia. }
  assert (Hc_comp : components <$> st_c = components <$> st)
    by (now rewrite B_comp).
  split; [lia|]. split.
  { intros k Hk. rewrite B_frame by lia. rewrite Hb_other by lia. apply Hframe. lia. }
  split; [now rewrite Hc_comp|]. split; [now rewrite B_size, Hb_size|]. split.
  { exists es2, es1. split; [rewrite B_frame by lia; exact Hb_start|].
    split; [exact Hes1|]. split; [exact Hdep|]. split; [exact Hnc|].
    split; [exact Hcap|].
    split; [simpl; rewrite length_app; simpl; lia|].
    split.
    { simpl. apply NoDup_app. split; [exact Hnd|]. split; [|apply NoDup_singleton].
      intros c Hin Hin'. apply list_elem_of_singleton in Hin'. subst c.
      destruct (Hkids i Hin) as (Hr & _). lia. }
    intros c Hin. simpl in Hin. apply elem_of_app in Hin as [Hin|Hin].
    - destruct (Hkids c Hin) as (Hr & ec & Hec & Hn). split; [lia|].
      exists ec. split; [|exact Hn]. rewrite Hc_low by lia. exact Hec.
    - apply list_elem_of_singleton in Hin. subst c. split; [lia|].
      destruct (lookup_lt_is_Some_2 st_c i) as [ec Hec].
      { rewrite (fmap_components_length _ _ Hc_comp). exact Hlt_i. }
      exists ec. split; [exact Hec|].
      unfold n_components. rewrite (components_same st st_c i ei ec Hc_comp Hei Hec).
      exact En. }
  split.
  { intros p ep Hp Hpe. destruct (decide (p < i)%nat) as [Hpi|Hpi].
    - rewrite Hc_low in Hpe by lia.
      apply (node_ok_ext base st st_c i j p ep); [lia| |now apply Hnodes; [lia|]].
      intros c Hcr. apply Hc_low; lia.
    - apply B_nodes; [lia | exact Hpe]. }
  intros p Hp. destruct (decide (p < i)%nat) as [Hpi|Hpi].
  + destruct (lookup_lt_is_Some_2 st p) as [ep Hpe]; [lia|].
    apply (children_sorted_ext base st st_c i p ep); [exact Hpe| | | |].
    * rewrite Hc_low by lia. exact Hpe.
    * intros c Hcr. apply Hc_low; lia.
    * apply Hnodes; [lia | exact Hpe].
    * apply Hsorted. lia.
  + apply B_sorted. lia.
Qed.

Lemma attach_tree (base : Z) rec (st1 : list entry) (start end_ : nat)
    (depth offset : Z) :
  0 <= base -> 0 <= depth -> offset = depth + base -> offset < DU_COMPONENTS_MAX ->
  tree_spec base rec ->
  (end_ <= length st1)%nat ->
  (forall k e, (S start <= k < end_)%nat -> st1 !! k = Some e ->
               children e = [] /\ n_children e = 0) ->
  Forall c_strings (components <$> st1) ->
  forall (fuel : nat) (st : list entry) (i n_ch : nat) (r : list entry * nat),
    attach_tree_inv base st1 st start end_ offset i n_ch ->
    attach rec fuel st start end_ offset depth i n_ch = Ok r ->
    attach_tree_inv base st1 (fst r) start end_ offset end_ (snd r).
Proof.
  intros Hbase Hdepth Hoff Hmax Hrec Hend Hfresh Hwf fuel.
  assert (Hdone : forall st i n_ch,
             (end_ <= i)%nat -> attach_tree_inv base st1 st start end_ offset i n_ch ->
             attach_tree_inv base st1 st start end_ offset end_ n_ch).
  { intros st i n_ch Hle Hinv. pose proof Hinv as (Hr & _).
    assert (i = end_) as -> by lia. exact Hinv. }
  induction fuel as [|fuel IH]; intros st i n_ch r Hinv H; simpl in H.
  - destruct (end_ <=? i)%nat eqn:E; [|discriminate].
    injection H as <-. apply Nat.leb_le in E. simpl. now apply (Hdone st i).
  - destruct (end_ <=? i)%nat eqn:E.
    { injection H as <-. apply Nat.leb_le in E. simpl. now apply (Hdone st i). }
    apply Nat.leb_gt in E.
    bind_inv H as ei Hei. apply entry_at_Ok in Hei.
    destruct (n_components ei =? wrap32 (offset + 1)) eqn:En; simpl in H; [|discriminate].
    apply Z.eqb_eq in En.
    rewrite wrap32_small in En by (unfold DU_COMPONENTS_MAX, DU_PATH_MAX in Hmax; lia).
    bind_inv H as st_a Ha. bind_inv H as st_b Hb.
    bind_inv H as j Hj. apply walk_subtree_spec in Hj as [Hjr _].
    bind_inv H as st_c Hc.
    apply (IH st_c j (S n_ch) r); [|exact H].
    apply (attach_tree_step base rec st1 start end_ depth offset st st_a st_b st_c
             i j n_ch ei); try assumption. lia.
Qed.

Lemma build_tree_preorder_tree (base : Z) (fuel : nat) :
  0 <= base -> tree_spec base (build_tree_preorder base fuel).
Proof.
  intros Hbase.
  induction fuel as [|fuel IH]; intros st start end_ d0 st' Hpre Hdepth Hsum H;
    simpl in H; [discriminate|].
  destruct Hpre as (Hrange & Hfresh & Hwf).
  bind_inv H as e He. apply entry_at_Ok in He.
  destruct (n_components e =? wrap32 (d0 + base)) eqn:En; simpl in H; [|discriminate].
  apply Z.eqb_eq in En. rewrite wrap32_small in En by lia.
  assert (Hmax : d0 + base < DU_COMPONENTS_MAX).
  { rewrite <- En. rewrite Forall_forall in Hwf.
    apply (Hwf (components e)). apply list_elem_of_fmap. exists e.
    split; [reflexivity|]. eapply list_elem_of_lookup_2. exact He. }
  rewrite (wrap32_small (d0 + base)) in H by lia.
  bind_inv H as n Hn.
  bind_inv H as st1 H1. apply update_entry_Ok in H1 as (e0 & He0 & Hst1).
  assert (Hlt : (start < length st)%nat) by (apply lookup_lt_Some in He; exact He).
  rewrite list_lookup_insert_eq in He0 by exact Hlt. injection He0 as <-.
  set (e1 := alloc_children n (set_n_children n (set_depth d0 e))) in *.
  bind_inv H as r Hr.
  bind_inv H as e' He'. apply entry_at_Ok in He'.
  destruct (Z.of_nat r.2 =? n_children e') eqn:Eassert; simpl in H; [|discriminate].
  bind_inv H as sorted Hs. injection H as <-.
  assert (H1_start : st1 !! start = Some e1).
  { subst st1. apply list_lookup_insert_eq. now rewrite length_insert. }
  assert (H1_other : forall k, k <> start -> st1 !! k = st !! k).
  { intros k Hk. subst st1. rewrite !list_lookup_insert_ne by lia. reflexivity. }
  assert (H1_comp : components <$> st1 = components <$> st).
  { subst st1. rewrite (fmap_components_insert _ start (set_depth d0 e)); [| |reflexivity].
    - now apply (fmap_components_insert _ start e).
    - now apply list_lookup_insert_eq. }
  assert (H1_size : size <$> st1 = size <$> st).
  { subst st1. rewrite (fmap_size_insert _ start (set_depth d0 e)); [| |reflexivity].
    - now apply (fmap_size_insert _ start e).
    - now apply list_lookup_insert_eq. }
  assert (Hinit : attach_tree_inv base st1 st1 start end_ (d0 + base) (S start) 0).
  { split; [lia|]. split; [reflexivity|]. split; [reflexivity|]. split; [reflexivity|].
    split.
    { exists e1, e1. split; [exact H1_start|]. split; [exact H1_start|].
      split; [reflexivity|]. split; [reflexivity|]. split; [reflexivity|].
      split; [reflexivity|]. split; [apply NoDup_nil_2|]. intros c Hin. inversion Hin. }
    split; intros p; lia. }
  pose proof (attach_tree base (build_tree_preorder base fuel) st1 start end_ d0
                (d0 + base) Hbase Hdepth eq_refl Hmax IH) as Hatt.
  specialize (Hatt ltac:(rewrite (fmap_components_length _ _ H1_comp); lia)).
  specialize (Hatt ltac:(intros k e2 Hk Hke; rewrite H1_other in Hke by lia;
                         apply (Hfresh k e2); [lia | exact Hke])).
  specialize (Hatt ltac:(now rewrite H1_comp) _ _ _ _ _ Hinit Hr).
  destruct r as [st_f n_f]. simpl in *.
  destruct Hatt as (_ & F_frame & F_comp & F_size
                    & (es & es1 & Hes & Hes1 & Hdep & _ & _ & Hlen & _ & Hkids)
                    & F_nodes & F_sorted).
  rewrite He' in Hes. injection Hes as <-.
  rewrite H1_start in Hes1. injection Hes1 as <-.
  assert (Hf_lt : (start < length st_f)%nat) by (apply lookup_lt_Some in He'; exact He').
  assert (Hperm : sorted ≡ₚ children e') by (symmetry; now apply (qsort_Permutation _ _ _ Hs)).
  assert (Hn' : n_components e' = d0 + base).
  { unfold n_components. rewrite (components_same st1 st_f start e1 e' F_comp H1_start He').
    exact En. }
  assert (Hf_other : forall k, k <> start ->
            <[start := set_children sorted e']> st_f !! k = st_f !! k).
  { intros k Hk. apply list_lookup_insert_ne. lia. }
  split.
  { intros k Hk. rewrite Hf_other by lia. rewrite F_frame by lia. apply H1_other. lia. }
  split.
  { rewrite (fmap_components_insert _ start e'); [|exact He'|reflexivity].
    now rewrite F_comp. }
  split.
  { rewrite (fmap_size_insert _ start e'); [|exact He'|reflexivity].
    now rewrite F_size. }
  split.
  { intros p ep Hp Hpe. destruct (decide (p = start)) as [->|Hps].
    - rewrite list_lookup_insert_eq in Hpe by exact Hf_lt. injection Hpe as <-.
      split.
      + simpl. rewrite Hdep. simpl. f_equal.
        change (n_components (set_children sorted e')) with (n_components e'). lia.
      + simpl. intros c Hin. rewrite Hperm in Hin.
        destruct (Hkids c Hin) as (Hr' & ec & Hec & Hnc). split; [lia|].
        exists ec. split; [rewrite Hf_other by lia; exact Hec|].
        change (n_components (set_children sorted e')) with (n_components e'). lia.
    - rewrite Hf_other in Hpe by exact Hps.
      apply (node_ok_ext base st_f _ end_ end_ p ep); [lia| |apply F_nodes; [lia|exact Hpe]].
      intros c Hc. apply Hf_other. lia. }
  intros p Hp. destruct (decide (p = start)) as [->|Hps].
  - unfold children_sorted, children_at.
    rewrite list_lookup_insert_eq by exact Hf_lt. simpl.
    assert (Hsmall : d0 + base < 4096) by exact Hmax.
    pose proof (qsort_subtrees_sorted base (d0 + base + 1) st_f (children e') sorted
                  ltac:(lia) ltac:(lia)) as Hq.
    assert (Hall : Forall (fun c => exists e2 : entry,
                     st_f !! c = Some e2 /\ n_components e2 = d0 + base + 1 /\
                     depth e2 = Some (d0 + base + 1 - base)) (children e')).
    { apply Forall_forall. intros c Hin.
      destruct (Hkids c Hin) as (Hr' & ec & Hec & Hnc).
      exists ec. split; [exact Hec|]. split; [exact Hnc|].
      destruct (F_nodes c ec ltac:(lia) Hec) as [Hdc _]. rewrite Hdc, Hnc. reflexivity. }
    specialize (Hq Hall Hs).
    intros a b ca cb Hab Ha Hb e2 e3 H2 H3.
    assert (Hca : ca ∈ children e').
    { rewrite <- Hperm. eapply list_elem_of_lookup_2. exact Ha. }
    assert (Hcb : cb ∈ children e').
    { rewrite <- Hperm. eapply list_elem_of_lookup_2. exact Hb. }
    destruct (Hkids ca Hca) as (Hra & _). destruct (Hkids cb Hcb) as (Hrb & _).
    rewrite Hf_other in H2, H3 by lia.
    now apply (Hq a b ca cb Hab Ha Hb).
  - destruct (lookup_lt_is_Some_2 st_f p) as [ep Hpe].
    { rewrite (fmap_components_length _ _ F_comp), (fmap_components_length _ _ H1_comp). lia. }
    apply (children_sorted_ext base st_f _ end_ p ep); [exact Hpe| | | |].
    + rewrite Hf_other by exact Hps. exact Hpe.
    + intros c Hc. apply Hf_other. lia.
    + apply F_nodes; [lia | exact Hpe].
    + apply F_sorted. lia.
Qed.

Lemma build_tree_preorder_whole (base : Z) (fuel : nat) (st st' : list entry) :
  st <> [] -> Forall parsed st -> 0 <= base < 2 ^ 32 ->
  build_tree_preorder base fuel st 0 (length st) 0 = Ok st' ->
  depths_by_components base st' /\ children_one_deeper st' /\ all_children_sorted st'.
Proof.
  intros Hne Hp Hbase H.
  destruct (build_tree_preorder_tree base fuel ltac:(lia) st 0%nat (length st) 0 st'
              (parsed_build_pre st Hne Hp) ltac:(lia) ltac:(lia) H)
    as (_ & T_comp & _ & T_nodes & T_sorted).
  pose proof (fmap_components_length _ _ T_comp) as Hlen.
  split; [|split].
  - intros k e Hk. apply (T_nodes k e); [|exact Hk].
    apply lookup_lt_Some in Hk. lia.
  - intros p c ep Hpe Hc.
    destruct (T_nodes p ep) as [_ Hkids]; [apply lookup_lt_Some in Hpe; lia|exact Hpe|].
    destruct (Hkids c Hc) as (Hr & Hec). split; [lia | exact Hec].
  - intros p. destruct (decide (p < length st)%nat) as [Hlt|Hge].
    + apply T_sorted. lia.
    + unfold children_sorted, children_at.
      rewrite (lookup_ge_None_2 st' p) by lia. apply sorted_by_nil.
Qed.

Lemma preorder_run_tree (fuel : nat) (table sorted st' : list entry) (e0 : entry) :
  Forall parsed table -> qsort compare_entries table = Ok sorted ->
  sorted !! 0%nat = Some e0 ->
  build_tree_preorder (n_components e0) fuel sorted 0 (length sorted) 0 = Ok st' ->
  depths_by_components (n_components e0) st' /\ children_one_deeper st' /\
  all_children_sorted st' /\
  exists e0' : entry, st' !! 0%nat = Some e0' /\ depth e0' = Some 0 /\
                      components e0' = components e0.
Proof.
  intros Hp Hs H0 Hb.
  pose proof (Forall_parsed_sorted _ _ Hp Hs) as Hps.
  assert (Hne : sorted <> []) by (intros ->; discriminate).
  assert (Hn0 : 0 < n_components e0 < DU_COMPONENTS_MAX).
  { rewrite Forall_forall in Hps.
    apply (Hps e0 (list_elem_of_lookup_2 _ _ _ H0)). }
  unfold DU_COMPONENTS_MAX, DU_PATH_MAX in Hn0.
  assert (Hb32 : 0 <= n_components e0 < 2 ^ 32) by lia.
  destruct (build_tree_preorder_whole _ _ _ _ Hne Hps Hb32 Hb) as (Hd & Hc & Hso).
  split; [exact Hd|]. split; [exact Hc|]. split; [exact Hso|].
  destruct (build_tree_preorder_structure _ _ _ _ Hne Hps Hb) as ((Hcomp & _) & _).
  destruct (lookup_lt_is_Some_2 st' 0%nat) as [e0' He0'].
  { rewrite (fmap_components_length _ _ Hcomp). apply lookup_lt_Some in H0. exact H0. }
  exists e0'. split; [exact He0'|].
  pose proof (components_same sorted st' 0%nat e0 e0' Hcomp H0 He0') as Hsame.
  split; [|exact Hsame].
  rewrite (Hd 0%nat e0' He0'). f_equal. unfold n_components. rewrite Hsame. lia.
Qed.

(** X13. In the tree that the pre-order builder leaves, the depth of
    every record is the number of its components beyond [base_depth], and
    every child listed by a record comes later in the table and has exactly
    one component more than the record that lists it, so that it is one
    level deeper.  The root of a completed pre-order run has depth 0. *)
Theorem preorder_depths_follow_components :
  (forall (base : Z) (fuel : nat) (st st' : list entry),
      st <> [] -> Forall parsed st -> 0 <= base < 2 ^ 32 ->
      build_tree_preorder base fuel st 0 (length st) 0 = Ok st' ->
      depths_by_components base st' /\ children_one_deeper st') /\
  (forall (FILE : Type) (len : Z) (path_get : Z -> FILE -> bool -> Z * string * FILE)
          (fuel : nat) (zeroflag : bool) (inf : FILE) (r : run),
      Duvis.main FILE len path_get fuel true zeroflag inf = Ok r ->
      depths_by_components (run_base_depth r) (entries r) /\
      children_one_deeper (entries r) /\
      forall e0 : entry, entries r !! 0%nat = Some e0 -> depth e0 = Some 0) /\
  (forall (junk : ascii) (fuel : nat) (stdin : string) (r : run),
      Rev0.main junk fuel true stdin = Ok r ->
      depths_by_components (run_base_depth r) (entries r) /\
      children_one_deeper (entries r) /\
      forall e0 : entry, entries r !! 0%nat = Some e0 -> depth e0 = Some 0).
Proof.
  split; [|split].
  - intros base fuel st st' Hne Hp Hbase H.
    destruct (build_tree_preorder_whole _ _ _ _ Hne Hp Hbase H) as (Hd & Hc & _).
    split; assumption.
  - intros FILE len path_get fuel zeroflag inf r H.
    apply Duvis_main_preorder_Ok in H
      as [[-> _]|(t & s & e0 & Hp & Hs & H0 & -> & _ & Hb)].
    + split; [intros k e Hk; discriminate|]. split; [intros p c ep Hp; discriminate|].
      intros e0 H0. discriminate.
    + destruct (preorder_run_tree _ _ _ _ _ Hp Hs H0 Hb)
        as (Hd & Hc & _ & e0' & He0' & Hz & _).
      split; [exact Hd|]. split; [exact Hc|].
      intros e1 H1. rewrite He0' in H1. now injection H1 as <-.
  - intros junk fuel stdin r H.
    apply Rev0_main_preorder_Ok in H
      as [[-> _]|(t & s & e0 & Hp & Hs & H0 & -> & _ & Hb)].
    + split; [intros k e Hk; discriminate|]. split; [intros p c ep Hp; discriminate|].
      intros e0 H0. discriminate.
    + destruct (preorder_run_tree _ _ _ _ _ Hp Hs H0 Hb)
        as (Hd & Hc & _ & e0' & He0' & Hz & _).
      split; [exact Hd|]. split; [exact Hc|].
      intros e1 H1. rewrite He0' in H1. now injection H1 as <-.
Qed.

Lemma preorder_depths_follow_components_witness :
  depths_by_components 1
    [mkEntry 100 ["a"%string] (Some 0) 2 2 [2; 1]%nat;
     mkEntry 40 ["a"; "x"]%string (Some 1) 0 0 [];
     mkEntry 60 ["a"; "y"]%string (Some 1) 0 0 []] /\
  children_one_deeper
    [mkEntry 100 ["a"%string] (Some 0) 2 2 [2; 1]%nat;
     mkEntry 40 ["a"; "x"]%string (Some 1) 0 0 [];
     mkEntry 60 ["a"; "y"]%string (Some 1) 0 0 []].
Proof.
  apply (proj1 preorder_depths_follow_components 1 3%nat
           [mkEntry 100 ["a"%string] None 0 0 [];
            mkEntry 40 ["a"; "x"]%string None 0 0 [];
            mkEntry 60 ["a"; "y"]%string None 0 0 []]).
  - discriminate.
  - repeat constructor.
  - lia.
  - reflexivity.
Defined.

Lemma sibling_before_size (e1 e2 : entry) :
  0 <= size e1 < 2 ^ 32 -> 0 <= size e2 < 2 ^ 32 ->
  sibling_before e1 e2 -> size e2 <= size e1.
Proof.
  intros H1 H2. unfold sibling_before. rewrite !wrap32_small by assumption. lia.
Qed.

(** X14. In the tree that the pre-order builder leaves, every children
    list is in the order of [compare_subtrees]: a child is listed before
    another when the low 32 bits of its size are the larger number, or when
    they are the same number and its last component is the smaller string.
    When all sizes are below 2^32, every children list is in descending
    order of size. *)
Theorem children_listed_largest_first :
  (forall (base : Z) (fuel : nat) (st st' : list entry),
      st <> [] -> Forall parsed st -> 0 <= base < 2 ^ 32 ->
      build_tree_preorder base fuel st 0 (length st) 0 = Ok st' ->
      all_children_sorted st') /\
  (forall (FILE : Type) (len : Z) (path_get : Z -> FILE -> bool -> Z * string * FILE)
          (fuel : nat) (zeroflag : bool) (inf : FILE) (r : run),
      Duvis.main FILE len path_get fuel true zeroflag inf = Ok r ->
      all_children_sorted (entries r)) /\
  (forall (junk : ascii) (fuel : nat) (stdin : string) (r : run),
      Rev0.main junk fuel true stdin = Ok r -> all_children_sorted (entries r)) /\
  (forall st : list entry,
      all_children_sorted st ->
      Forall (fun e => 0 <= size e < 2 ^ 32) st ->
      forall (p a b ca cb : nat) (ep ea eb : entry),
        st !! p = Some ep -> (a < b)%nat ->
        children ep !! a = Some ca -> children ep !! b = Some cb ->
        st !! ca = Some ea -> st !! cb = Some eb ->
        size eb <= size ea).
Proof.
  split; [|split; [|split]].
  - intros base fuel st st' Hne Hp Hbase H.
    now destruct (build_tree_preorder_whole _ _ _ _ Hne Hp Hbase H) as (_ & _ & Hs).
  - intros FILE len path_get fuel zeroflag inf r H.
    apply Duvis_main_preorder_Ok in H
      as [[-> _]|(t & s & e0 & Hp & Hs & H0 & _ & _ & Hb)].
    + intros p. apply sorted_by_nil.
    + now destruct (preorder_run_tree _ _ _ _ _ Hp Hs H0 Hb) as (_ & _ & Hso & _).
  - intros junk fuel stdin r H.
    apply Rev0_main_preorder_Ok in H
      as [[-> _]|(t & s & e0 & Hp & Hs & H0 & _ & _ & Hb)].
    + intros p. apply sorted_by_nil.
    + now destruct (preorder_run_tree _ _ _ _ _ Hp Hs H0 Hb) as (_ & _ & Hso & _).
  - intros st Hso Hsz p a b ca cb ep ea eb Hp Hab Ha Hb Hea Heb.
    rewrite Forall_forall in Hsz.
    apply sibling_before_size.
    + apply Hsz. eapply list_elem_of_lookup_2. exact Hea.
    + apply Hsz. eapply list_elem_of_lookup_2. exact Heb.
    + specialize (Hso p). unfold children_sorted, children_at in Hso. rewrite Hp in Hso.
      now apply (Hso a b ca cb Hab Ha Hb).
Qed.

Lemma children_listed_largest_first_witness :
  all_children_sorted
    [mkEntry 100 ["a"%string] (Some 0) 2 2 [2; 1]%nat;
     mkEntry 40 ["a"; "x"]%string (Some 1) 0 0 [];
     mkEntry 60 ["a"; "y"]%string (Some 1) 0 0 []].
Proof.
  apply (proj1 children_listed_largest_first 1 3%nat
           [mkEntry 100 ["a"%string] None 0 0 [];
            mkEntry 40 ["a"; "x"]%string None 0 0 [];
            mkEntry 60 ["a"; "y"]%string None 0 0 []]).
  - discriminate.
  - repeat constructor.
  - lia.
  - reflexivity.
Defined.

(** * The renderers *)

Lemma string_append_assoc (a b c : string) :
  String.append (String.append a b) c = String.append a (String.append b c).
Proof. induction a as [|x a IH]; simpl; [reflexivity|]. now rewrite IH. Qed.

Lemma show_prefix_join (p : nat) (e : entry) (rest pre : list string) :
  components e = pre ++ rest ->
  show_prefix p e (Z.of_nat (length pre)) (length rest) = Ok (join_path rest).
Proof.
  revert pre. induction rest as [|x rest IH]; intros pre He; simpl; [reflexivity|].
  unfold component_at.
  destruct (Z.of_nat (length pre) <? 0) eqn:E; [apply Z.ltb_lt in E; lia|].
  rewrite Nat2Z.id, He, lookup_app_r, Nat.sub_diag by lia. simpl.
  replace (Z.of_nat (length pre) + 1) with (Z.of_nat (length (pre ++ [x])))
    by (rewrite length_app; simpl; lia).
  rewrite (IH (pre ++ [x])) by (now rewrite <- app_assoc). reflexivity.
Qed.

Lemma component_at_last (p : nat) (e : entry) :
  0 < n_components e < 2 ^ 32 ->
  component_at p e (wrap32 (n_components e - 1)) = Ok (name_of e).
Proof.
  intros Hn. rewrite wrap32_small by lia. unfold component_at, name_of.
  destruct (n_components e - 1 <? 0) eqn:E; [apply Z.ltb_lt in E; lia|].
  unfold n_components in *.
  replace (Z.to_nat (Z.of_nat (length (components e)) - 1))
    with (length (components e) - 1)%nat by lia.
  destruct (lookup_lt_is_Some_2 (components e) (length (components e) - 1)) as [s Hs];
    [lia|].
  rewrite Hs. f_equal. symmetry. now apply last_lookup_default.
Qed.

Lemma indent_spaces (d : Z) :
  0 <= d < 2 ^ 31 -> indent d = spaces (Z.to_nat (2 * d)).
Proof. intros H. unfold indent, N_INDENT. rewrite wrap32_small by lia. reflexivity. Qed.

(** The line written for a record whose depth is the number of its
    components beyond [base]. *)
Lemma show_line_tree (base : Z) (p : nat) (e : entry) :
  0 < base -> base <= n_components e < DU_COMPONENTS_MAX ->
  show_line base p e (n_components e - base) = Ok (tree_line base e).
Proof.
  unfold DU_COMPONENTS_MAX, DU_PATH_MAX. intros Hb Hn. unfold show_line, tree_line.
  destruct (n_components e =? base) eqn:E.
  - apply Z.eqb_eq in E. rewrite E, Z.sub_diag. simpl.
    unfold path_of. destruct (components e) as [|c0 rest] eqn:Ec.
    { unfold n_components in E. rewrite Ec in E. simpl in E. lia. }
    unfold component_at. rewrite Ec. simpl.
    rewrite wrap32_small by lia.
    replace (Z.to_nat (base - 1)) with (length rest)
      by (unfold n_components in E; rewrite Ec in E; simpl in E; lia).
    pose proof (show_prefix_join p e rest [c0] Ec) as Hj.
    change (Z.of_nat (length [c0])) with 1 in Hj. rewrite Hj. simpl.
    now rewrite string_append_assoc.
  - apply Z.eqb_neq in E.
    destruct (n_components e - base =? 0) eqn:E0; [apply Z.eqb_eq in E0; lia|].
    rewrite component_at_last by lia. simpl.
    rewrite indent_spaces by lia. reflexivity.
Qed.

Lemma show_line_raw (base : Z) (p : nat) (e : entry) :
  0 < base -> base <= n_components e < DU_COMPONENTS_MAX ->
  (let! c := component_at p e (wrap32 (n_components e - 1)) in
   Ok (String.append (indent (n_components e - base)) (String.append c (size_field e))))
  = Ok (raw_line base e).
Proof.
  unfold DU_COMPONENTS_MAX, DU_PATH_MAX. intros Hb Hn.
  rewrite component_at_last by lia. simpl.
  rewrite indent_spaces by lia. reflexivity.
Qed.

Lemma listed_once_parent (st : list entry) (k : nat) :
  listed_once st -> (0 < k < length st)%nat ->
  exists (p : nat) (ep : entry), st !! p = Some ep /\ k ∈ children ep.
Proof.
  unfold listed_once. intros Hl Hk.
  assert (Hin : k ∈ concat (map children st)).
  { rewrite Hl. apply list_elem_of_In, in_seq. lia. }
  apply list_elem_of_In, in_concat in Hin as (l & Hl1 & Hl2).
  apply in_map_iff in Hl1 as (ep & <- & Hep).
  apply list_elem_of_In, list_elem_of_lookup in Hep as [p Hp].
  exists p, ep. split; [exact Hp | now apply list_elem_of_In].
Qed.

Lemma well_built_at_least_base (base : Z) (st : list entry) :
  well_built base st ->
  forall (k : nat) (e : entry), st !! k = Some e -> base <= n_components e.
Proof.
  intros ((e0 & H0 & Hb) & _ & _ & Hkids & _ & Hlisted).
  induction k as [k IH] using lt_wf_ind. intros e Hk.
  destruct k as [|k].
  - rewrite H0 in Hk. injection Hk as <-. lia.
  - destruct (listed_once_parent st (S k) Hlisted) as (p & ep & Hp & Hin).
    { apply lookup_lt_Some in Hk. lia. }
    destruct (Hkids p (S k) ep Hp Hin) as (Hlt & ec & Hec & Hn).
    rewrite Hk in Hec. injection Hec as <-.
    specialize (IH p Hlt ep Hp). lia.
Qed.

Lemma flat_map_ext_elem {A B : Type} (f g : A -> list B) (l : list A) :
  (forall x, x ∈ l -> f x = g x) -> flat_map f l = flat_map g l.
Proof.
  induction l as [|x l IH]; intros H; simpl; [reflexivity|].
  rewrite (H x) by apply list_elem_of_here. f_equal. apply IH.
  intros y Hy. apply H. now apply list_elem_of_further.
Qed.

Lemma children_at_forward (base : Z) (st : list entry) (p c : nat) :
  well_built base st -> c ∈ children_at st p -> (p < c < length st)%nat.
Proof.
  intros (_ & _ & _ & Hkids & _) Hin. unfold children_at in Hin.
  destruct (st !! p) as [ep|] eqn:Hp; [|inversion Hin].
  destruct (Hkids p c ep Hp Hin) as (Hlt & ec & Hec & _).
  apply lookup_lt_Some in Hec. lia.
Qed.

Lemma visit_order_fuel (base : Z) (st : list entry) :
  well_built base st ->
  forall (f f' p : nat),
    (length st - p <= f)%nat -> (length st - p <= f')%nat -> (p < length st)%nat ->
    visit_order st f p = visit_order st f' p.
Proof.
  intros Hw. induction f as [|f IH]; intros f' p Hf Hf' Hp; [lia|].
  destruct f' as [|f']; [lia|]. simpl. f_equal.
  apply flat_map_ext_elem. intros c Hc.
  pose proof (children_at_forward base st p c Hw Hc). apply IH; lia.
Qed.

(** The records written by a call of [show_entries] with enough fuel. *)
Lemma show_children_lines (rec : nat -> outcome (list string)) (F : nat -> list string)
    (p : nat) (e : entry) (l pre : list nat) :
  children e = pre ++ l -> (forall c, c ∈ l -> rec c = Ok (F c)) ->
  show_children rec p e (length pre) (length l) = Ok (flat_map F l).
Proof.
  revert pre. induction l as [|c l IH]; intros pre He Hrec; simpl; [reflexivity|].
  rewrite He, lookup_app_r, Nat.sub_diag by lia. simpl.
  rewrite (Hrec c) by apply list_elem_of_here. simpl.
  replace (S (length pre)) with (length (pre ++ [c])) by (rewrite length_app; simpl; lia).
  rewrite (IH (pre ++ [c])).
  - reflexivity.
  - now rewrite <- app_assoc.
  - intros c' Hc'. apply Hrec. now apply list_elem_of_further.
Qed.

Lemma show_entries_S (base : Z) (st : list entry) (fuel p : nat) :
  show_entries base st (S fuel) p =
  let! e := entry_at st p in
  let! d := depth_at st p in
  let! line := show_line base p e d in
  let! rest := show_children (show_entries base st fuel) p e 0
                 (Z.to_nat (n_children e)) in
  Ok (line :: rest).
Proof. reflexivity. Qed.

Lemma show_entries_lines (base : Z) (st : list entry) :
  0 < base -> well_built base st ->
  forall (fuel p : nat),
    (p < length st)%nat -> (length st - p <= fuel)%nat ->
    show_entries base st fuel p = Ok (line_at base st <$> visit_order st fuel p).
Proof.
  intros Hb Hw. pose proof Hw as (_ & Hcomp & Hdepth & _ & Hcount & _).
  induction fuel as [|fuel IH]; intros p Hp Hfuel; [lia|]. rewrite show_entries_S.
  destruct (lookup_lt_is_Some_2 st p Hp) as [e He].
  unfold depth_at, entry_at. rewrite He. simpl bind.
  rewrite (Hdepth p e He). simpl.
  rewrite show_line_tree;
    [|exact Hb|split; [now apply (well_built_at_least_base base st Hw p)
                     |now apply (Hcomp p)]].
  simpl bind. rewrite (Hcount p e He), Nat2Z.id.
  rewrite (show_children_lines _ (fun c => line_at base st <$> visit_order st fuel c)
             p e (children e) []); [|reflexivity|].
  - simpl bind.
    change (visit_order st (S fuel) p)
      with (p :: flat_map (visit_order st fuel) (children_at st p)).
    replace (line_at base st p) with (tree_line base e)
      by (unfold line_at; now rewrite He).
    f_equal. f_equal. unfold children_at. rewrite He.
    change (list_fmap nat string ?f ?l) with (f <$> l).
    generalize (children e). intros l. induction l as [|c l IHl]; [reflexivity|].
    simpl flat_map. rewrite fmap_app. now rewrite IHl.
  - intros c Hc.
    assert (Hc' : c ∈ children_at st p) by (unfold children_at; now rewrite He).
    pose proof (children_at_forward base st p c Hw Hc'). apply IH; lia.
Qed.

Lemma visit_order_unfold (base : Z) (st : list entry) (k : nat) :
  well_built base st -> (k < length st)%nat ->
  visit_order st (length st) k
  = k :: flat_map (visit_order st (length st)) (children_at st k).
Proof.
  intros Hw Hk. remember (length st) as n eqn:En. destruct n as [|n']; [lia|].
  change (visit_order st (S n') k)
    with (k :: flat_map (visit_order st n') (children_at st k)).
  f_equal. apply flat_map_ext_elem.
  intros c Hc. pose proof (children_at_forward base st k c Hw Hc).
  apply (visit_order_fuel base st Hw); lia.
Qed.

(** Every record is visited once: by induction on the number of the
    records from [k] on, for any list [R] of records that, with the children
    listed from [k] on, make up these records. *)
Lemma forest_visited (base : Z) (st : list entry) :
  well_built base st ->
  forall (d k : nat) (R : list nat),
    (k + d = length st)%nat ->
    R ++ children_in st k (length st) ≡ₚ seq k d ->
    flat_map (visit_order st (length st)) R ≡ₚ seq k d.
Proof.
  intros Hw. induction d as [|d IH]; intros k R Hk Hperm.
  - simpl in Hperm. apply Permutation_nil_r in Hperm.
    apply app_eq_nil in Hperm as [-> _]. reflexivity.
  - simpl seq in *.
    assert (HkR : k ∈ R).
    { assert (Hin : k ∈ R ++ children_in st k (length st)).
      { rewrite Hperm. apply list_elem_of_here. }
      apply elem_of_app in Hin as [Hin|Hin]; [exact Hin|]. exfalso.
      unfold children_in in Hin.
      apply list_elem_of_In, in_concat in Hin as (l & Hl & Hkl).
      apply in_map_iff in Hl as (p & <- & Hp). apply in_seq in Hp.
      apply list_elem_of_In in Hkl.
      pose proof (children_at_forward base st p k Hw Hkl). lia. }
    apply elem_of_Permutation in HkR as [R' HR].
    rewrite HR. simpl flat_map.
    rewrite (visit_order_unfold base st k Hw) by lia.
    simpl. apply perm_skip. rewrite <- flat_map_app.
    apply (IH (S k)); [lia|].
    rewrite HR, (children_in_first st k) in Hperm by lia.
    simpl in Hperm. apply Permutation_cons_inv in Hperm.
    rewrite <- Hperm. rewrite <- !app_assoc.
    rewrite (app_assoc R'), (app_assoc (children_at st k)).
    apply Permutation_app_tail. apply Permutation_app_comm.
Qed.

Lemma visit_order_all (base : Z) (st : list entry) :
  well_built base st ->
  visit_order st (length st) 0 ≡ₚ seq 0 (length st).
Proof.
  intros Hw. pose proof Hw as ((e0 & H0 & _) & _ & _ & _ & _ & Hlisted).
  pose proof (forest_visited base st Hw (length st) 0 [0%nat] eq_refl) as H.
  simpl flat_map in H. rewrite app_nil_r in H. apply H.
  rewrite children_in_all. unfold listed_once in Hlisted. rewrite Hlisted.
  apply lookup_lt_Some in H0.
  destruct (length st) as [|n]; [lia|]. simpl. now rewrite Nat.sub_0_r.
Qed.

Lemma line_at_seq (base : Z) (st : list entry) :
  line_at base st <$> seq 0 (length st) = tree_line base <$> st.
Proof.
  apply list_eq. intros k. rewrite !list_lookup_fmap.
  destruct (decide (k < length st)%nat) as [Hk|Hk].
  - rewrite lookup_seq_lt by exact Hk. simpl.
    destruct (lookup_lt_is_Some_2 st k Hk) as [e He].
    unfold line_at. now rewrite He.
  - rewrite lookup_seq_ge by lia. rewrite (lookup_ge_None_2 st k) by lia. reflexivity.
Qed.

Lemma show_entries_well_built (base : Z) (st : list entry) :
  0 < base -> well_built base st ->
  exists (lines : list string) (e0 : entry),
    show_entries base st (length st) 0 = Ok lines /\
    lines ≡ₚ tree_line base <$> st /\
    st !! 0%nat = Some e0 /\
    lines !! 0%nat = Some (String.append (path_of e0) (size_field e0)).
Proof.
  intros Hb Hw. pose proof Hw as ((e0 & H0 & Hn0) & _).
  pose proof (lookup_lt_Some _ _ _ H0) as Hlen.
  exists (line_at base st <$> visit_order st (length st) 0), e0.
  split; [apply (show_entries_lines base st Hb Hw); lia|].
  split; [rewrite (visit_order_all base st Hw), line_at_seq; reflexivity|].
  split; [exact H0|].
  destruct (length st) as [|n]; [lia|]. simpl.
  unfold line_at. rewrite H0. unfold tree_line. now rewrite Hn0, Z.eqb_refl.
Qed.

Lemma show_entries_raw_lines (base : Z) (st : list entry) :
  0 < base -> well_built base st ->
  forall (pre rest : list entry),
    st = pre ++ rest ->
    show_entries_raw st (length pre) (length rest) = Ok (raw_line base <$> rest).
Proof.
  intros Hb Hw. pose proof Hw as (_ & Hcomp & Hdepth & _).
  intros pre rest. revert pre. induction rest as [|e rest IH]; intros pre Hst;
    [reflexivity|].
  assert (He : st !! length pre = Some e).
  { rewrite Hst, lookup_app_r, Nat.sub_diag by lia. reflexivity. }
  change (show_entries_raw st (length pre) (length (e :: rest)))
    with (let! e := entry_at st (length pre) in
          let! d := depth_at st (length pre) in
          let! c := component_at (length pre) e (wrap32 (n_components e - 1)) in
          let! rest := show_entries_raw st (S (length pre)) (length rest) in
          Ok (String.append (indent d) (String.append c (size_field e)) :: rest)).
  unfold depth_at, entry_at. rewrite He. simpl bind.
  rewrite (Hdepth _ e He). simpl bind.
  pose proof (Hcomp _ e He) as Hn.
  pose proof (well_built_at_least_base base st Hw _ e He) as Hge.
  unfold DU_COMPONENTS_MAX, DU_PATH_MAX in Hn.
  rewrite component_at_last by lia. simpl bind.
  replace (S (length pre)) with (length (pre ++ [e])) by (rewrite length_app; simpl; lia).
  rewrite (IH (pre ++ [e])) by (now rewrite <- app_assoc). simpl bind.
  rewrite indent_spaces by lia. reflexivity.
Qed.

Lemma preorder_run_well_built (fuel : nat) (table sorted st' : list entry) (e0 : entry) :
  Forall parsed table -> qsort compare_entries table = Ok sorted ->
  sorted !! 0%nat = Some e0 ->
  build_tree_preorder (n_components e0) fuel sorted 0 (length sorted) 0 = Ok st' ->
  0 < n_components e0 /\ well_built (n_components e0) st'.
Proof.
  intros Hp Hs H0 Hb.
  pose proof (Forall_parsed_sorted _ _ Hp Hs) as Hps.
  assert (Hne : sorted <> []) by (intros ->; discriminate).
  destruct (preorder_run_tree _ _ _ _ _ Hp Hs H0 Hb)
    as (Hd & Hc & _ & e0' & He0' & _ & Hsame).
  destruct (build_tree_preorder_structure _ _ _ _ Hne Hps Hb)
    as ((Hcomp & _) & Hlisted & Hcount & _).
  assert (Hbound : forall k e, st' !! k = Some e -> 0 < n_components e < DU_COMPONENTS_MAX).
  { intros k e Hk.
    destruct (lookup_lt_is_Some_2 sorted k) as [e1 He1].
    { rewrite <- (fmap_components_length _ _ Hcomp). now apply lookup_lt_Some in Hk. }
    unfold n_components. rewrite (components_same sorted st' k e1 e Hcomp He1 Hk).
    rewrite Forall_forall in Hps.
    apply (Hps e1 (list_elem_of_lookup_2 _ _ _ He1)). }
  split.
  - rewrite Forall_forall in Hps.
    apply (Hps e0 (list_elem_of_lookup_2 _ _ _ H0)).
  - split; [exists e0'; split; [exact He0'|unfold n_components; now rewrite Hsame]|].
    split; [exact Hbound|]. split; [exact Hd|]. split; [exact Hc|].
    split; [exact Hcount | exact Hlisted].
Qed.

(** X15. After a completed run of the pre-order variant on a non-empty
    input, [show_entries], called on the root, returns, and writes exactly
    one line for each record of the table: the first line is the root's,
    its path and its size; the line of any other record is two spaces for
    each of its components beyond those of the root, its last component and
    its size. *)
Theorem show_entries_prints_every_record :
  (forall (FILE : Type) (len : Z) (path_get : Z -> FILE -> bool -> Z * string * FILE)
          (fuel : nat) (zeroflag : bool) (inf : FILE) (r : run) (root : nat),
      Duvis.main FILE len path_get fuel true zeroflag inf = Ok r ->
      root_entry r = Some root ->
      exists (lines : list string) (e0 : entry),
        show_entries (run_base_depth r) (entries r) (length (entries r)) root = Ok lines /\
        lines ≡ₚ tree_line (run_base_depth r) <$> entries r /\
        entries r !! root = Some e0 /\
        lines !! 0%nat = Some (String.append (path_of e0) (size_field e0))) /\
  (forall (junk : ascii) (fuel : nat) (stdin : string) (r : run) (root : nat),
      Rev0.main junk fuel true stdin = Ok r ->
      root_entry r = Some root ->
      exists (lines : list string) (e0 : entry),
        show_entries (run_base_depth r) (entries r) (length (entries r)) root = Ok lines /\
        lines ≡ₚ tree_line (run_base_depth r) <$> entries r /\
        entries r !! root = Some e0 /\
        lines !! 0%nat = Some (String.append (path_of e0) (size_field e0))).
Proof.
  split.
  - intros FILE len path_get fuel zeroflag inf r root H Hroot.
    apply Duvis_main_preorder_Ok in H
      as [[_ Hnone]|(t & s & e0 & Hp & Hs & H0 & -> & Hr & Hb)]; [congruence|].
    rewrite Hr in Hroot. injection Hroot as <-.
    destruct (preorder_run_well_built _ _ _ _ _ Hp Hs H0 Hb) as [Hpos Hw].
    now apply show_entries_well_built.
  - intros junk fuel stdin r root H Hroot.
    apply Rev0_main_preorder_Ok in H
      as [[_ Hnone]|(t & s & e0 & Hp & Hs & H0 & -> & Hr & Hb)]; [congruence|].
    rewrite Hr in Hroot. injection Hroot as <-.
    destruct (preorder_run_well_built _ _ _ _ _ Hp Hs H0 Hb) as [Hpos Hw].
    now apply show_entries_well_built.
Qed.

(** X16. After a completed run of the pre-order variant,
    [show_entries_raw] returns and writes the records in the order of the
    table, one line each: two spaces for each component beyond those of the
    root, the last component and the size, also for the root. *)
Theorem show_entries_raw_prints_table :
  forall (FILE : Type) (len : Z) (path_get : Z -> FILE -> bool -> Z * string * FILE)
         (fuel : nat) (zeroflag : bool) (inf : FILE) (r : run),
    Duvis.main FILE len path_get fuel true zeroflag inf = Ok r ->
    show_entries_raw (entries r) 0 (length (entries r))
    = Ok (raw_line (run_base_depth r) <$> entries r).
Proof.
  intros FILE len path_get fuel zeroflag inf r H.
  apply Duvis_main_preorder_Ok in H
    as [[-> _]|(t & s & e0 & Hp & Hs & H0 & -> & Hr & Hb)]; [reflexivity|].
  destruct (preorder_run_well_built _ _ _ _ _ Hp Hs H0 Hb) as [Hpos Hw].
  apply (show_entries_raw_lines (n_components e0) (entries r) Hpos Hw []).
  reflexivity.
Qed.

Lemma show_entries_prints_every_record_witness :
  exists (lines : list string) (e0 : entry),
    show_entries 1
      [mkEntry 100 ["a"%string] (Some 0) 2 2 [2; 1]%nat;
       mkEntry 40 ["a"; "x"]%string (Some 1) 0 0 [];
       mkEntry 60 ["a"; "y"]%string (Some 1) 0 0 []] 3 0 = Ok lines /\
    lines ≡ₚ tree_line 1 <$>
      [mkEntry 100 ["a"%string] (Some 0) 2 2 [2; 1]%nat;
       mkEntry 40 ["a"; "x"]%string (Some 1) 0 0 [];
       mkEntry 60 ["a"; "y"]%string (Some 1) 0 0 []] /\
    [mkEntry 100 ["a"%string] (Some 0) 2 2 [2; 1]%nat;
     mkEntry 40 ["a"; "x"]%string (Some 1) 0 0 [];
     mkEntry 60 ["a"; "y"]%string (Some 1) 0 0 []] !! 0%nat = Some e0 /\
    lines !! 0%nat = Some (String.append (path_of e0) (size_field e0)).
Proof.
  apply (proj2 show_entries_prints_every_record "x"%char 3%nat
           (unlines ["100 a"; "40 a/x"; "60 a/y"]%string EmptyString)
           (mkRun [mkEntry 100 ["a"%string] (Some 0) 2 2 [2; 1]%nat;
                   mkEntry 40 ["a"; "x"]%string (Some 1) 0 0 [];
                   mkEntry 60 ["a"; "y"]%string (Some 1) 0 0 []]
                  (Some 0%nat) 1 []) 0%nat).
  - vm_compute. reflexivity.
  - reflexivity.
Defined.

Lemma show_entries_raw_prints_table_witness :
  show_entries_raw
    [mkEntry 100 ["a"%string] (Some 0) 2 2 [2; 1]%nat;
     mkEntry 40 ["a"; "x"]%string (Some 1) 0 0 [];
     mkEntry 60 ["a"; "y"]%string (Some 1) 0 0 []] 0 3
  = Ok (raw_line 1 <$>
          [mkEntry 100 ["a"%string] (Some 0) 2 2 [2; 1]%nat;
           mkEntry 40 ["a"; "x"]%string (Some 1) 0 0 [];
           mkEntry 60 ["a"; "y"]%string (Some 1) 0 0 []]).
Proof.
  apply (show_entries_raw_prints_table (list string) (Z.of_nat Rev0.du_buffer_length)
           path_get_lines 4%nat false ["100 a"; "40 a/x"; "60 a/y"]%string
           (mkRun [mkEntry 100 ["a"%string] (Some 0) 2 2 [2; 1]%nat;
                   mkEntry 40 ["a"; "x"]%string (Some 1) 0 0 [];
                   mkEntry 60 ["a"; "y"]%string (Some 1) 0 0 []]
                  (Some 0%nat) 1 [])).
  vm_compute. reflexivity.
Defined.

(** * The post-order variant of duvis.c *)

(** X17. The post-order builder of [duvis.c] completes on no table that
    [read_entries] can produce: called as [main] calls it on a non-empty
    table of parsed records, it runs into an access outside an object.  A
    run of the post-order variant therefore completes only on the empty
    input, with no record and no root. *)
Theorem postorder_variant_completes_on_empty_input_only :
  (forall (fuel : nat) (st : list entry),
      st <> [] -> Forall parsed st ->
      exists u : undefined,
        build_tree_postorder (S fuel) st 0 (length st) 0 = Undefined u) /\
  (forall (FILE : Type) (len : Z) (path_get : Z -> FILE -> bool -> Z * string * FILE)
          (fuel : nat) (zeroflag : bool) (inf : FILE) (r : run),
      Duvis.main FILE len path_get fuel false zeroflag inf = Ok r ->
      entries r = [] /\ root_entry r = None).
Proof.
  split; [exact build_tree_postorder_undefined|].
  intros FILE len path_get fuel zeroflag inf r H. unfold Duvis.main in H.
  bind_inv H as t Ht.
  pose proof (Duvis_read_entries_parsed _ _ _ _ _ _ _ _ _ _ (Forall_nil_2 _) Ht) as Hp.
  destruct (length t.1 =? 0)%nat eqn:E0.
  - injection H as <-. simpl. apply Nat.eqb_eq in E0.
    destruct t.1; [split; reflexivity | discriminate].
  - bind_inv H as e He. bind_inv H as built Hb. exfalso.
    apply (build_tree_postorder_never_completes _ _ _) in Hb; [exact Hb| |exact Hp].
    intros Hnil. rewrite Hnil in E0. discriminate.
Qed.

Lemma postorder_variant_completes_on_empty_input_only_witness :
  exists u : undefined,
    build_tree_postorder 3
      [mkEntry 40 ["a"; "x"]%string None 0 0 [];
       mkEntry 100 ["a"%string] None 0 0 []] 0 2 0 = Undefined u.
Proof.
  apply (proj1 postorder_variant_completes_on_empty_input_only 2%nat
           [mkEntry 40 ["a"; "x"]%string None 0 0 [];
            mkEntry 100 ["a"%string] None 0 0 []]).
  - discriminate.
  - repeat constructor.
Defined.

(** * Termination of the pre-order builder *)

(** X18. The pre-order builder terminates: a call on a range of [n]
    records never needs more than [n] nested calls, nor more than [n] turns
    of its attach loop, so the fuel that [main] gives it is enough and a run
    of the pre-order variant ends when the reading of the input does. *)
Theorem build_tree_preorder_terminates :
  (forall (base : Z) (fuel : nat) (st : list entry) (start end_ : nat) (depth : Z),
      (start < end_)%nat -> (end_ - start <= fuel)%nat ->
      fueled (build_tree_preorder base fuel st start end_ depth)) /\
  (forall (FILE : Type) (len : Z) (path_get : Z -> FILE -> bool -> Z * string * FILE)
          (fuel : nat) (zeroflag : bool) (inf : FILE),
      fueled (Duvis.read_entries FILE len path_get fuel inf zeroflag [] 0 []) ->
      fueled (Duvis.main FILE len path_get fuel true zeroflag inf)).
Proof.
  split.
  - intros base fuel. apply build_tree_preorder_fueled.
  - apply Duvis_main_preorder_fueled.
Qed.

Lemma build_tree_preorder_terminates_witness :
  fueled (build_tree_preorder 1 3
            [mkEntry 100 ["a"%string] None 0 0 [];
             mkEntry 40 ["a"; "x"]%string None 0 0 [];
             mkEntry 60 ["a"; "y"; "z"]%string None 0 0 []] 0 3 0).
Proof.
  apply (proj1 build_tree_preorder_terminates 1 3%nat
           [mkEntry 100 ["a"%string] None 0 0 [];
            mkEntry 40 ["a"; "x"]%string None 0 0 [];
            mkEntry 60 ["a"; "y"; "z"]%string None 0 0 []] 0%nat 3%nat 0); lia.
Defined.

(** * The order of compare_subtrees *)

Lemma component_at_name (p : nat) (e : entry) :
  0 < n_components e -> component_at p e (n_components e - 1) = Ok (name_of e).
Proof.
  intros Hn. unfold component_at, name_of.
  destruct (n_components e - 1 <? 0) eqn:E; [apply Z.ltb_lt in E; lia|].
  unfold n_components in *.
  replace (Z.to_nat (Z.of_nat (length (components e)) - 1))
    with (length (components e) - 1)%nat by lia.
  destruct (lookup_lt_is_Some_2 (components e) (length (components e) - 1)) as [s Hs];
    [lia|].
  rewrite Hs. f_equal. symmetry. now apply last_lookup_default.
Qed.

Lemma compare_subtrees_cases (base N : Z) (st : list entry) (c1 c2 : nat)
    (e1 e2 : entry) :
  1 <= N -> 0 <= N - base < 2 ^ 31 ->
  st !! c1 = Some e1 -> st !! c2 = Some e2 ->
  n_components e1 = N -> n_components e2 = N ->
  depth e1 = Some (N - base) -> depth e2 = Some (N - base) ->
  match compare_subtrees base st c1 c2 with
  | Ok q =>
      (q < 0 <-> sibling_before e1 e2) /\ (0 < q <-> sibling_before e2 e1) /\ q <> 0
  | Abort =>
      wrap32 (size e1) = wrap32 (size e2) /\ strcmp (name_of e1) (name_of e2) = 0
  | _ => False
  end.
Proof.
  intros HN Hd H1 H2 N1 N2 D1 D2.
  unfold compare_subtrees, depth_at, entry_at. rewrite H1, H2. simpl.
  rewrite D1, D2. simpl.
  unfold compare_sizes. rewrite !to_int_wrap32.
  unfold sibling_before. fold (name_of e1). fold (name_of e2).
  pose proof (strcmp_antisym (name_of e1) (name_of e2)) as Hanti.
  destruct (wrap32 (size e2) <? wrap32 (size e1)) eqn:E21.
  { simpl. apply Z.ltb_lt in E21. lia. }
  destruct (wrap32 (size e1) <? wrap32 (size e2)) eqn:E12.
  { simpl. apply Z.ltb_lt in E12. lia. }
  simpl. rewrite Z.eqb_refl. simpl.
  apply Z.ltb_ge in E21, E12.
  rewrite to_int_small by exact Hd.
  assert (C1 : component_at c1 e1 (N - base + base - 1) = Ok (name_of e1)).
  { replace (N - base + base - 1) with (n_components e1 - 1) by lia.
    apply component_at_name. lia. }
  assert (C2 : component_at c2 e2 (N - base + base - 1) = Ok (name_of e2)).
  { replace (N - base + base - 1) with (n_components e2 - 1) by lia.
    apply component_at_name. lia. }
  rewrite C1, C2. simpl.
  destruct (strcmp (name_of e1) (name_of e2) =? 0) eqn:Es; simpl.
  - apply Z.eqb_eq in Es. split; [lia | exact Es].
  - apply Z.eqb_neq in Es. lia.
Qed.

(** X19. On two records with the same number of components whose depth
    has been assigned, [compare_subtrees] returns a negative number exactly
    when the first has the larger size, the sizes taken modulo 2^32, or the
    same size modulo 2^32 and the smaller last component; it returns a
    positive number exactly in the opposite case; it never returns zero: on
    two records with the same size modulo 2^32 and the same last component
    it fails its assertion. *)
Theorem compare_subtrees_order (base N : Z) (st : list entry) (c1 c2 : nat)
    (e1 e2 : entry) :
  1 <= N -> 0 <= N - base < 2 ^ 31 ->
  st !! c1 = Some e1 -> st !! c2 = Some e2 ->
  n_components e1 = N -> n_components e2 = N ->
  depth e1 = Some (N - base) -> depth e2 = Some (N - base) ->
  match compare_subtrees base st c1 c2 with
  | Ok q =>
      (q < 0 <-> sibling_before e1 e2) /\ (0 < q <-> sibling_before e2 e1) /\ q <> 0
  | Abort =>
      wrap32 (size e1) = wrap32 (size e2) /\ strcmp (name_of e1) (name_of e2) = 0
  | _ => False
  end.
Proof. apply compare_subtrees_cases. Qed.

Lemma compare_subtrees_order_witness :
  match compare_subtrees 1
          [mkEntry 100 ["a"%string] (Some 0) 2 2 [1; 2]%nat;
           mkEntry 40 ["a"; "x"]%string (Some 1) 0 0 [];
           mkEntry 60 ["a"; "y"]%string (Some 1) 0 0 []] 1 2 with
  | Ok q =>
      (q < 0 <-> sibling_before (mkEntry 40 ["a"; "x"]%string (Some 1) 0 0 [])
                                (mkEntry 60 ["a"; "y"]%string (Some 1) 0 0 [])) /\
      (0 < q <-> sibling_before (mkEntry 60 ["a"; "y"]%string (Some 1) 0 0 [])
                                (mkEntry 40 ["a"; "x"]%string (Some 1) 0 0 [])) /\
      q <> 0
  | Abort =>
      wrap32 40 = wrap32 60 /\
      strcmp (name_of (mkEntry 40 ["a"; "x"]%string (Some 1) 0 0 []))
             (name_of (mkEntry 60 ["a"; "y"]%string (Some 1) 0 0 [])) = 0
  | _ => False
  end.
Proof.
  apply (compare_subtrees_order 1 2
           [mkEntry 100 ["a"%string] (Some 0) 2 2 [1; 2]%nat;
            mkEntry 40 ["a"; "x"]%string (Some 1) 0 0 [];
            mkEntry 60 ["a"; "y"]%string (Some 1) 0 0 []] 1%nat 2%nat);
    try reflexivity; lia.
Defined.

(** * The pre-order variant completes on a table that lists a tree *)

Lemma path_before_cons (x y : string) (a b : list string) :
  nul_free x = true -> nul_free y = true ->
  path_before (x :: a) (y :: b) ->
  strcmp x y < 0 \/ (x = y /\ path_before a b).
Proof.
  intros Nx Ny. unfold path_before. simpl.
  destruct (strcmp x y =? 0) eqn:E.
  - apply Z.eqb_eq in E. apply strcmp_eq in E; [|assumption..]. subst y.
    intros H. right. split; [reflexivity|].
    destruct (first_difference a b); [exact H | lia].
  - intros H. now left.
Qed.

(** Between a sequence and one of its extensions, in the order of
    [compare_entries], there are only extensions of the sequence. *)
Lemma prefix_sandwich (a b c : list string) :
  Forall (fun s => nul_free s = true) a ->
  Forall (fun s => nul_free s = true) b ->
  Forall (fun s => nul_free s = true) c ->
  a `prefix_of` c -> path_before a b -> path_before b c -> a `prefix_of` b.
Proof.
  revert b c. induction a as [|x a IH]; intros b c Fa Fb Fc Hpre Hab Hbc.
  - apply prefix_nil.
  - destruct Hpre as [t ->]. simpl in *.
    destruct b as [|y b].
    { unfold path_before in Hab. simpl in Hab. lia. }
    inversion Fa as [|? ? Nx Fa']; inversion Fb as [|? ? Ny Fb'];
      inversion Fc as [|? ? _ Fc']; subst.
    apply (path_before_cons _ _ _ _ Nx Ny) in Hab as [Hab|[<- Hab]].
    + apply (path_before_cons _ _ _ _ Ny Nx) in Hbc as [Hbc|[-> Hbc]].
      * rewrite (strcmp_antisym x y) in Hbc. lia.
      * rewrite strcmp_refl in Hab. lia.
    + apply (path_before_cons _ _ _ _ Nx Nx) in Hbc as [Hbc|[_ Hbc]].
      * rewrite strcmp_refl in Hbc. lia.
      * apply prefix_cons. apply (IH b (a ++ t)); try assumption. now exists t.
Qed.

Lemma prefix_path_before (a b : list string) :
  a `prefix_of` b -> a = b \/ path_before a b.
Proof.
  intros [t ->]. destruct t as [|x t].
  - left. now rewrite app_nil_r.
  - right. now apply path_before_extension.
Qed.

(** In a sorted table a sequence comes no later than its extensions. *)
Lemma sorted_prefix_index (comps : list (list string)) (p i : nat)
    (cp ci : list string) :
  sorted_by path_before comps ->
  comps !! p = Some cp -> comps !! i = Some ci -> cp `prefix_of` ci -> (p <= i)%nat.
Proof.
  intros Hs Hp Hi Hpre. destruct (decide (p <= i)%nat) as [Hle|Hgt]; [exact Hle|].
  exfalso. assert (Hlt : (i < p)%nat) by lia.
  pose proof (Hs i p ci cp Hlt Hi Hp) as Hb.
  destruct (prefix_path_before cp ci Hpre) as [->|Hb'].
  - now apply path_before_irrefl in Hb.
  - now apply path_before_asym in Hb.
Qed.

Lemma sorted_index_inj (comps : list (list string)) (p i : nat) (c : list string) :
  sorted_by path_before comps ->
  comps !! p = Some c -> comps !! i = Some c -> p = i.
Proof.
  intros Hs Hp Hi.
  pose proof (sorted_prefix_index comps p i c c Hs Hp Hi ltac:(reflexivity)).
  pose proof (sorted_prefix_index comps i p c c Hs Hi Hp ltac:(reflexivity)).
  lia.
Qed.

(** In a subtree range every record extends the first one. *)
Lemma subtree_rooted (comps : list (list string)) (start end_ : nat)
    (cs : list string) :
  subtree_range comps start end_ -> comps !! start = Some cs ->
  forall (k : nat) (ck : list string),
    (start < k < end_)%nat -> comps !! k = Some ck ->
    cs `prefix_of` ck /\ (length cs < length ck)%nat.
Proof.
  intros Hr Hs. induction k as [k IH] using lt_wf_ind. intros ck Hk Hck.
  destruct (Hr k ck Hk Hck) as (p & cp & x & Hp & Hcp & ->).
  rewrite length_app. simpl.
  destruct (decide (p = start)) as [->|Hne].
  - rewrite Hs in Hcp. injection Hcp as <-. split; [now exists [x] | lia].
  - destruct (IH p ltac:(lia) cp ltac:(lia) Hcp) as [[t ->] Hlen].
    split; [exists (t ++ [x]); now rewrite <- app_assoc | lia].
Qed.

Lemma subtree_range_rooted (comps : list (list string)) (start end_ : nat) :
  subtree_range comps start end_ -> rooted comps start end_.
Proof.
  intros Hr k cs ck Hs Hk Hck.
  now destruct (subtree_rooted comps start end_ cs Hr Hs k ck Hk Hck).
Qed.

(** The walk to the end of a subtree completes; the records it passes have
    more than [offset + 1] components and the component of the child at
    [offset]; the record at which it stops before the end of the range has
    not. *)
Lemma walk_subtree_full (st : list entry) (i : nat) (offset : Z) (ei : entry)
    (ci : string) :
  st !! i = Some ei -> 0 <= offset -> offset + 1 < 2 ^ 32 ->
  components ei !! Z.to_nat offset = Some ci ->
  forall (steps j : nat),
    (j + steps <= length st)%nat ->
    exists j' : nat,
      walk_subtree st i offset j steps = Ok j' /\ (j <= j' <= j + steps)%nat /\
      (forall (k : nat) (ek : entry),
          (j <= k < j')%nat -> st !! k = Some ek ->
          offset + 1 < n_components ek /\
          exists ck : string,
            components ek !! Z.to_nat offset = Some ck /\ strcmp ci ck = 0) /\
      ((j' < j + steps)%nat ->
       exists ej : entry,
         st !! j' = Some ej /\
         (n_components ej <= offset + 1 \/
          exists cj : string,
            components ej !! Z.to_nat offset = Some cj /\ strcmp ci cj <> 0)).
Proof.
  intros Hei Hoff Hmax Hci. induction steps as [|steps IH]; intros j Hlen.
  - exists j. simpl. split; [reflexivity|]. split; [lia|]. split; [intros; lia | lia].
  - destruct (lookup_lt_is_Some_2 st j ltac:(lia)) as [ej Hej].
    simpl. unfold entry_at. rewrite Hej. simpl.
    rewrite (wrap32_small (offset + 1)) by lia.
    destruct (offset + 1 <? n_components ej) eqn:En; simpl.
    + apply Z.ltb_lt in En. rewrite Hei. simpl.
      unfold component_at.
      destruct (offset <? 0) eqn:E0; [apply Z.ltb_lt in E0; lia|].
      rewrite Hci. simpl.
      destruct (lookup_lt_is_Some_2 (components ej) (Z.to_nat offset)) as [cj Hcj].
      { unfold n_components in En. lia. }
      rewrite Hcj. simpl.
      destruct (strcmp ci cj =? 0) eqn:Es.
      * apply Z.eqb_eq in Es.
        destruct (IH (S j) ltac:(lia)) as (j' & Hw & Hr & Hpass & Hstop).
        exists j'. split; [exact Hw|]. split; [lia|]. split.
        -- intros k ek Hk Hek. destruct (decide (k = j)) as [->|Hne].
           ++ rewrite Hej in Hek. injection Hek as <-. split; [exact En|eauto].
           ++ apply (Hpass k); [lia | exact Hek].
        -- intros Hlt. apply Hstop. lia.
      * apply Z.eqb_neq in Es. exists j. split; [reflexivity|]. split; [lia|].
        split; [intros; lia|]. intros _. exists ej. split; [exact Hej|]. right. eauto.
    + apply Z.ltb_ge in En. exists j. split; [reflexivity|]. split; [lia|].
      split; [intros; lia|]. intros _. exists ej. split; [exact Hej|]. now left.
Qed.

Lemma prefix_of_snoc (a b : list string) (x : string) :
  a `prefix_of` (b ++ [x]) -> (length a <= length b)%nat -> a `prefix_of` b.
Proof.
  intros [t Ht] Hlen.
  assert (Ha : a = take (length a) b).
  { rewrite <- (take_app_le b [x]) by exact Hlen. rewrite Ht.
    now rewrite take_app_length. }
  exists (drop (length a) b). rewrite Ha at 1. symmetry. apply take_drop.
Qed.

Lemma prefix_of_same_length (a b : list string) :
  a `prefix_of` b -> (length b <= length a)%nat -> a = b.
Proof.
  intros [t ->] Hlen. rewrite length_app in Hlen.
  destruct t; [now rewrite app_nil_r | simpl in Hlen; lia].
Qed.

Lemma c_strings_nul_free (comps : list (list string)) (k : nat) (c : list string) :
  Forall c_strings comps -> comps !! k = Some c ->
  Forall (fun s => nul_free s = true) c.
Proof.
  intros Hwf Hk. rewrite Forall_forall in Hwf.
  apply (Hwf c (list_elem_of_lookup_2 _ _ _ Hk)).
Qed.

(** The record at which the walk stops is a direct child of [start]. *)
Lemma next_is_direct_child (comps : list (list string)) (start end_ : nat)
    (offset : Z) (cs ci cj : list string) (i j : nat) (x : string) :
  sorted_by path_before comps -> Forall c_strings comps ->
  subtree_range comps start end_ ->
  comps !! start = Some cs -> Z.of_nat (length cs) = offset ->
  (start < i < j)%nat -> (j < end_)%nat ->
  comps !! i = Some ci -> Z.of_nat (length ci) = offset + 1 ->
  ci !! Z.to_nat offset = Some x ->
  (forall (k : nat) (ck : list string),
      (i < k < j)%nat -> comps !! k = Some ck ->
      exists y : string, ck !! Z.to_nat offset = Some y /\ strcmp x y = 0) ->
  comps !! j = Some cj ->
  (Z.of_nat (length cj) <= offset + 1 \/
   exists y : string, cj !! Z.to_nat offset = Some y /\ strcmp x y <> 0) ->
  Z.of_nat (length cj) = offset + 1.
Proof.
  intros Hs Hwf Hr Hcs Hoff Hij Hj Hci Hleni Hx Hpass Hcj Hstop.
  destruct (Hr j cj ltac:(lia) Hcj) as (p & cp & z & Hp & Hcp & ->).
  rewrite length_app in *. simpl in *.
  destruct (decide (p = start)) as [->|Hne].
  { rewrite Hcs in Hcp. injection Hcp as <-. lia. }
  exfalso.
  destruct (subtree_rooted comps start end_ cs Hr Hcs p cp ltac:(lia) Hcp) as [_ Hlen].
  destruct Hstop as [Hshort|(y & Hy & Hne')]; [lia|].
  rewrite lookup_app_l in Hy by lia.
  destruct (decide (p < i)%nat) as [Hpi|Hpi].
  - assert (Hpre : cp `prefix_of` ci).
    { apply (prefix_sandwich cp ci (cp ++ [z])).
      - now apply (c_strings_nul_free comps p).
      - now apply (c_strings_nul_free comps i).
      - now apply (c_strings_nul_free comps j).
      - now exists [z].
      - apply (Hs p i); [lia|assumption..].
      - apply (Hs i j); [lia|assumption..]. }
    apply prefix_of_same_length in Hpre; [|lia]. subst cp.
    pose proof (sorted_index_inj comps p i ci Hs Hcp Hci). lia.
  - destruct (decide (p = i)) as [->|Hne2].
    + rewrite Hci in Hcp. injection Hcp as <-. rewrite Hx in Hy. injection Hy as <-.
      rewrite strcmp_refl in Hne'. lia.
    + destruct (Hpass p cp ltac:(lia) Hcp) as (y' & Hy' & Hz).
      rewrite Hy in Hy'. injection Hy' as <-. lia.
Qed.

(** The records that the walk passes form a subtree range below the
    child. *)
Lemma subtree_range_block (comps : list (list string)) (start end_ : nat)
    (offset : Z) (cs ci : list string) (i j : nat) (x : string) :
  sorted_by path_before comps -> Forall c_strings comps ->
  subtree_range comps start end_ ->
  comps !! start = Some cs -> Z.of_nat (length cs) = offset ->
  (start < i)%nat -> (j <= end_ <= length comps)%nat ->
  comps !! i = Some ci -> Z.of_nat (length ci) = offset + 1 ->
  ci !! Z.to_nat offset = Some x ->
  (forall (k : nat) (ck : list string),
      (i < k < j)%nat -> comps !! k = Some ck ->
      offset + 1 < Z.of_nat (length ck) /\
      exists y : string, ck !! Z.to_nat offset = Some y /\ strcmp x y = 0) ->
  subtree_range comps i j.
Proof.
  intros Hs Hwf Hr Hcs Hoff Hsi Hj Hci Hleni Hx Hpass k ck Hk Hck.
  destruct (Hr k ck ltac:(lia) Hck) as (p & cp & z & Hp & Hcp & ->).
  exists p, cp, z. split; [|split; [exact Hcp | reflexivity]].
  split; [|lia].
  apply (sorted_prefix_index comps i p ci cp Hs Hci Hcp).
  destruct (Hpass k (cp ++ [z]) Hk Hck) as (Hdeep & _).
  rewrite length_app in Hdeep. simpl in Hdeep.
  apply (prefix_of_snoc ci cp z); [|lia].
  assert (Hroot : rooted comps i j).
  { apply (rooted_subtree comps start end_ i j cs ci); try assumption.
    - now apply (subtree_range_rooted comps start end_).
    - lia.
    - lia.
    - intros k' Hk'. destruct (lookup_lt_is_Some_2 comps k') as [ck' Hck'].
      { lia. }
      destruct (Hpass k' ck' ltac:(lia) Hck') as (_ & y & Hy & Hz).
      exists ck', x, y. replace (length cs) with (Z.to_nat offset) by lia.
      repeat split; assumption. }
  apply (Hroot k ci (cp ++ [z]) Hci Hk Hck).
Qed.

Lemma count_direct_app (comps : list (list string)) (n : Z) (a b i : nat) :
  count_direct comps n i (a + b)
  = (count_direct comps n i a + count_direct comps n (i + a) b)%nat.
Proof.
  revert i. induction a as [|a IH]; intros i; simpl.
  - now rewrite Nat.add_0_r.
  - rewrite IH. replace (S i + a)%nat with (i + S a)%nat by lia. lia.
Qed.

Lemma count_direct_none (comps : list (list string)) (n : Z) (steps i : nat) :
  (forall (k : nat) (ck : list string),
      (i <= k < i + steps)%nat -> comps !! k = Some ck -> Z.of_nat (length ck) <> n) ->
  count_direct comps n i steps = 0%nat.
Proof.
  revert i. induction steps as [|steps IH]; intros i H; simpl; [reflexivity|].
  rewrite IH by (intros k ck Hk; apply H; lia).
  destruct (comps !! i) as [c|] eqn:Ec; [|reflexivity].
  destruct (Z.of_nat (length c) =? n) eqn:E; [|reflexivity].
  apply Z.eqb_eq in E. exfalso. apply (H i c); [lia | exact Ec | exact E].
Qed.

Lemma count_direct_le (comps : list (list string)) (n : Z) (steps i : nat) :
  (count_direct comps n i steps <= steps)%nat.
Proof.
  revert i. induction steps as [|steps IH]; intros i; simpl; [lia|].
  specialize (IH (S i)).
  destruct (comps !! i) as [c|]; [destruct (Z.of_nat (length c) =? n)|]; lia.
Qed.

(** Pass 1 counts the records with [offset + 1] components. *)
Lemma count_children_value (st : list entry) (offset : Z) :
  0 <= offset -> offset + 1 < 2 ^ 32 ->
  forall (steps i : nat) (n0 : Z),
    (i + steps <= length st)%nat -> 0 <= n0 -> n0 + Z.of_nat steps < 2 ^ 32 ->
    count_children st offset i steps n0
    = Ok (n0 + Z.of_nat (count_direct (components <$> st) (offset + 1) i steps)).
Proof.
  intros Hoff Hmax. induction steps as [|steps IH]; intros i n0 Hlen Hn0 Hsum; simpl.
  - now rewrite Z.add_0_r.
  - destruct (lookup_lt_is_Some_2 st i ltac:(lia)) as [ei Hei].
    unfold entry_at. rewrite Hei. simpl.
    rewrite list_lookup_fmap, Hei. simpl.
    rewrite (wrap32_small (offset + 1)) by lia.
    change (Z.of_nat (length (components ei))) with (n_components ei).
    destruct (n_components ei =? offset + 1).
    + rewrite wrap32_small by lia. rewrite IH by lia. f_equal. lia.
    + rewrite IH by lia. f_equal.
Qed.

(** An insertion sort completes when the comparison function orders any
    two distinct elements. *)
Lemma insert_sorted_runs {A : Type} (cmp : A -> A -> outcome Z) (x : A) (l : list A) :
  (forall y, y ∈ l -> exists q, cmp x y = Ok q) ->
  exists l', insert_sorted cmp x l = Ok l'.
Proof.
  induction l as [|y l IH]; intros H; simpl; [eauto|].
  destruct (H y (list_elem_of_here _ _)) as [q Hq]. rewrite Hq. simpl.
  destruct (q <=? 0); [eauto|].
  destruct IH as [l' Hl']; [intros z Hz; apply H; now apply list_elem_of_further|].
  rewrite Hl'. simpl. eauto.
Qed.

Lemma qsort_runs {A : Type} (cmp : A -> A -> outcome Z) (l : list A) :
  NoDup l ->
  (forall x y, x ∈ l -> y ∈ l -> x <> y -> exists q, cmp x y = Ok q) ->
  exists s, qsort cmp l = Ok s.
Proof.
  induction l as [|x l IH]; intros Hnd H; simpl; [eauto|].
  apply NoDup_cons in Hnd as [Hx Hnd].
  destruct IH as [s Hs]; [exact Hnd| |].
  { intros a b Ha Hb. apply H; now apply list_elem_of_further. }
  rewrite Hs. simpl. apply insert_sorted_runs.
  intros y Hy. apply qsort_Permutation in Hs. rewrite <- Hs in Hy.
  apply H; [apply list_elem_of_here | now apply list_elem_of_further |].
  intros ->. contradiction.
Qed.

Lemma comps_lookup_inv (st : list entry) (comps : list (list string)) (k : nat)
    (c : list string) :
  components <$> st = comps -> comps !! k = Some c ->
  exists e : entry, st !! k = Some e /\ components e = c.
Proof.
  intros <- Hk. rewrite list_lookup_fmap in Hk.
  destruct (st !! k) as [e|]; [|discriminate]. injection Hk as <-. eauto.
Qed.

Lemma attach_runs (comps : list (list string)) (base : Z) rec (st1 : list entry)
    (start end_ : nat) (depth offset : Z) (cs : list string) (bound : nat) :
  0 <= base -> 0 <= depth -> offset = depth + base -> offset < DU_COMPONENTS_MAX ->
  sorted_by path_before comps -> Forall c_strings comps ->
  components <$> st1 = comps ->
  subtree_range comps start end_ ->
  comps !! start = Some cs -> Z.of_nat (length cs) = offset ->
  tree_spec base rec -> completes comps base rec bound ->
  (end_ - S start <= bound)%nat -> (end_ <= length st1)%nat ->
  (forall k e, (S start <= k < end_)%nat -> st1 !! k = Some e ->
               children e = [] /\ n_children e = 0) ->
  forall (fuel : nat) (st : list entry) (i n_ch : nat),
    (end_ - i <= fuel)%nat ->
    attach_run_inv comps base st1 st start end_ offset i n_ch ->
    exists r : list entry * nat,
      attach rec fuel st start end_ offset depth i n_ch = Ok r /\
      attach_run_inv comps base st1 (fst r) start end_ offset end_ (snd r).
Proof.
  intros Hbase Hdepth Hoff Hmax Hs Hwf Hcomps Hr Hcs Hlcs Hrec Hrun Hbound Hend Hfresh.
  assert (Hmax' : offset < 4096) by exact Hmax.
  assert (Hwf1 : Forall c_strings (components <$> st1)) by (now rewrite Hcomps).
  induction fuel as [|fuel IH]; intros st i n_ch Hfuel Hinv.
  - assert (Hi : (end_ <= i)%nat) by lia.
    exists (st, n_ch). simpl. apply Nat.leb_le in Hi as Hi'. rewrite Hi'.
    split; [reflexivity|]. simpl.
    destruct Hinv as (Ht & Hc & Hn). pose proof Ht as (Hrange & _).
    assert (i = end_) as -> by lia.
      split; [exact Ht|]. split; [exact Hc | exact Hn].
  - destruct (decide (end_ <= i)%nat) as [Hi|Hi].
    { exists (st, n_ch). simpl. apply Nat.leb_le in Hi as Hi'. rewrite Hi'.
      split; [reflexivity|]. simpl.
      destruct Hinv as (Ht & Hc & Hn). pose proof Ht as (Hrange & _).
      assert (i = end_) as -> by lia.
      split; [exact Ht|]. split; [exact Hc | exact Hn]. }
    assert (E : (i < end_)%nat) by lia.
    destruct Hinv as (Htree & (es1 & Hes1 & Hcount & Hnc1) & Hnext).
    destruct (Hnext E) as (ci & Hci & Hleni).
    pose proof Htree as (Hrange & Hframe & Hcomp & Hsize
                         & (es & es1' & Hes & Hes1' & Hdep & Hnc & Hcap & Hlen & Hnd & Hkids)
                         & Hnodes & Hsorted).
    rewrite Hes1 in Hes1'. injection Hes1' as <-.
    assert (Hcomps' : components <$> st = comps) by (now rewrite Hcomp).
    destruct (comps_lookup_inv st comps i ci Hcomps' Hci) as (ei & Hei & Heci).
    assert (En : n_components ei = offset + 1).
    { unfold n_components. now rewrite Heci. }
    destruct (lookup_lt_is_Some_2 ci (Z.to_nat offset)) as [x Hx]; [lia|].
    assert (Hlt_i : (i < length st)%nat) by (apply lookup_lt_Some in Hei; exact Hei).
    assert (Hlt_s : (start < length st)%nat) by (apply lookup_lt_Some in Hes; exact Hes).
    assert (Hlen1 : length st = length st1) by (now apply fmap_components_length).
    (* the slot is there *)
    assert (Hslot : (n_ch < children_cap es)%nat).
    { rewrite Hcap, <- Hcount.
      replace (end_ - i)%nat with (S (end_ - S i)) by lia. simpl.
      rewrite Hci. rewrite (proj2 (Z.eqb_eq _ _) Hleni). lia. }
    set (st_a := <[start := set_children (take n_ch (children es) ++ i
                            :: drop (S n_ch) (children es)) es]> st).
    assert (Ha : store_child st start n_ch i = Ok st_a).
    { unfold store_child, entry_at. rewrite Hes. simpl.
      apply Nat.ltb_lt in Hslot. now rewrite Hslot. }
    assert (Hne : start <> i) by lia.
    assert (Ha_i : st_a !! i = Some ei).
    { unfold st_a. rewrite list_lookup_insert_ne by exact Hne. exact Hei. }
    set (st_b := <[i := set_depth (wrap32 (depth + 1)) ei]> st_a).
    assert (Hb : update_entry st_a i (set_depth (wrap32 (depth + 1))) = Ok st_b).
    { unfold update_entry. now rewrite Ha_i. }
    assert (Hb_len : length st_b = length st).
    { unfold st_b, st_a. now rewrite !length_insert. }
    assert (Hb_i : st_b !! i = Some (set_depth (wrap32 (depth + 1)) ei)).
    { unfold st_b. apply list_lookup_insert_eq. unfold st_a. now rewrite length_insert. }
    assert (Hb_other : forall k, k <> start -> k <> i -> st_b !! k = st !! k).
    { intros k Hk1 Hk2. unfold st_b, st_a.
      rewrite list_lookup_insert_ne by lia. now rewrite list_lookup_insert_ne by lia. }
    assert (Hb_comp : components <$> st_b = comps).
    { unfold st_b. rewrite (fmap_components_insert _ i ei); [|exact Ha_i|reflexivity].
      unfold st_a. now rewrite (fmap_components_insert _ start es). }
    (* the walk *)
    destruct (walk_subtree_full st_b i offset (set_depth (wrap32 (depth + 1)) ei) x
                Hb_i ltac:(lia) ltac:(lia) ltac:(simpl; now rewrite Heci)
                (end_ - S i) (S i) ltac:(lia))
      as (j & Hw & Hjr & Hpass & Hstop).
    assert (Hpass' : forall (k : nat) (ck : list string),
               (i < k < j)%nat -> comps !! k = Some ck ->
               offset + 1 < Z.of_nat (length ck) /\
               exists y : string, ck !! Z.to_nat offset = Some y /\ strcmp x y = 0).
    { intros k ck Hk Hck.
      destruct (comps_lookup_inv st_b comps k ck Hb_comp Hck) as (ek & Hek & <-).
      apply (Hpass k ek); [lia | exact Hek]. }
    (* the subtree *)
    assert (Hsub : exists st_c,
               (if (S i <? j)%nat then rec st_b i j (wrap32 (depth + 1)) else Ok st_b)
               = Ok st_c).
    { destruct (S i <? j)%nat eqn:Esub; [|eauto].
      apply Nat.ltb_lt in Esub. rewrite wrap32_small by lia.
      apply Hrun; [|lia].
      split; [|split; [exact Hb_comp|split; [lia|split]]].
      - split; [lia|]. split; [|now rewrite Hb_comp].
        intros k e Hk Hke.
        assert (Hfr : forall e', st !! k = Some e' -> children e' = [] /\ n_children e' = 0).
        { intros e' He'. apply (Hfresh k e'); [lia|]. rewrite <- Hframe by lia. exact He'. }
        destruct (decide (k = i)) as [->|Hki].
        + rewrite Hb_i in Hke. injection Hke as <-. simpl. now apply Hfr.
        + rewrite Hb_other in Hke by lia. now apply Hfr.
      - exists ci. split; [exact Hci | lia].
      - apply (subtree_range_block comps start end_ offset cs ci i j x);
          try assumption; try lia. rewrite <- Hcomps, length_fmap. lia. }
    destruct Hsub as [st_c Hc].
    pose proof (attach_tree_step base rec st1 start end_ depth offset st st_a st_b st_c
                  i j n_ch ei Hbase Hdepth Hoff Hmax Hrec Hend Hfresh Hwf1 Htree E Hei En
                  Ha Hb ltac:(lia) Hc) as Htree'.
    destruct (IH st_c j (S n_ch) ltac:(lia)) as (r & Hr' & Hinv').
    + split; [exact Htree'|]. split.
      * exists es1. split; [exact Hes1|]. split; [|exact Hnc1].
        rewrite <- Hcount.
        replace (end_ - i)%nat with ((j - i) + (end_ - j))%nat by lia.
        rewrite count_direct_app. replace (i + (j - i))%nat with j by lia.
        replace (j - i)%nat with (S (j - S i)) by lia. simpl.
        rewrite Hci, (proj2 (Z.eqb_eq _ _) Hleni).
        rewrite (count_direct_none comps (offset + 1) (j - S i) (S i)); [lia|].
        intros k ck Hk Hck. destruct (Hpass' k ck ltac:(lia) Hck) as [Hdeep _]. lia.
      * intros Hj.
        destruct (Hstop ltac:(lia)) as (ej & Hej & Hreason).
        exists (components ej).
        pose proof (comps_lookup st_b comps j ej Hb_comp Hej) as Hcj.
        split; [exact Hcj|].
        apply (next_is_direct_child comps start end_ offset cs ci (components ej) i j x);
          try assumption; try lia.
        intros k ck Hk Hck. now destruct (Hpass' k ck Hk Hck).
    + exists r. split; [|exact Hinv'].
      simpl. apply Nat.leb_gt in E as E'. rewrite E'.
      unfold entry_at at 1. rewrite Hei. simpl.
      rewrite (wrap32_small (offset + 1)) by lia.
      rewrite (proj2 (Z.eqb_eq _ _) En). simpl.
      rewrite Ha. simpl. rewrite Hb. simpl. rewrite Hw. simpl.
      rewrite Hc. simpl. exact Hr'.
Qed.

Lemma name_of_snoc (e : entry) (c : list string) (x : string) :
  components e = c ++ [x] -> name_of e = x.
Proof. intros H. unfold name_of. rewrite H. apply last_last. Qed.

Lemma build_tree_preorder_runs (comps : list (list string)) (base : Z) :
  0 <= base -> sorted_by path_before comps -> Forall c_strings comps ->
  Z.of_nat (length comps) < 2 ^ 32 ->
  forall fuel : nat, completes comps base (build_tree_preorder base fuel) fuel.
Proof.
  intros Hbase Hs Hwf Hsmall.
  induction fuel as [|fuel IH]; intros st start end_ d0 Hready Hfuel.
  { destruct Hready as ((Hrange & _) & _). lia. }
  destruct Hready as (Hpre & Hcomps & Hdepth & (cs & Hcs & Hlcs) & Hr).
  pose proof Hpre as (Hrange & Hfresh & Hwf').
  destruct (comps_lookup_inv st comps start cs Hcomps Hcs) as (e & He & Hec).
  assert (Hcsb : Z.of_nat (length cs) < 4096).
  { rewrite Forall_forall in Hwf.
    apply (Hwf cs (list_elem_of_lookup_2 _ _ _ Hcs)). }
  assert (En : n_components e = d0 + base) by (unfold n_components; now rewrite Hec).
  assert (Hlt : (start < length st)%nat) by (apply lookup_lt_Some in He; exact He).
  assert (Hlenc : length comps = length st) by (rewrite <- Hcomps; apply length_fmap).
  destruct (Hfresh start e ltac:(lia) He) as [He_nil He_zero].
  set (st0 := <[start := set_depth d0 e]> st).
  assert (H0_comp : components <$> st0 = comps).
  { unfold st0. now rewrite (fmap_components_insert _ start e). }
  set (cnt := count_direct comps (d0 + base + 1) (S start) (end_ - S start)).
  pose proof (count_direct_le comps (d0 + base + 1) (end_ - S start) (S start)) as Hcnt.
  fold cnt in Hcnt.
  assert (Hn : count_children st0 (d0 + base) (S start) (end_ - S start) (n_children e)
               = Ok (Z.of_nat cnt)).
  { rewrite count_children_value; try lia.
    - rewrite H0_comp, He_zero. reflexivity.
    - unfold st0. rewrite length_insert. lia. }
  set (e1 := alloc_children (Z.of_nat cnt)
               (set_n_children (Z.of_nat cnt) (set_depth d0 e))).
  set (st1 := <[start := e1]> st0).
  assert (H1 : update_entry st0 start
                 (fun e => alloc_children (Z.of_nat cnt) (set_n_children (Z.of_nat cnt) e))
               = Ok st1).
  { unfold update_entry, st0. rewrite list_lookup_insert_eq by exact Hlt. reflexivity. }
  assert (H1_start : st1 !! start = Some e1).
  { unfold st1, st0. apply list_lookup_insert_eq. now rewrite length_insert. }
  assert (H1_other : forall k, k <> start -> st1 !! k = st !! k).
  { intros k Hk. unfold st1, st0. rewrite !list_lookup_insert_ne by lia. reflexivity. }
  assert (H1_comp : components <$> st1 = comps).
  { unfold st1. rewrite (fmap_components_insert _ start (set_depth d0 e));
      [exact H0_comp| |reflexivity].
    unfold st0. now apply list_lookup_insert_eq. }
  assert (H1_len : length st1 = length st).
  { unfold st1, st0. now rewrite !length_insert. }
  assert (H1_fresh : forall k e2, (S start <= k < end_)%nat -> st1 !! k = Some e2 ->
                                  children e2 = [] /\ n_children e2 = 0).
  { intros k e2 Hk Hke. rewrite H1_other in Hke by lia.
    apply (Hfresh k e2); [lia | exact Hke]. }
  assert (Hinit : attach_run_inv comps base st1 st1 start end_ (d0 + base) (S start) 0).
  { split; [|split].
    - split; [lia|]. split; [reflexivity|]. split; [reflexivity|].
      split; [reflexivity|]. split.
      { exists e1, e1. split; [exact H1_start|]. split; [exact H1_start|].
        split; [reflexivity|]. split; [reflexivity|]. split; [reflexivity|].
        split; [reflexivity|]. split; [apply NoDup_nil_2|].
        intros c Hin. inversion Hin. }
      split; intros p; lia.
    - exists e1. split; [exact H1_start|]. simpl.
      split; [fold cnt; lia | lia].
    - intros Hlt1.
      destruct (lookup_lt_is_Some_2 comps (S start) ltac:(lia)) as [c1 Hc1].
      exists c1. split; [exact Hc1|].
      destruct (Hr (S start) c1 ltac:(lia) Hc1) as (p & cp & x & Hp & Hcp & ->).
      assert (p = start) as -> by lia.
      rewrite Hcs in Hcp. injection Hcp as <-.
      rewrite length_app. simpl. lia. }
  destruct (attach_runs comps base (build_tree_preorder base fuel) st1 start end_ d0
              (d0 + base) cs fuel Hbase Hdepth eq_refl ltac:(unfold DU_COMPONENTS_MAX,
              DU_PATH_MAX; lia) Hs Hwf H1_comp Hr Hcs Hlcs
              (build_tree_preorder_tree base fuel Hbase) IH ltac:(lia) ltac:(lia)
              H1_fresh (end_ - S start)%nat st1 (S start) 0%nat ltac:(lia) Hinit)
    as ([st_f n_f] & Hatt & Hfin).
  simpl in Hfin.
  destruct Hfin as (Htree & (es1 & Hes1 & Hcount & Hnc1) & _).
  destruct Htree as (_ & F_frame & F_comp & F_size
                     & (e' & es1' & He' & Hes1' & Hdep & Hnc & Hcap & Hlen & Hnd & Hkids)
                     & F_nodes & F_sorted).
  rewrite H1_start in Hes1, Hes1'. injection Hes1 as <-. injection Hes1' as <-.
  rewrite Nat.sub_diag in Hcount. simpl in Hcount. rewrite Nat.add_0_r in Hcount.
  assert (Hf_comp : components <$> st_f = comps) by (now rewrite F_comp).
  (* the sort of the children *)
  assert (Hsort : exists sorted, qsort (compare_subtrees base st_f) (children e') = Ok sorted).
  { apply qsort_runs; [exact Hnd|].
    intros c1 c2 Hc1 Hc2 Hne.
    destruct (Hkids c1 Hc1) as (Hr1 & ec1 & Hec1 & Hn1).
    destruct (Hkids c2 Hc2) as (Hr2 & ec2 & Hec2 & Hn2).
    destruct (F_nodes c1 ec1 ltac:(lia) Hec1) as [Hd1 _].
    destruct (F_nodes c2 ec2 ltac:(lia) Hec2) as [Hd2 _].
    pose proof (compare_subtrees_cases base (d0 + base + 1) st_f c1 c2 ec1 ec2
                  ltac:(lia) ltac:(lia) Hec1 Hec2 Hn1 Hn2
                  ltac:(now rewrite Hd1, Hn1) ltac:(now rewrite Hd2, Hn2)) as Hcases.
    destruct (compare_subtrees base st_f c1 c2) as [q| | | |]; try contradiction; [eauto|].
    exfalso. destruct Hcases as [_ Hname].
    pose proof (comps_lookup st_f comps c1 ec1 Hf_comp Hec1) as Hk1.
    pose proof (comps_lookup st_f comps c2 ec2 Hf_comp Hec2) as Hk2.
    destruct (subtree_rooted comps start end_ cs Hr Hcs c1 _ Hr1 Hk1) as [Hp1 _].
    destruct (subtree_rooted comps start end_ cs Hr Hcs c2 _ Hr2 Hk2) as [Hp2 _].
    destruct (prefix_one_more cs (components ec1) Hp1) as [x1 Hx1];
      [unfold n_components in Hn1; lia|].
    destruct (prefix_one_more cs (components ec2) Hp2) as [x2 Hx2];
      [unfold n_components in Hn2; lia|].
    rewrite (name_of_snoc ec1 cs x1 Hx1), (name_of_snoc ec2 cs x2 Hx2) in Hname.
    pose proof (c_strings_nul_free comps c1 _ Hwf Hk1) as N1.
    pose proof (c_strings_nul_free comps c2 _ Hwf Hk2) as N2.
    rewrite Hx1 in N1. rewrite Hx2 in N2.
    apply Forall_app in N1 as [_ N1]. apply Forall_app in N2 as [_ N2].
    assert (Nx1 : nul_free x1 = true)
      by (rewrite Forall_forall in N1; apply N1; apply list_elem_of_here).
    assert (Nx2 : nul_free x2 = true)
      by (rewrite Forall_forall in N2; apply N2; apply list_elem_of_here).
    apply (strcmp_eq x1 x2 Nx1 Nx2) in Hname. subst x2.
    rewrite Hx1 in Hk1. rewrite Hx2 in Hk2.
    apply Hne. apply (sorted_index_inj comps c1 c2 (cs ++ [x1]) Hs Hk1 Hk2). }
  destruct Hsort as [sorted Hsorted].
  exists (<[start := set_children sorted e']> st_f).
  simpl. unfold entry_at at 1. rewrite He. simpl.
  rewrite (wrap32_small (d0 + base)) by lia.
  rewrite (proj2 (Z.eqb_eq _ _) En). simpl.
  fold st0. rewrite Hn. simpl. rewrite H1. simpl. fold st1.
  rewrite Hatt. simpl. unfold entry_at. rewrite He'. simpl.
  assert (Hassert : (Z.of_nat n_f =? n_children e') = true).
  { apply Z.eqb_eq. rewrite Hnc. simpl. simpl in Hcount. lia. }
  rewrite Hassert. simpl. rewrite Hsorted. reflexivity.
Qed.

Lemma compare_entries_runs (x y : entry) :
  c_string_components x -> c_string_components y ->
  components x <> components y -> exists q : Z, compare_entries x y = Ok q.
Proof.
  intros Fx Fy Hne.
  destruct (path_before_total _ _ Fx Fy) as [E|[H|H]]; [contradiction| |].
  - apply sorts_before_path in H as (q & Hq & _). eauto.
  - revert H. unfold path_before, compare_entries, n_components.
    rewrite (first_difference_antisym (components x) (components y)).
    destruct (first_difference (components x) (components y)); simpl; [eauto|].
    intros Hlen. destruct (_ =? _) eqn:E; [apply Z.eqb_eq in E; lia | eauto].
Qed.

Lemma NoDup_fmap_inj {A B : Type} (f : A -> B) (l : list A) (x y : A) :
  NoDup (f <$> l) -> x ∈ l -> y ∈ l -> f x = f y -> x = y.
Proof.
  intros Hnd Hx Hy Hf.
  apply list_elem_of_lookup in Hx as [i Hi]. apply list_elem_of_lookup in Hy as [j Hj].
  assert (Hi' : (f <$> l) !! i = Some (f x)) by (now rewrite list_lookup_fmap, Hi).
  assert (Hj' : (f <$> l) !! j = Some (f x)) by (now rewrite list_lookup_fmap, Hj, Hf).
  pose proof (NoDup_lookup _ i j (f x) Hnd Hi' Hj') as ->.
  rewrite Hi in Hj. now injection Hj.
Qed.

(** The sort completes when no path is listed twice. *)
Lemma qsort_entries_runs (table : list entry) :
  Forall c_string_components table -> NoDup (components <$> table) ->
  exists sorted : list entry, qsort compare_entries table = Ok sorted.
Proof.
  intros Fc Hnd. apply qsort_runs; [now apply (NoDup_fmap_1 components)|].
  intros x y Hx Hy Hne. rewrite Forall_forall in Fc.
  apply compare_entries_runs; [now apply Fc | now apply Fc|].
  intros Hc. apply Hne. now apply (NoDup_fmap_inj components table).
Qed.

Lemma ascending_sorted_paths (l : list entry) :
  ascending l -> sorted_by path_before (components <$> l).
Proof.
  intros Ha i j ci cj Hij Hi Hj.
  destruct (comps_lookup_inv l _ i ci eq_refl Hi) as (ei & Hei & <-).
  destruct (comps_lookup_inv l _ j cj eq_refl Hj) as (ej & Hej & <-).
  apply sorts_before_path. now apply (Ha i j).
Qed.

Lemma truncated_snoc_inv (e : entry) :
  components e <> [] ->
  exists x : string, components e = truncated e ++ [x].
Proof.
  intros Hne. unfold truncated.
  destruct (components e) as [|c l] eqn:Ec using rev_ind; [contradiction|].
  exists c. rewrite length_app. simpl.
  replace (length l + 1 - 1)%nat with (length l) by lia.
  now rewrite take_app_length.
Qed.

(** In a table that lists a tree every record extends the root. *)
Lemma lists_tree_rooted (table : list entry) (root : entry) :
  Forall parsed table -> root ∈ table ->
  (forall e : entry,
      e ∈ table -> components e <> components root ->
      exists p : entry, p ∈ table /\ components p = truncated e) ->
  forall e : entry, e ∈ table -> components root `prefix_of` components e.
Proof.
  intros Hp Hroot Hpar.
  assert (G : forall (n : nat) (e : entry),
             length (components e) = n -> e ∈ table ->
             components root `prefix_of` components e).
  { induction n as [n IH] using lt_wf_ind. intros e Hn He.
    destruct (decide (components e = components root)) as [->|Hne]; [reflexivity|].
    destruct (Hpar e He Hne) as (p & Hpin & Hpc).
    rewrite Forall_forall in Hp.
    destruct (Hp e He) as (_ & _ & _ & Hpos & _).
    destruct (truncated_snoc_inv e) as [x Hx].
    { intros Hnil. unfold n_components in Hpos. rewrite Hnil in Hpos. simpl in Hpos. lia. }
    rewrite Hx. apply prefix_app_r. rewrite <- Hpc.
    apply (IH (length (components p))); [|reflexivity|exact Hpin].
    rewrite <- Hn, Hx, Hpc, length_app. simpl. lia. }
  intros e He. now apply (G (length (components e))).
Qed.

(** Sorted, a table that lists a tree has the root first and every other
    record after its parent. *)
Lemma lists_tree_sorted (table sorted : list entry) :
  Forall parsed table -> lists_tree table ->
  sorted ≡ₚ table -> ascending sorted ->
  subtree_range (components <$> sorted) 0 (length sorted).
Proof.
  intros Hp (Hnd & root & Hroot & Hpar) Hperm Hasc k ck Hk Hck.
  pose proof (ascending_sorted_paths sorted Hasc) as Hs.
  destruct (comps_lookup_inv sorted _ k ck eq_refl Hck) as (ek & Hek & <-).
  assert (Hek_in : ek ∈ table).
  { rewrite <- Hperm. eapply list_elem_of_lookup_2. exact Hek. }
  assert (Hroot_in : root ∈ sorted) by (now rewrite Hperm).
  apply list_elem_of_lookup in Hroot_in as [r Hr].
  assert (Hr0 : r = 0%nat).
  { destruct (lookup_lt_is_Some_2 sorted 0%nat ltac:(lia)) as [e0 He0].
    assert (He0_in : e0 ∈ table).
    { rewrite <- Hperm. eapply list_elem_of_lookup_2. exact He0. }
    pose proof (lists_tree_rooted table root Hp Hroot Hpar e0 He0_in) as Hpre.
    pose proof (sorted_prefix_index (components <$> sorted) r 0 _ _ Hs
                  (comps_lookup sorted _ r root eq_refl Hr)
                  (comps_lookup sorted _ 0%nat e0 eq_refl He0) Hpre). lia. }
  subst r.
  assert (Hne : components ek <> components root).
  { intros Hc.
    pose proof (sorted_index_inj (components <$> sorted) k 0 (components ek) Hs
                  (comps_lookup sorted _ k ek eq_refl Hek)) as Hinj.
    rewrite Hc in Hinj. specialize (Hinj (comps_lookup sorted _ 0%nat root eq_refl Hr)).
    lia. }
  destruct (Hpar ek Hek_in Hne) as (p & Hpin & Hpc).
  rewrite <- Hperm in Hpin. apply list_elem_of_lookup in Hpin as [pi Hpi].
  rewrite Forall_forall in Hp.
  destruct (Hp ek Hek_in) as (_ & _ & _ & Hpos & _).
  destruct (truncated_snoc_inv ek) as [x Hx].
  { intros Hnil. unfold n_components in Hpos. rewrite Hnil in Hpos. simpl in Hpos. lia. }
  exists pi, (components p), x.
  pose proof (comps_lookup sorted _ pi p eq_refl Hpi) as Hpl.
  split; [|split; [exact Hpl | now rewrite Hpc]].
  split; [lia|].
  assert (Hle : (pi <= k)%nat).
  { apply (sorted_prefix_index (components <$> sorted) pi k (components p) (components ek)
             Hs Hpl (comps_lookup sorted _ k ek eq_refl Hek)).
    rewrite Hx, Hpc. now exists [x]. }
  destruct (decide (pi = k)) as [->|Hnk]; [|lia].
  rewrite Hek in Hpi. injection Hpi as <-.
  rewrite Hx in Hpc at 1. apply (f_equal length) in Hpc.
  rewrite length_app in Hpc. simpl in Hpc. lia.
Qed.

Lemma preorder_run_completes (table : list entry) (fuel : nat) :
  Forall parsed table -> table <> [] -> Z.of_nat (length table) < 2 ^ 32 ->
  lists_tree table -> (length table <= fuel)%nat ->
  exists (sorted : list entry) (e0 : entry) (st' : list entry),
    qsort compare_entries table = Ok sorted /\ entry_at sorted 0 = Ok e0 /\
    (n_components e0 =? 0) = false /\
    build_tree_preorder (n_components e0) fuel sorted 0 (length table) 0 = Ok st'.
Proof.
  intros Hp Hne Hsmall Htree Hfuel.
  destruct (qsort_entries_runs table (parsed_c_string_components table Hp) (proj1 Htree))
    as [sorted Hs].
  pose proof (qsort_ascending table sorted (parsed_c_string_components table Hp) Hs) as Hasc.
  pose proof (qsort_Permutation _ _ _ Hs) as Hperm.
  pose proof (Forall_parsed_sorted _ _ Hp Hs) as Hps.
  pose proof (Permutation_length Hperm) as Hlen.
  assert (Hne' : sorted <> []).
  { intros ->. apply Permutation_nil_r in Hperm. contradiction. }
  destruct (lookup_lt_is_Some_2 sorted 0%nat) as [e0 He0].
  { destruct sorted; [contradiction | simpl; lia]. }
  assert (H0 : entry_at sorted 0 = Ok e0) by (unfold entry_at; now rewrite He0).
  pose proof (parsed_first_after_sort _ _ _ Hp Hs H0) as Hnz.
  exists sorted, e0.
  pose proof (parsed_build_pre sorted Hne' Hps) as Hpre.
  destruct (build_tree_preorder_runs (components <$> sorted) (n_components e0)
              ltac:(unfold n_components; lia)
              (ascending_sorted_paths sorted Hasc) (proj2 (proj2 Hpre))
              ltac:(rewrite length_fmap; lia) fuel sorted 0%nat (length sorted) 0)
    as [st' Hst'].
  - split; [exact Hpre|]. split; [reflexivity|]. split; [lia|]. split.
    + exists (components e0).
      split; [now apply (comps_lookup sorted _ 0%nat e0) | reflexivity].
    + apply (lists_tree_sorted table); [assumption..|now symmetry|assumption].
  - lia.
  - exists st'. rewrite Hlen. repeat split; assumption.
Qed.

(** X20. The pre-order variant completes on every input that lists a
    tree: when no path is listed twice and every record but one has its
    parent in the table, the sort, the builder and with them the run
    return, with no diagnostic, no failed assertion and no access outside
    an object. *)
Theorem preorder_variant_completes_on_trees :
  (forall table : list entry,
      Forall parsed table -> table <> [] -> Z.of_nat (length table) < 2 ^ 32 ->
      lists_tree table ->
      exists (sorted : list entry) (e0 : entry) (st' : list entry),
        qsort compare_entries table = Ok sorted /\ sorted !! 0%nat = Some e0 /\
        build_tree_preorder (n_components e0) (length table) sorted 0 (length table) 0
        = Ok st') /\
  (forall (FILE : Type) (len : Z) (path_get : Z -> FILE -> bool -> Z * string * FILE)
          (fuel : nat) (zeroflag : bool) (inf : FILE) (table : list entry) (log : list Z),
      Duvis.read_entries FILE len path_get fuel inf zeroflag [] 0 [] = Ok (table, log) ->
      Z.of_nat (length table) < 2 ^ 32 -> lists_tree table ->
      exists r : run, Duvis.main FILE len path_get fuel true zeroflag inf = Ok r) /\
  (forall (junk : ascii) (fuel : nat) (stdin : string) (table : list entry),
      Rev0.read_entries junk (S (String.length stdin)) stdin [] 0 = Ok table ->
      Z.of_nat (length table) < 2 ^ 32 -> lists_tree table ->
      (length table <= fuel)%nat ->
      exists r : run, Rev0.main junk fuel true stdin = Ok r).
Proof.
  split; [|split].
  - intros table Hp Hne Hsmall Htree.
    destruct (preorder_run_completes table (length table) Hp Hne Hsmall Htree (le_n _))
      as (sorted & e0 & st' & Hs & H0 & _ & Hb).
    exists sorted, e0, st'. apply entry_at_Ok in H0. repeat split; assumption.
  - intros FILE len path_get fuel zeroflag inf table log Hread Hsmall Htree.
    pose proof (Duvis_read_entries_parsed _ _ _ _ _ _ _ _ _ _ (Forall_nil_2 _) Hread) as Hp.
    simpl in Hp. unfold Duvis.main. rewrite Hread. simpl.
    destruct (length table =? 0)%nat eqn:E0; [eauto|].
    apply Nat.eqb_neq in E0.
    destruct (preorder_run_completes table (length table) Hp) as
      (sorted & e0 & st' & Hs & H0 & Hnz & Hb); try assumption; try lia.
    { intros ->. simpl in E0. lia. }
    rewrite Hs. simpl. rewrite H0. simpl. rewrite Hnz, Hb. simpl. eauto.
  - intros junk fuel stdin table Hread Hsmall Htree Hfuel.
    pose proof (Rev0_read_entries_parsed _ _ _ _ _ _ (Forall_nil_2 _) Hread) as Hp.
    unfold Rev0.main. rewrite Hread. simpl.
    destruct (length table =? 0)%nat eqn:E0; [eauto|].
    apply Nat.eqb_neq in E0. simpl.
    destruct (preorder_run_completes table fuel Hp) as
      (sorted & e0 & st' & Hs & H0 & Hnz & Hb); try assumption; try lia.
    { intros ->. simpl in E0. lia. }
    rewrite Hs. simpl. rewrite H0. simpl. rewrite Hnz, Hb. simpl. eauto.
Qed.

Lemma preorder_variant_completes_on_trees_witness :
  exists (sorted : list entry) (e0 : entry) (st' : list entry),
    qsort compare_entries
      [mkEntry 60 ["a"; "y"]%string None 0 0 [];
       mkEntry 100 ["a"%string] None 0 0 [];
       mkEntry 40 ["a"; "x"]%string None 0 0 []] = Ok sorted /\
    sorted !! 0%nat = Some e0 /\
    build_tree_preorder (n_components e0) 3 sorted 0 3 0 = Ok st'.
Proof.
  apply (proj1 preorder_variant_completes_on_trees
           [mkEntry 60 ["a"; "y"]%string None 0 0 [];
            mkEntry 100 ["a"%string] None 0 0 [];
            mkEntry 40 ["a"; "x"]%string None 0 0 []]).
  - repeat constructor.
  - discriminate.
  - simpl. lia.
  - split.
    + apply (bool_decide_unpack _). vm_compute. exact I.
    + exists (mkEntry 100 ["a"%string] None 0 0 []). split.
      * apply list_elem_of_further, list_elem_of_here.
      * intros e He Hne. exists (mkEntry 100 ["a"%string] None 0 0 []).
        split; [apply list_elem_of_further, list_elem_of_here|].
        apply elem_of_cons in He as [->|He]; [reflexivity|].
        apply elem_of_cons in He as [->|He]; [contradiction|].
        apply elem_of_cons in He as [->|He]; [reflexivity|].
        inversion He.
Defined.

(** * From the text of the input to the listing *)

Lemma tree_line_ext (base : Z) (e e' : entry) :
  components e' = components e -> size e' = size e ->
  tree_line base e' = tree_line base e.
Proof.
  intros Hc Hs. unfold tree_line, n_components, path_of, name_of, size_field.
  now rewrite Hc, Hs.
Qed.

Lemma tree_line_fmap (base : Z) (st st' : list entry) :
  components <$> st' = components <$> st -> size <$> st' = size <$> st ->
  tree_line base <$> st' = tree_line base <$> st.
Proof.
  intros Hc Hs. apply list_eq. intros k. rewrite !list_lookup_fmap.
  destruct (st' !! k) as [e'|] eqn:E'; destruct (st !! k) as [e|] eqn:E; simpl.
  - f_equal. apply tree_line_ext.
    + now apply (components_same st st' k).
    + now apply (size_same st st' k).
  - apply lookup_lt_Some in E'. apply lookup_ge_None in E.
    rewrite (fmap_components_length _ _ Hc) in E'. lia.
  - apply lookup_lt_Some in E. apply lookup_ge_None in E'.
    rewrite (fmap_components_length _ _ Hc) in E'. lia.
  - reflexivity.
Qed.

Lemma lists_tree_first (table sorted : list entry) (e0 : entry) :
  Forall parsed table -> lists_tree table ->
  sorted ≡ₚ table -> ascending sorted -> sorted !! 0%nat = Some e0 ->
  forall e : entry, e ∈ table -> components e0 `prefix_of` components e.
Proof.
  intros Hp (Hnd & root & Hroot & Hpar) Hperm Hasc He0.
  pose proof (ascending_sorted_paths sorted Hasc) as Hs.
  assert (Hroot_in : root ∈ sorted) by (now rewrite Hperm).
  apply list_elem_of_lookup in Hroot_in as [r Hr].
  assert (He0_in : e0 ∈ table).
  { rewrite <- Hperm. eapply list_elem_of_lookup_2. exact He0. }
  pose proof (lists_tree_rooted table root Hp Hroot Hpar e0 He0_in) as Hpre.
  pose proof (sorted_prefix_index (components <$> sorted) r 0 _ _ Hs
                (comps_lookup sorted _ r root eq_refl Hr)
                (comps_lookup sorted _ 0%nat e0 eq_refl He0) Hpre) as Hr0.
  assert (r = 0%nat) as -> by lia.
  rewrite He0 in Hr. injection Hr as <-.
  now apply (lists_tree_rooted table e0 Hp Hroot Hpar).
Qed.

(** X21. From the text to the listing, for the earlier revision: when the
    lines of the input fit the line buffer and parse, and the records list
    a tree, the pre-order run completes and [show_entries] writes one line
    for each line of the input: first the path and the size of the root,
    the record of which all the others are extensions, and for every other
    record two spaces for each component beyond the root's, its last
    component and its size. *)
Theorem Rev0_prints_the_tree (junk : ascii) (lines : list string) (last : string)
    (table : list entry) :
  Forall fits_buffer lines -> fits_buffer last ->
  Forall2 record_of (lines ++ last_line last) table ->
  table <> [] -> lists_tree table -> Z.of_nat (length table) < 2 ^ 32 ->
  exists (r : run) (root : entry) (out : list string),
    Rev0.main junk (length table) true (unlines lines last) = Ok r /\
    root ∈ table /\ run_base_depth r = n_components root /\
    (forall e : entry, e ∈ table -> components root `prefix_of` components e) /\
    show_entries (run_base_depth r) (entries r) (length (entries r)) 0 = Ok out /\
    out ≡ₚ tree_line (n_components root) <$> table /\
    out !! 0%nat = Some (String.append (path_of root) (size_field root)).
Proof.
  intros Hfit Hlast Hrec Hne Htree Hsmall.
  assert (Hread : Rev0.read_entries junk (S (String.length (unlines lines last)))
                    (unlines lines last) [] 0 = Ok table).
  { apply (Rev0_read_entries_lines junk last Hlast lines _ [] 0 table Hfit).
    - pose proof (unlines_length_last lines last). lia.
    - exists table. split; [reflexivity | exact Hrec]. }
  pose proof (Rev0_read_entries_parsed _ _ _ _ _ _ (Forall_nil_2 _) Hread) as Hp.
  destruct (preorder_run_completes table (length table) Hp Hne Hsmall Htree (le_n _))
    as (sorted & e0 & st' & Hs & H0 & Hnz & Hb).
  pose proof (qsort_Permutation _ _ _ Hs) as Hperm.
  pose proof (qsort_ascending table sorted (parsed_c_string_components table Hp) Hs) as Hasc.
  pose proof H0 as H0'. apply entry_at_Ok in H0'.
  assert (Hb' : build_tree_preorder (n_components e0) (length table) sorted 0
                  (length sorted) 0 = Ok st')
    by (now rewrite <- (Permutation_length Hperm)).
  destruct (preorder_run_well_built _ _ _ _ _ Hp Hs H0' Hb') as [Hpos Hw].
  destruct (show_entries_well_built (n_components e0) st' Hpos Hw)
    as (out & e0' & Hout & Hlines & He0' & Hfirst).
  assert (Hne' : sorted <> []) by (intros ->; discriminate).
  destruct (build_tree_preorder_structure _ _ _ _ Hne' (Forall_parsed_sorted _ _ Hp Hs) Hb')
    as ((Hcomp & Hsize) & _).
  exists (mkRun st' (Some 0%nat) (n_components e0) []), e0, out. simpl.
  split.
  { unfold Rev0.main. rewrite Hread. simpl.
    destruct (length table =? 0)%nat eqn:E0.
    { apply Nat.eqb_eq in E0. destruct table; [contradiction | discriminate]. }
    simpl. rewrite Hs. simpl. rewrite H0. simpl. rewrite Hnz, Hb. reflexivity. }
  split; [rewrite Hperm; eapply list_elem_of_lookup_2; exact H0'|].
  split; [reflexivity|].
  split; [now apply (lists_tree_first table sorted)|].
  split; [exact Hout|].
  split.
  { rewrite Hlines, (tree_line_fmap _ sorted st' Hcomp Hsize).
    apply fmap_Permutation. now symmetry. }
  rewrite Hfirst. f_equal.
  unfold path_of, size_field.
  rewrite (components_same sorted st' 0%nat e0 e0' Hcomp H0' He0').
  now rewrite (size_same sorted st' 0%nat e0 e0' Hsize H0' He0').
Qed.

Lemma Rev0_prints_the_tree_witness :
  exists (r : run) (root : entry) (out : list string),
    Rev0.main "x"%char 3 true (unlines ["60 a/y"; "100 a"]%string "40 a/x") = Ok r /\
    root ∈ [mkEntry 60 ["a"; "y"]%string None 0 0 [];
            mkEntry 100 ["a"%string] None 0 0 [];
            mkEntry 40 ["a"; "x"]%string None 0 0 []] /\
    run_base_depth r = n_components root /\
    (forall e : entry,
        e ∈ [mkEntry 60 ["a"; "y"]%string None 0 0 [];
             mkEntry 100 ["a"%string] None 0 0 [];
             mkEntry 40 ["a"; "x"]%string None 0 0 []] ->
        components root `prefix_of` components e) /\
    show_entries (run_base_depth r) (entries r) (length (entries r)) 0 = Ok out /\
    out ≡ₚ tree_line (n_components root) <$>
             [mkEntry 60 ["a"; "y"]%string None 0 0 [];
              mkEntry 100 ["a"%string] None 0 0 [];
              mkEntry 40 ["a"; "x"]%string None 0 0 []] /\
    out !! 0%nat = Some (String.append (path_of root) (size_field root)).
Proof.
  apply (Rev0_prints_the_tree "x"%char ["60 a/y"; "100 a"]%string "40 a/x"
           [mkEntry 60 ["a"; "y"]%string None 0 0 [];
            mkEntry 100 ["a"%string] None 0 0 [];
            mkEntry 40 ["a"; "x"]%string None 0 0 []]).
  - constructor; [fits_buffer_by_computation|].
    constructor; [fits_buffer_by_computation|constructor].
  - fits_buffer_by_computation.
  - constructor; [intros k; reflexivity|].
    constructor; [intros k; reflexivity|].
    constructor; [intros k; reflexivity|constructor].
  - discriminate.
  - split.
    + apply (bool_decide_unpack _). vm_compute. exact I.
    + exists (mkEntry 100 ["a"%string] None 0 0 []). split.
      * apply list_elem_of_further, list_elem_of_here.
      * intros e He Hne. exists (mkEntry 100 ["a"%string] None 0 0 []).
        split; [apply list_elem_of_further, list_elem_of_here|].
        apply elem_of_cons in He as [->|He]; [reflexivity|].
        apply elem_of_cons in He as [->|He]; [contradiction|].
        apply elem_of_cons in He as [->|He]; [reflexivity|].
        inversion He.
  - simpl. lia.
Defined.

(** * The post-order builder of the earlier revision links no child *)

Lemma Rev0_postorder_walk_passes (i : nat) (offset : Z) :
  forall (steps : nat) (st : list entry) (j0 : nat) (st' : list entry) (j : nat),
    (i < j0)%nat ->
    Rev0.postorder_walk st i offset j0 steps = Ok (st', j) ->
    (j0 <= j <= j0 + steps)%nat /\
    components <$> st' = components <$> st /\
    walk_passes (components <$> st) i offset j0 j /\
    (j = j0 -> st' = st).
Proof.
  induction steps as [|steps IH]; intros st j0 st' j Hij H; simpl in H.
  - injection H as <- <-. split; [lia|]. split; [reflexivity|].
    split; [intros k Hk; lia | reflexivity].
  - bind_inv H as ej Hej. apply entry_at_Ok in Hej.
    destruct (n_components ej <? wrap32 (offset - 1)) eqn:En; simpl in H.
    2:{ injection H as <- <-. split; [lia|]. split; [reflexivity|].
        split; [intros k Hk; lia | reflexivity]. }
    apply Z.ltb_lt in En.
    bind_inv H as ei Hei. apply entry_at_Ok in Hei.
    bind_inv H as ci Hci. apply component_at_Ok in Hci as [Hoff Hci].
    bind_inv H as cj Hcj. apply component_at_Ok in Hcj as [_ Hcj].
    destruct (strcmp ci cj =? 0) eqn:Es.
    { injection H as <- <-. split; [lia|]. split; [reflexivity|].
      split; [intros k Hk; lia | reflexivity]. }
    apply Z.eqb_neq in Es.
    bind_inv H as st1 H1. apply update_entry_Ok in H1 as (ej' & Hej' & ->).
    rewrite Hej in Hej'. injection Hej' as <-.
    apply IH in H as (Hr & Hc & Hp & _); [|lia].
    assert (Hc1 : components <$> <[j0 := set_n_children (wrap32 (n_children ej + 1)) ej]> st
                  = components <$> st)
      by (now apply (fmap_components_insert st j0 ej)).
    split; [lia|]. split; [now rewrite Hc, Hc1|]. split; [|lia].
    intros k Hk. destruct (decide (k = j0)) as [->|Hne].
    + exists (components ei), (components ej), ci, cj.
      repeat split; try assumption.
      * now apply (comps_lookup st _ i ei).
      * now apply (comps_lookup st _ j0 ej).
    + rewrite <- Hc1. apply Hp. lia.
Qed.

(** The same walk, on any table with the same component sequences, passes
    the same records. *)
Lemma Rev0_postorder_walk_replay (comps : list (list string)) (i : nat) (offset : Z) :
  forall (steps : nat) (st : list entry) (j0 : nat),
    components <$> st = comps -> (i < j0)%nat ->
    walk_passes comps i offset j0 (j0 + steps) ->
    exists st' : list entry,
      Rev0.postorder_walk st i offset j0 steps = Ok (st', (j0 + steps)%nat) /\
      components <$> st' = comps.
Proof.
  induction steps as [|steps IH]; intros st j0 Hc Hij Hp.
  - exists st. simpl. rewrite Nat.add_0_r. split; [reflexivity | exact Hc].
  - destruct (Hp j0 ltac:(lia)) as (ci & cj & x & y & Hci & Hcj & Hn & Hoff & Hx & Hy & Hs).
    destruct (comps_lookup_inv st comps i ci Hc Hci) as (ei & Hei & Heci).
    destruct (comps_lookup_inv st comps j0 cj Hc Hcj) as (ej & Hej & Hecj).
    simpl. unfold entry_at. rewrite Hej. simpl.
    assert (En : (n_components ej <? wrap32 (offset - 1)) = true).
    { apply Z.ltb_lt. unfold n_components. now rewrite Hecj. }
    rewrite En. simpl. rewrite Hei. simpl.
    unfold component_at.
    destruct (offset <? 0) eqn:E0; [apply Z.ltb_lt in E0; lia|].
    rewrite Heci, Hx, Hecj, Hy. simpl.
    destruct (strcmp x y =? 0) eqn:Es; [apply Z.eqb_eq in Es; contradiction|].
    unfold update_entry. rewrite Hej. simpl.
    destruct (IH (<[j0 := set_n_children (wrap32 (n_children ej + 1)) ej]> st) (S j0))
      as (st' & Hw & Hc').
    + now rewrite (fmap_components_insert st j0 ej).
    + lia.
    + intros k Hk. apply Hp. lia.
    + exists st'. replace (j0 + S steps)%nat with (S j0 + steps)%nat by lia.
      split; assumption.
Qed.

(** Once the walk has passed a record, the recursive call never returns:
    it repeats the walk and calls itself on the same range. *)
Lemma Rev0_postorder_recursion_never_returns (comps : list (list string)) (i j : nat) :
  (S i < j)%nat ->
  forall (fuel : nat) (st : list entry) (d : Z) (st' : list entry),
    components <$> st = comps ->
    (forall ci : list string,
        comps !! i = Some ci ->
        walk_passes comps i (wrap32 (Z.of_nat (length ci) - 1)) (S i) j) ->
    Rev0.build_tree_postorder fuel st i j d <> Ok st'.
Proof.
  intros Hij. induction fuel as [|fuel IH]; intros st d st' Hc Hp H; [discriminate|].
  simpl in H. bind_inv H as st0 H0. apply update_entry_Ok in H0 as (e & He & ->).
  replace (j - i)%nat with (S (j - S i)) in H by lia.
  simpl in H. destruct (j <=? i)%nat eqn:E; [apply Nat.leb_le in E; lia|].
  bind_inv H as st1 H1. apply update_entry_Ok in H1 as (e1 & He1 & ->).
  bind_inv H as ei Hei. apply entry_at_Ok in Hei.
  bind_inv H as w Hw. bind_inv H as st2 H2.
  set (sta := <[S i := set_n_children 0 (set_depth (wrap32 (d - 1)) e1)]>
                (<[i := set_depth d e]> st)) in *.
  assert (Hca : components <$> sta = comps).
  { unfold sta. rewrite (fmap_components_insert _ (S i) e1); [|exact He1|reflexivity].
    now rewrite (fmap_components_insert st i e). }
  pose proof (comps_lookup sta comps i ei Hca Hei) as Hci.
  specialize (Hp (components ei) Hci).
  change (Z.of_nat (length (components ei))) with (n_components ei) in Hp.
  destruct (Rev0_postorder_walk_replay comps i (wrap32 (n_components ei - 1))
              (j - S i) sta (S i) Hca ltac:(lia)) as (stw & Hw' & Hcw).
  { replace (S i + (j - S i))%nat with j by lia. exact Hp. }
  rewrite Hw' in Hw. injection Hw as <-. cbn [fst snd] in H2.
  replace (S (i + (j - S i)))%nat with j in H2 by lia.
  apply Nat.ltb_lt in Hij as Hij'. rewrite Hij' in H2.
  bind_inv H2 as ej Hej.
  apply (IH stw (wrap32 (n_components ej - 1)) st2 Hcw); [|exact H2].
  intros ci' Hci'. rewrite Hci in Hci'. injection Hci' as <-. exact Hp.
Qed.

Lemma childless_insert (st : list entry) (k : nat) (e : entry) :
  Forall childless st -> childless e -> Forall childless (<[k := e]> st).
Proof.
  intros Hst He. apply Forall_lookup. intros n x Hx.
  destruct (decide (n = k)) as [->|Hne].
  - apply list_lookup_insert_Some in Hx as [(_ & <- & _)|(Hne & _)];
      [exact He | contradiction].
  - rewrite list_lookup_insert_ne in Hx by (intros ->; contradiction).
    rewrite Forall_lookup in Hst. now apply (Hst n).
Qed.

Lemma Rev0_postorder_loop_links_nothing (fuel' : nat) :
  forall (fuel : nat) (st : list entry) (end_ : nat) (depth : Z) (i : nat)
         (st' : list entry),
    Forall childless st ->
    Rev0.postorder_loop (Rev0.build_tree_postorder fuel') fuel st end_ depth i = Ok st' ->
    Forall childless st'.
Proof.
  induction fuel as [|fuel IH]; intros st end_ d0 i st' Hst H; simpl in H.
  - destruct (end_ <=? i)%nat; [now injection H as <- | discriminate].
  - destruct (end_ <=? i)%nat; [now injection H as <-|].
    bind_inv H as st0 H0. apply update_entry_Ok in H0 as (e1 & He1 & ->).
    bind_inv H as ei Hei. apply entry_at_Ok in Hei.
    bind_inv H as w Hw. destruct w as [stw j].
    apply Rev0_postorder_walk_passes in Hw as (Hr & Hc & Hp & Hsame); [|lia].
    bind_inv H as st2 H2. cbn [fst snd] in *.
    assert (Hst0 : Forall childless
                     (<[S i := set_n_children 0 (set_depth (wrap32 (d0 - 1)) e1)]> st)).
    { apply childless_insert; [exact Hst|].
      rewrite Forall_lookup in Hst. destruct (Hst (S i) e1 He1) as [Hch _].
      split; [exact Hch | reflexivity]. }
    destruct (S i <? j)%nat eqn:Esub.
    { exfalso. apply Nat.ltb_lt in Esub. bind_inv H2 as ej Hej.
      apply (Rev0_postorder_recursion_never_returns (components <$> stw) i j Esub
               fuel' stw (wrap32 (n_components ej - 1)) st2 eq_refl); [|exact H2].
      intros ci Hci. rewrite Hc in Hci |- *.
      rewrite (comps_lookup _ _ i ei eq_refl Hei) in Hci. injection Hci as <-.
      exact Hp. }
    apply Nat.ltb_ge in Esub. assert (j = S i) as -> by lia.
    rewrite (Hsame eq_refl) in H2. injection H2 as <-.
    bind_inv H as ej Hej. apply entry_at_Ok in Hej.
    replace (S i - 1 - i)%nat with 0%nat in H by lia.
    cbn [Rev0.fill_children] in H. bind_inv H as f Hf. injection Hf as <-.
    bind_inv H as ej' Hej'. apply entry_at_Ok in Hej'. cbn [fst snd] in *.
    rewrite list_lookup_insert_eq in Hej' by (now apply lookup_lt_Some in Hej).
    injection Hej' as <-.
    destruct (negb (Z.of_nat 0 =? n_children (alloc_children (n_children ej) ej)));
      [discriminate|].
    apply IH in H; [exact H|].
    apply childless_insert; [exact Hst0|].
    rewrite Forall_lookup in Hst0. destruct (Hst0 (S i) ej Hej) as [_ Hn].
    split; [reflexivity | exact Hn].
Qed.

Lemma Rev0_build_tree_postorder_links_nothing (fuel : nat) (st : list entry)
    (start end_ : nat) (depth : Z) (st' : list entry) :
  Forall childless st ->
  Rev0.build_tree_postorder fuel st start end_ depth = Ok st' ->
  Forall childless st'.
Proof.
  intros Hst H. destruct fuel as [|fuel]; [discriminate|]. simpl in H.
  bind_inv H as st0 H0. apply update_entry_Ok in H0 as (e & He & ->).
  apply Rev0_postorder_loop_links_nothing in H; [exact H|].
  apply childless_insert; [exact Hst|].
  rewrite Forall_lookup in Hst. exact (Hst start e He).
Qed.

(** X22. The post-order builder of the earlier revision links no child.
    Once its inner loop has passed a record, the recursive call repeats the
    same walk and calls itself on the same range, so it never returns; a
    call that returns has therefore stored no pointer and counted no child:
    on a table without children it leaves a table without children.  A
    completed run of the earlier post-order variant leaves every record
    childless. *)
Theorem Rev0_postorder_links_no_child :
  (forall (fuel : nat) (st : list entry) (start end_ : nat) (depth : Z)
          (st' : list entry),
      Forall childless st ->
      Rev0.build_tree_postorder fuel st start end_ depth = Ok st' ->
      Forall childless st') /\
  (forall (junk : ascii) (fuel : nat) (stdin : string) (r : run),
      Rev0.main junk fuel false stdin = Ok r -> Forall childless (entries r)).
Proof.
  split; [exact Rev0_build_tree_postorder_links_nothing|].
  intros junk fuel stdin r H. unfold Rev0.main in H.
  bind_inv H as table Ht.
  pose proof (Rev0_read_entries_parsed _ _ _ _ _ _ (Forall_nil_2 _) Ht) as Hp.
  assert (Hch : Forall childless table).
  { eapply Forall_impl; [exact Hp|]. intros e (Hn & Hc & _). split; assumption. }
  destruct (length table =? 0)%nat.
  - injection H as <-. exact Hch.
  - simpl in H. bind_inv H as e He. bind_inv H as e0 He0. bind_inv H as built Hb.
    injection H as <-. simpl.
    now apply (Rev0_build_tree_postorder_links_nothing _ _ _ _ _ _ Hch Hb).
Qed.

Lemma Rev0_postorder_links_no_child_witness :
  Forall childless
    [mkEntry 40 ["a"; "x"]%string (Some 1) 0 0 [];
     mkEntry 100 ["a"%string] (Some 0) 0 0 []].
Proof.
  apply (proj1 Rev0_postorder_links_no_child 10%nat
           [mkEntry 40 ["a"; "x"]%string None 0 0 [];
            mkEntry 100 ["a"%string] None 0 0 []] 0%nat 1%nat 1).
  - repeat constructor.
  - vm_compute. reflexivity.
Defined.

(** * The listing of the earlier post-order variant is flat *)

(** A turn of the loop that is followed by a return has passed no record:
    it has cleared the next record and gone on from it. *)
Lemma Rev0_postorder_loop_step (fuel' fuel : nat) (st : list entry) (end_ : nat)
    (d : Z) (i : nat) (st' : list entry) :
  (i < end_)%nat ->
  Rev0.postorder_loop (Rev0.build_tree_postorder fuel') (S fuel) st end_ d i = Ok st' ->
  exists e1 : entry,
    st !! S i = Some e1 /\
    Rev0.postorder_loop (Rev0.build_tree_postorder fuel') fuel
      (<[S i := flat_record (wrap32 (d - 1)) e1]> st) end_ d (S i) = Ok st'.
Proof.
  intros Hie H. simpl in H.
  destruct (end_ <=? i)%nat eqn:E; [apply Nat.leb_le in E; lia|].
  bind_inv H as st0 H0. apply update_entry_Ok in H0 as (e1 & He1 & ->).
  bind_inv H as ei Hei. apply entry_at_Ok in Hei.
  bind_inv H as w Hw. destruct w as [stw j].
  apply Rev0_postorder_walk_passes in Hw as (Hr & Hc & Hp & Hsame); [|lia].
  bind_inv H as st2 H2. cbn [fst snd] in *.
  destruct (S i <? j)%nat eqn:Esub.
  { exfalso. apply Nat.ltb_lt in Esub. bind_inv H2 as ej Hej.
    apply (Rev0_postorder_recursion_never_returns (components <$> stw) i j Esub
             fuel' stw (wrap32 (n_components ej - 1)) st2 eq_refl); [|exact H2].
    intros ci Hci. rewrite Hc in Hci |- *.
    rewrite (comps_lookup _ _ i ei eq_refl Hei) in Hci. injection Hci as <-.
    exact Hp. }
  apply Nat.ltb_ge in Esub. assert (j = S i) as -> by lia.
  rewrite (Hsame eq_refl) in H2. injection H2 as <-.
  bind_inv H as ej Hej. apply entry_at_Ok in Hej.
  assert (Hlt : (S i < length st)%nat) by (now apply lookup_lt_Some in He1).
  rewrite list_lookup_insert_eq in Hej by exact Hlt. injection Hej as <-.
  replace (S i - 1 - i)%nat with 0%nat in H by lia.
  cbn [Rev0.fill_children] in H. bind_inv H as f Hf. injection Hf as <-.
  bind_inv H as ej' Hej'. apply entry_at_Ok in Hej'. cbn [fst snd] in *.
  rewrite list_insert_insert_eq in H, Hej'.
  rewrite list_lookup_insert_eq in Hej' by exact Hlt. injection Hej' as <-.
  destruct (negb _) in H; [discriminate|].
  exists e1. split; [exact He1 | exact H].
Qed.

Lemma Rev0_postorder_loop_flat (fuel' : nat) :
  forall (fuel : nat) (st : list entry) (end_ : nat) (d : Z) (i : nat)
         (st' : list entry),
    Rev0.postorder_loop (Rev0.build_tree_postorder fuel') fuel st end_ d i = Ok st' ->
    forall k : nat,
      st' !! k
      = (fun e => if bool_decide (i < k <= end_)%nat
                  then flat_record (wrap32 (d - 1)) e else e) <$> st !! k.
Proof.
  induction fuel as [|fuel IH]; intros st end_ d i st' H k.
  - simpl in H. destruct (end_ <=? i)%nat eqn:E; [|discriminate].
    apply Nat.leb_le in E. injection H as <-.
    destruct (st !! k); [|reflexivity]. simpl.
    rewrite bool_decide_eq_false_2 by lia. reflexivity.
  - destruct (le_lt_dec end_ i) as [Hle|Hlt].
    + simpl in H. apply Nat.leb_le in Hle as E. rewrite E in H.
      injection H as <-. destruct (st !! k); [|reflexivity]. simpl.
      rewrite bool_decide_eq_false_2 by lia. reflexivity.
    + apply Rev0_postorder_loop_step in H as (e1 & He1 & H); [|exact Hlt].
      rewrite (IH _ _ _ _ _ H k).
      destruct (decide (k = S i)) as [->|Hne].
      * rewrite list_lookup_insert_eq by (now apply lookup_lt_Some in He1).
        rewrite He1. simpl.
        rewrite bool_decide_eq_false_2 by lia.
        rewrite bool_decide_eq_true_2 by lia. reflexivity.
      * rewrite list_lookup_insert_ne by (intros Heq; now apply Hne).
        destruct (st !! k); [|reflexivity]. simpl.
        destruct (decide (i < k <= end_)%nat) as [Hin|Hout].
        -- rewrite !bool_decide_eq_true_2 by lia. reflexivity.
        -- rewrite !bool_decide_eq_false_2 by lia. reflexivity.
Qed.

Lemma Rev0_build_tree_postorder_flat (fuel : nat) (st : list entry)
    (start end_ : nat) (d : Z) (st' : list entry) :
  Rev0.build_tree_postorder fuel st start end_ d = Ok st' ->
  forall k : nat,
    st' !! k
    = (fun e => if bool_decide (k = start) then set_depth d e
                else if bool_decide (start < k <= end_)%nat
                     then flat_record (wrap32 (d - 1)) e else e) <$> st !! k.
Proof.
  intros H k. destruct fuel as [|fuel]; [discriminate|]. simpl in H.
  bind_inv H as st0 H0. apply update_entry_Ok in H0 as (e & He & ->).
  rewrite (Rev0_postorder_loop_flat _ _ _ _ _ _ _ H k).
  destruct (decide (k = start)) as [->|Hne].
  - rewrite list_lookup_insert_eq by (now apply lookup_lt_Some in He).
    rewrite He. simpl. rewrite bool_decide_eq_false_2 by lia.
    rewrite bool_decide_eq_true_2 by reflexivity. reflexivity.
  - rewrite list_lookup_insert_ne by (intros Heq; now apply Hne).
    destruct (st !! k); [|reflexivity]. simpl.
    rewrite (bool_decide_eq_false_2 (k = start)) by exact Hne. reflexivity.
Qed.

Lemma flat_record_parsed (d : Z) (e : entry) :
  parsed e -> flat_record d e = set_depth d e.
Proof.
  intros (Hn & Hc & Hcap & _). destruct e as [s c dp n cap ch].
  simpl in Hn, Hc, Hcap. subst. reflexivity.
Qed.

(** [show_entries_raw] on a table whose depths are assigned. *)
Lemma show_entries_raw_depth_lines (st : list entry) :
  Forall (fun e => 0 < n_components e < 2 ^ 32 /\ depth e <> None) st ->
  forall (pre rest : list entry),
    st = pre ++ rest ->
    show_entries_raw st (length pre) (length rest) = Ok (depth_line <$> rest).
Proof.
  intros Hall pre rest. revert pre. induction rest as [|e rest IH]; intros pre Hst;
    [reflexivity|].
  assert (He : st !! length pre = Some e).
  { rewrite Hst, lookup_app_r, Nat.sub_diag by lia. reflexivity. }
  change (show_entries_raw st (length pre) (length (e :: rest)))
    with (let! e := entry_at st (length pre) in
          let! d := depth_at st (length pre) in
          let! c := component_at (length pre) e (wrap32 (n_components e - 1)) in
          let! rest := show_entries_raw st (S (length pre)) (length rest) in
          Ok (String.append (indent d) (String.append c (size_field e)) :: rest)).
  rewrite Forall_lookup in Hall. destruct (Hall _ e He) as [Hn Hd].
  unfold depth_at, entry_at. rewrite He. simpl bind.
  change ((depth_line <$> e :: rest))
    with (depth_line e :: (depth_line <$> rest)).
  unfold depth_line at 1.
  destruct (depth e) as [d0|]; [|contradiction]. simpl bind.
  rewrite component_at_last by exact Hn. simpl bind.
  replace (S (length pre)) with (length (pre ++ [e])) by (rewrite length_app; simpl; lia).
  rewrite (IH (pre ++ [e])) by (now rewrite <- app_assoc). reflexivity.
Qed.

(** X23. A completed run of the earlier post-order variant only assigns
    depths, and its listing is flat.  Whatever the paths are, the table is
    left in the order of the input with no child linked; the first record
    has the depth [n0 - 1], for [n0] the number of its components, and every
    other record the depth [n0 - 2] as a 32-bit unsigned number.
    [showEntriesNew] then returns and writes the records in that order, each
    indented by its depth and followed by its last component and its
    size. *)
Theorem Rev0_postorder_listing_is_flat (junk : ascii) (fuel : nat) (stdin : string)
    (r : run) :
  Rev0.main junk fuel false stdin = Ok r ->
  exists table : list entry,
    Rev0.read_entries junk (S (String.length stdin)) stdin [] 0 = Ok table /\
    entries r = flat_table table /\
    show_entries_raw (entries r) 0 (length (entries r))
    = Ok (depth_line <$> flat_table table).
Proof.
  intros H. unfold Rev0.main in H. bind_inv H as table Ht.
  exists table. split; [exact Ht|].
  pose proof (Rev0_read_entries_parsed _ _ _ _ _ _ (Forall_nil_2 _) Ht) as Hp.
  assert (Hflat : entries r = flat_table table).
  { destruct table as [|e0 rest]; [now injection H as <-|].
    simpl in H. bind_inv H as e He. bind_inv H as built Hb. injection H as <-. simpl entries.
    apply list_eq. intros k.
    rewrite (Rev0_build_tree_postorder_flat _ _ _ _ _ _ Hb k).
    unfold flat_table. rewrite list_lookup_imap.
    destruct ((e0 :: rest) !! k) as [ek|] eqn:Ek; [|reflexivity]. simpl.
    assert (Hn0 : 0 < n_components e0 < DU_COMPONENTS_MAX).
    { inversion Hp as [|? ? (_ & _ & _ & Hn & _) _]. exact Hn. }
    unfold DU_COMPONENTS_MAX, DU_PATH_MAX in Hn0.
    rewrite (wrap32_small (n_components e0 - 1)) by lia.
    destruct k as [|k].
    - rewrite bool_decide_eq_true_2 by reflexivity. reflexivity.
    - rewrite bool_decide_eq_false_2 by lia.
      apply lookup_lt_Some in Ek as Hk. simpl in Hk.
      rewrite bool_decide_eq_true_2 by (simpl; lia).
      rewrite Forall_lookup in Hp. rewrite (flat_record_parsed _ ek (Hp _ _ Ek)).
      simpl. do 3 f_equal. lia. }
  split; [exact Hflat|]. rewrite Hflat.
  apply (show_entries_raw_depth_lines (flat_table table)) with (pre := []);
    [|reflexivity].
  apply Forall_lookup. intros k e Hk. unfold flat_table in Hk.
  destruct table as [|e0 rest]; [discriminate|].
  rewrite list_lookup_imap in Hk.
  destruct ((e0 :: rest) !! k) as [ek|] eqn:Ek; [|discriminate].
  injection Hk as <-. rewrite Forall_lookup in Hp.
  destruct (Hp _ _ Ek) as (_ & _ & _ & Hn & _).
  unfold DU_COMPONENTS_MAX, DU_PATH_MAX in Hn. split; [|discriminate].
  change (n_components (set_depth (flat_depth (n_components e0) k) ek))
    with (n_components ek). lia.
Qed.

Lemma Rev0_postorder_listing_is_flat_witness :
  exists table : list entry,
    Rev0.read_entries "x"%char
      (S (String.length (unlines ["40 a/x"; "60 a/y"]%string "100 a")))
      (unlines ["40 a/x"; "60 a/y"]%string "100 a") [] 0 = Ok table /\
    entries (mkRun [mkEntry 40 ["a"; "x"]%string (Some 1) 0 0 [];
                    mkEntry 60 ["a"; "y"]%string (Some 0) 0 0 [];
                    mkEntry 100 ["a"%string] (Some 0) 0 0 []] None 1 [])
    = flat_table table /\
    show_entries_raw
      (entries (mkRun [mkEntry 40 ["a"; "x"]%string (Some 1) 0 0 [];
                       mkEntry 60 ["a"; "y"]%string (Some 0) 0 0 [];
                       mkEntry 100 ["a"%string] (Some 0) 0 0 []] None 1 []))
      0
      (length (entries (mkRun [mkEntry 40 ["a"; "x"]%string (Some 1) 0 0 [];
                               mkEntry 60 ["a"; "y"]%string (Some 0) 0 0 [];
                               mkEntry 100 ["a"%string] (Some 0) 0 0 []] None 1 [])))
    = Ok (depth_line <$> flat_table table).
Proof.
  apply (Rev0_postorder_listing_is_flat "x"%char 10
           (unlines ["40 a/x"; "60 a/y"]%string "100 a")).
  vm_compute. reflexivity.
Defined.

(** * The earlier post-order builder recursing without end *)

(** A turn of the loop whose walk has passed a record ends as the recursive
    call does. *)
Lemma Rev0_postorder_turn_recurses
    (rec : list entry -> nat -> nat -> Z -> outcome (list entry))
    (fuel : nat) (st : list entry) (end_ : nat) (d : Z) (i j : nat)
    (e1 ei ej : entry) (stw : list entry) :
  (i < end_)%nat -> (S i < j)%nat ->
  st !! S i = Some e1 ->
  <[S i := set_n_children 0 (set_depth (wrap32 (d - 1)) e1)]> st !! i = Some ei ->
  Rev0.postorder_walk (<[S i := set_n_children 0 (set_depth (wrap32 (d - 1)) e1)]> st)
    i (wrap32 (n_components ei - 1)) (S i) (end_ - S i) = Ok (stw, j) ->
  stw !! j = Some ej ->
  rec stw i j (wrap32 (n_components ej - 1)) = OutOfFuel ->
  Rev0.postorder_loop rec (S fuel) st end_ d i = OutOfFuel.
Proof.
  intros Hie Hij He1 Hei Hw Hej Hrec. simpl.
  destruct (end_ <=? i)%nat eqn:E; [apply Nat.leb_le in E; lia|].
  unfold update_entry at 1. rewrite He1. simpl bind.
  unfold entry_at at 1. rewrite Hei. simpl bind.
  rewrite Hw. simpl bind. cbn [fst snd].
  apply Nat.ltb_lt in Hij as Hij'. rewrite Hij'.
  unfold entry_at at 1. rewrite Hej. simpl bind. rewrite Hrec. reflexivity.
Qed.

Lemma Rev0_postorder_recursion_diverges (comps : list (list string)) (i j : nat) :
  (S i < j)%nat -> (j < length comps)%nat ->
  (forall ci : list string,
      comps !! i = Some ci ->
      walk_passes comps i (wrap32 (Z.of_nat (length ci) - 1)) (S i) j) ->
  forall (fuel : nat) (st : list entry) (d : Z),
    components <$> st = comps ->
    Rev0.build_tree_postorder fuel st i j d = OutOfFuel.
Proof.
  intros Hij Hj Hp. induction fuel as [|fuel IH]; intros st d Hc; [reflexivity|].
  assert (Hlen : length st = length comps) by (now rewrite <- Hc, length_fmap).
  destruct (lookup_lt_is_Some_2 st i ltac:(lia)) as [e He].
  destruct (lookup_lt_is_Some_2 st (S i) ltac:(lia)) as [e1 He1].
  simpl. unfold update_entry at 1. rewrite He. simpl bind.
  replace (j - i)%nat with (S (j - S i)) by lia.
  set (st0 := <[i := set_depth d e]> st).
  assert (He1' : st0 !! S i = Some e1).
  { unfold st0. rewrite list_lookup_insert_ne by lia. exact He1. }
  assert (Hc0 : components <$> st0 = comps).
  { unfold st0. now rewrite (fmap_components_insert st i e). }
  set (sta := <[S i := set_n_children 0 (set_depth (wrap32 (d - 1)) e1)]> st0).
  assert (Hca : components <$> sta = comps).
  { unfold sta. now rewrite (fmap_components_insert st0 (S i) e1). }
  assert (Hlena : length sta = length comps) by (now rewrite <- Hca, length_fmap).
  destruct (lookup_lt_is_Some_2 sta i ltac:(lia)) as [ei Hei].
  pose proof (comps_lookup sta comps i ei Hca Hei) as Hci.
  pose proof (Hp (components ei) Hci) as Hpi.
  change (Z.of_nat (length (components ei))) with (n_components ei) in Hpi.
  destruct (Rev0_postorder_walk_replay comps i (wrap32 (n_components ei - 1))
              (j - S i) sta (S i) Hca ltac:(lia)) as (stw & Hw & Hcw).
  { replace (S i + (j - S i))%nat with j by lia. exact Hpi. }
  replace (S i + (j - S i))%nat with j in Hw by lia.
  assert (Hlenw : length stw = length comps) by (now rewrite <- Hcw, length_fmap).
  destruct (lookup_lt_is_Some_2 stw j ltac:(lia)) as [ej Hej].
  apply (Rev0_postorder_turn_recurses _ _ st0 j d i j e1 ei ej stw);
    try assumption; try lia.
  now apply IH.
Qed.

(** From a record with one component the walk compares first components,
    which every record has: it returns. *)
Lemma Rev0_postorder_walk_runs (comps : list (list string)) (i : nat) :
  Forall (fun c : list string => c <> []) comps -> (i < length comps)%nat ->
  forall (steps : nat) (st : list entry) (j0 : nat),
    components <$> st = comps -> (j0 + steps <= length comps)%nat ->
    exists (st' : list entry) (j : nat),
      Rev0.postorder_walk st i 0 j0 steps = Ok (st', j).
Proof.
  intros Hne Hi. induction steps as [|steps IH]; intros st j0 Hc Hj.
  - exists st, j0. reflexivity.
  - assert (Hlen : length st = length comps) by (now rewrite <- Hc, length_fmap).
    destruct (lookup_lt_is_Some_2 st j0 ltac:(lia)) as [ej Hej].
    destruct (lookup_lt_is_Some_2 st i ltac:(lia)) as [ei Hei].
    simpl. unfold entry_at. rewrite Hej. simpl bind.
    destruct (negb _); [eauto|].
    rewrite Hei. simpl bind.
    rewrite Forall_lookup in Hne.
    pose proof (Hne _ _ (comps_lookup st comps i ei Hc Hei)) as Hni.
    pose proof (Hne _ _ (comps_lookup st comps j0 ej Hc Hej)) as Hnj.
    unfold component_at. simpl.
    destruct (components ei) as [|ci ?]; [contradiction|].
    destruct (components ej) as [|cj ?] eqn:Ecj; [contradiction|]. simpl.
    destruct (strcmp ci cj =? 0); [eauto|].
    unfold update_entry. rewrite Hej. simpl bind.
    apply IH; [|lia].
    rewrite (fmap_components_insert st j0 ej); [exact Hc | exact Hej | reflexivity].
Qed.

(** X24. The earlier post-order variant recurses without end on an input
    of three or more records whose first record has a single component
    and whose second record starts with another component: the walk of the
    first turn passes the second record, and the recursive call on the
    range walked repeats that walk and calls itself with the same range.
    No amount of fuel brings the run to an end, and it meets no diagnostic,
    no failed assertion and no access outside an object on the way. *)
Theorem Rev0_postorder_recurses_forever (junk : ascii) (stdin : string)
    (table : list entry) (e0 e1 : entry) (c0 c1 : string) :
  Rev0.read_entries junk (S (String.length stdin)) stdin [] 0 = Ok table ->
  (3 <= length table)%nat ->
  table !! 0%nat = Some e0 -> table !! 1%nat = Some e1 ->
  components e0 = [c0] -> components e1 !! 0%nat = Some c1 -> c0 <> c1 ->
  forall fuel : nat, Rev0.main junk fuel false stdin = OutOfFuel.
Proof.
  intros Hread Hlen H0 H1 Hc0 Hc1 Hne fuel.
  pose proof (Rev0_read_entries_parsed _ _ _ _ _ _ (Forall_nil_2 _) Hread) as Hp.
  unfold Rev0.main. rewrite Hread. simpl bind.
  destruct (length table =? 0)%nat eqn:E; [apply Nat.eqb_eq in E; lia|].
  simpl negb. cbv iota.
  destruct (lookup_lt_is_Some_2 table (length table - 1) ltac:(lia)) as [el Hel].
  unfold entry_at at 1. rewrite Hel. simpl bind.
  unfold entry_at at 1. rewrite H0. simpl bind.
  assert (Hn0 : n_components e0 = 1) by (unfold n_components; now rewrite Hc0).
  rewrite Hn0. change (wrap32 (1 - 1)) with 0.
  destruct fuel as [|fuel]; [reflexivity|].
  simpl Rev0.build_tree_postorder. unfold update_entry at 1. rewrite H0. simpl bind.
  set (st0 := <[0%nat := set_depth 0 e0]> table).
  assert (Hst0 : components <$> st0 = components <$> table).
  { unfold st0. now rewrite (fmap_components_insert table 0 e0). }
  assert (H1' : st0 !! 1%nat = Some e1).
  { unfold st0. rewrite list_lookup_insert_ne by lia. exact H1. }
  set (e1' := set_n_children 0 (set_depth (wrap32 (0 - 1)) e1)).
  set (sta := <[1%nat := e1']> st0).
  assert (Hsta : components <$> sta = components <$> table).
  { unfold sta. now rewrite (fmap_components_insert st0 1 e1). }
  assert (Hlena : length sta = length table).
  { rewrite <- (length_fmap components sta), Hsta. apply length_fmap. }
  assert (Hei : sta !! 0%nat = Some (set_depth 0 e0)).
  { unfold sta. rewrite list_lookup_insert_ne by lia.
    unfold st0. apply list_lookup_insert_eq. lia. }
  assert (He1a : sta !! 1%nat = Some e1').
  { unfold sta. apply list_lookup_insert_eq.
    unfold st0. rewrite length_insert. lia. }
  (* the walk of the first turn *)
  assert (Hwalk : exists (stw : list entry) (j : nat),
             Rev0.postorder_walk sta 0 0 1 (length table - 1 - 1) = Ok (stw, j) /\
             (2 <= j)%nat).
  { replace (length table - 1 - 1)%nat with (S (length table - 3)) by lia.
    set (stb := <[1%nat := set_n_children (wrap32 (n_children e1' + 1)) e1']> sta).
    assert (Hstb : components <$> stb = components <$> table).
    { unfold stb. now rewrite (fmap_components_insert sta 1 e1'). }
    destruct (Rev0_postorder_walk_runs (components <$> table) 0) with
      (steps := (length table - 3)%nat) (st := stb) (j0 := 2%nat)
      as (stw & j & Hw).
    - apply Forall_fmap. eapply Forall_impl; [exact Hp|].
      intros e (_ & _ & _ & Hn & _). unfold n_components in Hn.
      simpl. intros Hnil. rewrite Hnil in Hn. simpl in Hn. lia.
    - rewrite length_fmap. lia.
    - exact Hstb.
    - rewrite length_fmap. lia.
    - exists stw, j. split.
      + rewrite <- Hw. simpl Rev0.postorder_walk at 1.
        unfold entry_at at 1. rewrite He1a. simpl bind.
        rewrite Forall_lookup in Hp. destruct (Hp _ _ H1) as (_ & _ & _ & Hn1 & _).
        unfold DU_COMPONENTS_MAX, DU_PATH_MAX in Hn1.
        change (n_components e1') with (n_components e1).
        change (wrap32 (0 - 1)) with 4294967295.
        destruct (n_components e1 <? 4294967295) eqn:En;
          [|apply Z.ltb_ge in En; lia].
        simpl negb. cbv iota.
        unfold entry_at at 1. rewrite Hei. simpl bind.
        unfold component_at.
        change (components (set_depth 0 e0)) with (components e0).
        change (components e1') with (components e1).
        change (0 <? 0) with false. cbv iota.
        change (Z.to_nat 0) with 0%nat. rewrite Hc1, Hc0.
        change ([c0] !! 0%nat) with (Some c0). simpl bind.
        destruct (strcmp c0 c1 =? 0) eqn:Es.
        { exfalso. apply Z.eqb_eq in Es. apply Hne.
          apply strcmp_eq; [| |exact Es].
          - destruct (Hp _ _ H0) as (_ & _ & _ & _ & Hnul).
            rewrite Hc0 in Hnul. now inversion Hnul.
          - destruct (Hp _ _ H1) as (_ & _ & _ & _ & Hnul).
            rewrite Forall_lookup in Hnul. exact (Hnul _ _ Hc1). }
        unfold update_entry. rewrite He1a. reflexivity.
      + apply Rev0_postorder_walk_passes in Hw; [lia|lia]. }
  destruct Hwalk as (stw & j & Hw & Hj2).
  pose proof Hw as Hw'.
  apply Rev0_postorder_walk_passes in Hw' as (Hr & Hcw & Hpass & _); [|lia].
  assert (Hlenw : length stw = length table).
  { rewrite <- (length_fmap components stw), Hcw, Hsta. apply length_fmap. }
  destruct (lookup_lt_is_Some_2 stw j ltac:(lia)) as [ej Hej].
  replace (length table - 1 - 0)%nat with (S (length table - 2)) by lia.
  rewrite (Rev0_postorder_turn_recurses _ (length table - 2) st0 (length table - 1) 0
             0 j e1 (set_depth 0 e0) ej stw); [reflexivity|lia|lia|exact H1'|exact Hei| |exact Hej|].
  - change (n_components (set_depth 0 e0)) with (n_components e0).
    rewrite Hn0. exact Hw.
  - apply (Rev0_postorder_recursion_diverges (components <$> stw) 0 j);
      [lia|rewrite length_fmap; lia| |reflexivity].
    intros ci Hci. rewrite Hcw in Hci |- *.
    rewrite (comps_lookup sta _ 0 (set_depth 0 e0) eq_refl Hei) in Hci.
    injection Hci as <-.
    change (components (set_depth 0 e0)) with (components e0). rewrite Hc0.
    exact Hpass.
Qed.

Lemma Rev0_postorder_recurses_forever_witness :
  Rev0.main "x"%char 1000 false (unlines ["4 a"; "4 b"]%string "4 c") = OutOfFuel.
Proof.
  apply (Rev0_postorder_recurses_forever "x"%char (unlines ["4 a"; "4 b"]%string "4 c")
           [mkEntry 4 ["a"%string] None 0 0 [];
            mkEntry 4 ["b"%string] None 0 0 [];
            mkEntry 4 ["c"%string] None 0 0 []]
           (mkEntry 4 ["a"%string] None 0 0 [])
           (mkEntry 4 ["b"%string] None 0 0 []) "a"%string "b"%string).
  - vm_compute. reflexivity.
  - simpl. lia.
  - reflexivity.
  - reflexivity.
  - reflexivity.
  - reflexivity.
  - discriminate.
Defined.

(** X25. The earlier post-order variant reads past the components of a
    record when, in an input of three or more records, the second record
    has fewer components than the first has minus two: the walk of the
    first turn compares component [n0 - 1] of both records, for [n0] the
    number of components of the first, and the second record has none
    there. *)
Theorem Rev0_postorder_reads_past_components (junk : ascii) (stdin : string)
    (table : list entry) (e0 e1 : entry) (fuel : nat) :
  Rev0.read_entries junk (S (String.length stdin)) stdin [] 0 = Ok table ->
  (3 <= length table)%nat ->
  table !! 0%nat = Some e0 -> table !! 1%nat = Some e1 ->
  n_components e1 < n_components e0 - 2 ->
  Rev0.main junk (S fuel) false stdin
  = Undefined (ComponentOutOfBounds 1 (n_components e0 - 1)).
Proof.
  intros Hread Hlen H0 H1 Hlt.
  pose proof (Rev0_read_entries_parsed _ _ _ _ _ _ (Forall_nil_2 _) Hread) as Hp.
  rewrite Forall_lookup in Hp.
  destruct (Hp _ _ H0) as (_ & _ & _ & Hn0 & _).
  destruct (Hp _ _ H1) as (_ & _ & _ & Hn1 & _).
  unfold DU_COMPONENTS_MAX, DU_PATH_MAX in Hn0, Hn1.
  unfold Rev0.main. rewrite Hread. simpl bind.
  destruct (length table =? 0)%nat eqn:E; [apply Nat.eqb_eq in E; lia|].
  simpl negb. cbv iota.
  destruct (lookup_lt_is_Some_2 table (length table - 1) ltac:(lia)) as [el Hel].
  unfold entry_at at 1. rewrite Hel. simpl bind.
  unfold entry_at at 1. rewrite H0. simpl bind.
  rewrite (wrap32_small (n_components e0 - 1)) by lia.
  simpl Rev0.build_tree_postorder. unfold update_entry at 1. rewrite H0. simpl bind.
  set (d := n_components e0 - 1).
  set (st0 := <[0%nat := set_depth d e0]> table).
  assert (H1' : st0 !! 1%nat = Some e1).
  { unfold st0. rewrite list_lookup_insert_ne by lia. exact H1. }
  set (e1' := set_n_children 0 (set_depth (wrap32 (d - 1)) e1)).
  set (sta := <[1%nat := e1']> st0).
  assert (Hei : sta !! 0%nat = Some (set_depth d e0)).
  { unfold sta. rewrite list_lookup_insert_ne by lia.
    unfold st0. apply list_lookup_insert_eq. lia. }
  assert (He1a : sta !! 1%nat = Some e1').
  { unfold sta. apply list_lookup_insert_eq.
    unfold st0. rewrite length_insert. lia. }
  replace (length table - 1 - 0)%nat with (S (length table - 2)) by lia.
  simpl Rev0.postorder_loop.
  destruct (length table - 1 <=? 0)%nat eqn:E1; [apply Nat.leb_le in E1; lia|].
  unfold update_entry at 1. rewrite H1'. simpl bind.
  fold e1'. fold sta.
  unfold entry_at at 1. rewrite Hei. simpl bind.
  change (n_components (set_depth d e0)) with (n_components e0). fold d.
  rewrite (wrap32_small d) by (unfold d; lia).
  replace (length table - 1 - 1)%nat with (S (length table - 3)) by lia.
  simpl Rev0.postorder_walk.
  unfold entry_at at 1. rewrite He1a. simpl bind.
  change (n_components e1') with (n_components e1).
  rewrite (wrap32_small (d - 1)) by (unfold d; lia).
  destruct (n_components e1 <? d - 1) eqn:En;
    [|apply Z.ltb_ge in En; unfold d in En; lia].
  simpl negb. cbv iota.
  unfold entry_at at 1. rewrite Hei. simpl bind.
  unfold component_at.
  destruct (d <? 0) eqn:Ed; [apply Z.ltb_lt in Ed; unfold d in Ed; lia|].
  change (components (set_depth d e0)) with (components e0).
  change (components e1') with (components e1).
  destruct (lookup_lt_is_Some_2 (components e0) (Z.to_nat d)) as [c0 Hc0].
  { unfold n_components in *. unfold d. lia. }
  rewrite Hc0. simpl bind.
  rewrite (lookup_ge_None_2 (components e1) (Z.to_nat d))
    by (unfold n_components in *; unfold d; lia).
  reflexivity.
Qed.

Lemma Rev0_postorder_reads_past_components_witness :
  Rev0.main "x"%char 1 false (unlines ["4 a/b/c/d"; "4 e"]%string "4 f")
  = Undefined (ComponentOutOfBounds 1
                 (n_components (mkEntry 4 ["a"; "b"; "c"; "d"]%string None 0 0 []) - 1)).
Proof.
  apply (Rev0_postorder_reads_past_components "x"%char
           (unlines ["4 a/b/c/d"; "4 e"]%string "4 f")
           [mkEntry 4 ["a"; "b"; "c"; "d"]%string None 0 0 [];
            mkEntry 4 ["e"%string] None 0 0 [];
            mkEntry 4 ["f"%string] None 0 0 []]
           (mkEntry 4 ["a"; "b"; "c"; "d"]%string None 0 0 [])
           (mkEntry 4 ["e"%string] None 0 0 []) 0%nat).
  - vm_compute. reflexivity.
  - simpl. lia.
  - reflexivity.
  - reflexivity.
  - vm_compute. reflexivity.
Defined.
